(** * Gluecksrad: the fair draw engine of [gluecksrad.cpp]

    A shallow embedding of the draw engine, the fairness selector and the
    CSV codec of the application, and the properties of its specification
    that were checked against it.

    Conventions of the embedding.
    - A C++ [int] is a [Z].  The counters come from a file, and [counter++]
      on the largest [int] has no defined result in C++: the embedding gives
      it the result [Undefined SignedOverflow], and gives an access outside
      a vector the result [Undefined OutOfRange], so that such steps are
      visible in the statements instead of being given an invented meaning.
      Loop counters and the products with the values of the settings are
      computed on [Z]; the factor of the rollout, a [double] in the source,
      is a rational number and its product with the size of the pool is
      exact.
    - [std::string] is a list of 8-bit characters, [std::wstring] a list of
      UTF-16 code units.
    - [std::vector<T>] is a list, [std::set<int>] a finite set of integers
      whose iteration order is the ascending one.
    - The globals of the program are the fields of one [State] record that
      every handler takes and returns.  The random engine is the stream of
      the numbers it will deliver.
    - The calls into the platform (the UTF-8 conversions of the Win32 API,
      the text mode of the C runtime) are the operations of the class
      [Win32]; the files are a map from paths to contents together with the
      operations that the system refuses. *)

From Stdlib Require Import ZArith QArith Qround Ascii String Lia.
From stdpp Require Import base tactics option list gmap sorting strings.

Local Open Scope Z_scope.

(** ** Undefined behaviour as a result *)

Inductive fault : Type :=
  | OutOfRange      (* operator[] outside the vector *)
  | SignedOverflow  (* an int result that does not fit an int *)
  | Unbounded.      (* a loop that does not leave *)

Inductive result (A : Type) : Type :=
  | Ok (a : A)
  | Undefined (why : fault).
Arguments Ok {A} a.
Arguments Undefined {A} why.

#[global] Instance result_ret : MRet result := λ A a, Ok a.
#[global] Instance result_bind : MBind result := λ A B k r,
  match r with
  | Ok a => k a
  | Undefined why => Undefined why
  end.

Definition INT_MAX : Z := 2147483647.
Definition INT_MIN : Z := -2147483648.

(** ** Data model *)

Definition wchar_t : Type := N.
Definition wstring : Type := list wchar_t.
Definition cstring : Type := list ascii.

Record NameEntry : Type := mkEntry {
  name : wstring;
  counter : Z
}.

(** [v[i]] for an [int] index: defined inside the vector only. *)
Definition at_ {A} (v : list A) (i : Z) : option A :=
  if decide (0 ≤ i) then v !! Z.to_nat i else None.

(** ** Fairness logic *)

(** [for (auto& e : g_entries) minC = std::min(minC, e.counter);] *)
Definition scan_min (minC : Z) (entries : list NameEntry) : Z :=
  foldl (λ m e, Z.min m (counter e)) minC entries.

(** The loop [for (int i = 0; i < size; i++) if (counter == minC) push_back(i)],
    started at index [i] on the entries from [i] on. *)
Fixpoint collect_eq (minC : Z) (i : Z) (entries : list NameEntry) : list Z :=
  match entries with
  | [] => []
  | e :: rest =>
      if decide (counter e = minC)
      then i :: collect_eq minC (i + 1) rest
      else collect_eq minC (i + 1) rest
  end.

Definition EligibleIndices (entries : list NameEntry) : list Z :=
  match entries with
  | [] => []
  | e0 :: _ => collect_eq (scan_min (counter e0) entries) 0 entries
  end.

Definition NormalizeCounters (entries : list NameEntry) : list NameEntry :=
  match entries with
  | [] => []
  | e0 :: _ =>
      let minC := scan_min (counter e0) entries in
      if decide (minC > 0)
      then map (λ e, mkEntry (name e) (counter e - minC)) entries
      else entries
  end.

(** ** String helpers *)

Definition TAB : ascii := "009"%char.
Definition LF : ascii := "010"%char.
Definition VT : ascii := "011"%char.
Definition FF : ascii := "012"%char.
Definition CR : ascii := "013"%char.

(** A narrow literal as a wide literal: [L"..."] for ASCII text. *)
Definition L (s : string) : wstring := map N_of_ascii (list_ascii_of_string s).
Definition lit (s : string) : cstring := list_ascii_of_string s.

Definition BOM16 : wchar_t := 65279%N. (* L'\xFEFF' *)
Definition trim_front : list wchar_t := L " " ++ [9; 13; 10; BOM16]%N.
Definition trim_back : list wchar_t := L " " ++ [9; 13; 10]%N.

(** [s.find_first_not_of(set)], [None] for [npos]. *)
Fixpoint find_first_not_of (set : list wchar_t) (s : wstring) : option nat :=
  match s with
  | [] => None
  | c :: rest =>
      if bool_decide (c ∈ set) then S <$> find_first_not_of set rest else Some 0%nat
  end.

(** [s.find_last_not_of(set)], [None] for [npos]. *)
Fixpoint find_last_not_of (set : list wchar_t) (s : wstring) : option nat :=
  match s with
  | [] => None
  | c :: rest =>
      match find_last_not_of set rest with
      | Some k => Some (S k)
      | None => if bool_decide (c ∈ set) then None else Some 0%nat
      end
  end.

(** [s.substr(pos, n)] for [pos <= s.size()]. *)
Definition substr {A} (s : list A) (pos n : nat) : list A := take n (drop pos s).

(** [Trim]: when [find_last_not_of] gives [npos] the count [e - b + 1] is
    computed on [size_t] and is [0] for [b = 0] and larger than the string
    otherwise. *)
Definition Trim (s : wstring) : wstring :=
  match find_first_not_of trim_front s with
  | None => []
  | Some b =>
      match find_last_not_of trim_back s with
      | Some e => substr s b (e - b + 1)
      | None => if decide (b = 0%nat) then [] else drop b s
      end
  end.

(** ** CSV loading / saving *)

Definition count_char (c : ascii) (s : cstring) : Z :=
  foldl (λ n d, if decide (d = c) then n + 1 else n) 0 s.

Definition DetectDelimiter (firstLine : cstring) : ascii :=
  if decide (count_char ";" firstLine >= count_char "," firstLine)
  then ";"%char else ","%char.

(** [std::getline(stream, field, delim)] on the characters still in the
    stream: the field read and the characters left.  It fails, leaving the
    field as it was, when the stream is at its end. *)
Fixpoint getline_chars (delim : ascii) (s : cstring) : cstring * cstring :=
  match s with
  | [] => ([], [])
  | c :: rest =>
      if decide (c = delim) then ([], rest)
      else let '(field, rest') := getline_chars delim rest in (c :: field, rest')
  end.

Definition getline (delim : ascii) (s : cstring) : option (cstring * cstring) :=
  match s with
  | [] => None
  | _ => Some (getline_chars delim s)
  end.

(** The lines that [while (std::getline(stream, line))] reads in turn. *)
Fixpoint getlines (s : cstring) : list cstring :=
  match s with
  | [] => []
  | c :: rest =>
      if decide (c = LF) then [] :: getlines rest
      else match getlines rest with
           | [] => [[c]]
           | line :: more => (c :: line) :: more
           end
  end.

(** [std::stoi(str)] in base 10: leading white space, an optional sign and
    the longest run of digits; [None] stands for the exception thrown when
    there is no digit ([invalid_argument]) or the value does not fit an
    [int] ([out_of_range]). *)
Definition isspace (c : ascii) : bool :=
  bool_decide (c ∈ [" "%char; TAB; LF; VT; FF; CR]).

Definition digit_of (c : ascii) : option Z :=
  let n := Z.of_N (N_of_ascii c) in
  if decide (48 ≤ n ≤ 57) then Some (n - 48) else None.

Fixpoint skip_space (s : cstring) : cstring :=
  match s with
  | c :: rest => if isspace c then skip_space rest else s
  | [] => []
  end.

Fixpoint read_digits (acc : Z) (s : cstring) : Z :=
  match s with
  | c :: rest =>
      match digit_of c with
      | Some d => read_digits (acc * 10 + d) rest
      | None => acc
      end
  | [] => acc
  end.

Definition stoi (str : cstring) : option Z :=
  let s := skip_space str in
  let '(negative, digits) :=
    match s with
    | c :: rest =>
        if decide (c = "-"%char) then (true, rest)
        else if decide (c = "+"%char) then (false, rest)
        else (false, s)
    | [] => (false, s)
    end in
  match digits with
  | c :: _ =>
      match digit_of c with
      | Some _ =>
          let v := read_digits 0 digits in
          let v := if negative then - v else v in
          if decide (INT_MIN ≤ v ≤ INT_MAX) then Some v else None
      | None => None
      end
  | [] => None
  end.

(** [std::to_string(int)]: the decimal digits, most significant first, after
    a minus sign for a negative value. *)
Definition digit_char (d : Z) : ascii := ascii_of_N (Z.to_N (48 + d)).

Fixpoint digits_of (fuel : nat) (n : Z) (acc : cstring) : cstring :=
  match fuel with
  | O => acc
  | S fuel' =>
      let acc' := digit_char (n mod 10) :: acc in
      if decide (n < 10) then acc' else digits_of fuel' (n / 10) acc'
  end.

(** A number has no more decimal digits than binary ones. *)
Definition to_digits (n : Z) : cstring := digits_of (S (Z.to_nat (Z.log2 n))) n [].

Definition to_string (n : Z) : cstring :=
  if decide (n < 0) then "-"%char :: to_digits (- n) else to_digits n.

Definition to_wstring (n : Z) : wstring := map N_of_ascii (to_string n).

(** The platform services the program calls: the two UTF-8 conversions of
    the Win32 API (code page [CP_UTF8], flags [0]) and the translation that
    a stream opened in text mode applies to the bytes of a file. *)
Class Win32 : Type := {
  MultiByteToWideChar : cstring → wstring;
  WideCharToMultiByte : wstring → cstring;
  text_mode : cstring → cstring
}.

Section Csv.
Context `{Win32}.

Definition Utf8ToWide (s : cstring) : wstring :=
  match s with
  | [] => []
  | _ => MultiByteToWideChar s
  end.

Definition WideToUtf8 (w : wstring) : cstring :=
  match w with
  | [] => []
  | _ => WideCharToMultiByte w
  end.

(** The body of the [while (std::getline(..., line))] loop of [LoadCSV] for
    one line: the entry pushed, if any. *)
Definition parse_row (delim : ascii) (line : cstring) : option NameEntry :=
  match line with
  | [] => None
  | _ =>
      let '(nameField, rest) := getline_chars delim line in
      let counterField :=
        match getline delim rest with
        | Some (field, _) => field
        | None => []
        end in
      let wname := Trim (Utf8ToWide nameField) in
      if bool_decide (wname = [] ∨ wname = L "nan" ∨ wname = L "None") then None
      else
        let cnt := match stoi counterField with Some v => v | None => 0 end in
        Some (mkEntry wname cnt)
  end.

(** What either branch of [LoadCSV] leaves in [g_entries] for the characters
    of the file: the first line gives the delimiter, every further line at
    most one entry. *)
Definition read_rows (stream : cstring) : list NameEntry :=
  let lines := getlines stream in
  let delim := DetectDelimiter (hd [] lines) in
  omap (parse_row delim) (tl lines).

(** The bytes [SaveCSV] writes to the temporary file. *)
Definition BOM8 : cstring :=
  [ascii_of_N 239; ascii_of_N 187; ascii_of_N 191]. (* "\xEF\xBB\xBF" *)

Definition csv_line (e : NameEntry) : cstring :=
  WideToUtf8 (name e) ++ lit ";" ++ to_string (counter e) ++ [CR; LF].

Definition csv_bytes (entries : list NameEntry) : cstring :=
  BOM8 ++ (lit "Name;Counter" ++ [CR; LF]) ++ concat (map csv_line entries).

(** The files of the machine: their contents by wide path, the file that a
    narrow path names for the C runtime, and the operations that the system
    refuses on a path (a locked or read-only file, a missing directory). *)
Inductive io_op : Type := FOPEN_READ | FOPEN_WRITE | REMOVE | RENAME | COPY.

Record FileSystem : Type := mkFS {
  files : gmap wstring cstring;
  narrow_path : cstring → option wstring;
  refuses : io_op → wstring → bool
}.

Definition with_files (fs : FileSystem) (m : gmap wstring cstring) : FileSystem :=
  mkFS m (narrow_path fs) (refuses fs).

Definition ifstream_open (fs : FileSystem) (p : cstring) : option cstring :=
  match narrow_path fs p with
  | Some wp => if refuses fs FOPEN_READ wp then None else text_mode <$> files fs !! wp
  | None => None
  end.

Definition wfopen_rb (fs : FileSystem) (p : wstring) : option cstring :=
  if refuses fs FOPEN_READ p then None else files fs !! p.

(** [LoadCSV]: the value returned and the new [g_entries]. *)
Definition LoadCSV (path : wstring) (fs : FileSystem) (g_entries : list NameEntry)
    : bool * list NameEntry :=
  match ifstream_open fs (WideToUtf8 path) with
  | None =>
      match wfopen_rb fs path with
      | None => (false, g_entries)
      | Some buf =>
          let g_entries := read_rows buf in
          (bool_decide (g_entries ≠ []), g_entries)
      end
  | Some stream =>
      let g_entries := read_rows stream in
      (bool_decide (g_entries ≠ []), g_entries)
  end.

Definition wremove (p : wstring) (fs : FileSystem) : FileSystem :=
  if refuses fs REMOVE p then fs else with_files fs (delete p (files fs)).

(** [_wrename(from, to)]: fails when the target exists. *)
Definition wrename (from to : wstring) (fs : FileSystem) : bool * FileSystem :=
  match files fs !! from, files fs !! to with
  | Some data, None =>
      if refuses fs RENAME to then (false, fs)
      else (true, with_files fs (<[to := data]> (delete from (files fs))))
  | _, _ => (false, fs)
  end.

(** [CopyFileW(from, to, FALSE)]: overwrites the target. *)
Definition CopyFileW (from to : wstring) (fs : FileSystem) : bool * FileSystem :=
  match files fs !! from with
  | Some data =>
      if refuses fs COPY to then (false, fs)
      else (true, with_files fs (<[to := data]> (files fs)))
  | None => (false, fs)
  end.

(** [SaveCSV]: the value returned and the files afterwards. *)
Definition SaveCSV (path : wstring) (g_entries : list NameEntry) (fs : FileSystem)
    : bool * FileSystem :=
  let tmpPath := path ++ L ".tmp" in
  if refuses fs FOPEN_WRITE tmpPath then (false, fs)
  else
    let fs := with_files fs (<[tmpPath := csv_bytes g_entries]> (files fs)) in
    let fs := wremove path fs in
    let '(renamed, fs) := wrename tmpPath path fs in
    if renamed then (true, fs)
    else
      let '(_, fs) := CopyFileW tmpPath path fs in
      let fs := wremove tmpPath fs in
      (true, fs).

End Csv.

(** ** Global application state *)

Inductive Timer : Type := TIMER_ANIM | TIMER_BLINK | TIMER_NEXT | TIMER_FINISH.

#[global] Instance Timer_eq_dec : EqDecision Timer.
Proof. solve_decision. Defined.

(** The globals of the program.  [g_rng] is the stream of numbers that the
    random engine will deliver, [timers] tells which Win32 timers are set,
    [statusText] is the text of the status bar, [messageBoxes] the titles of
    the message boxes shown so far (latest first) and [disk] the files.  The
    window handles, the list view and the delays of the timers are not part
    of the embedding. *)
Record State : Type := mkState {
  g_entries : list NameEntry;
  g_filePath : wstring;
  g_animRunning : bool;
  g_toDrawTotal : Z;
  g_drawnCount : Z;
  g_roundSelectedIdx : gset Z;
  g_roundExcludedIdx : gset Z;
  g_animPath : list Z;
  g_animWinnerIdx : Z;
  g_blinkState : Z;
  g_blinkIid : Z;
  g_scanHighlightRow : Z;
  g_winnerRows : gset Z;
  CFG_SPIN_ROUNDS : Z;
  CFG_SPIN_ROLLOUT_FACTOR : Q;
  CFG_BLINK_TIMES : Z;
  g_rng : nat → nat;
  timers : Timer → bool;
  statusText : wstring;
  messageBoxes : list wstring;
  disk : FileSystem
}.

(** An assignment to one global: the other fields are kept. *)
Definition set_g_entries (v : list NameEntry) (s : State) : State :=
  mkState
    v (g_filePath s) (g_animRunning s) (g_toDrawTotal s) (g_drawnCount s)
    (g_roundSelectedIdx s) (g_roundExcludedIdx s) (g_animPath s)
    (g_animWinnerIdx s) (g_blinkState s) (g_blinkIid s) (g_scanHighlightRow s)
    (g_winnerRows s) (CFG_SPIN_ROUNDS s) (CFG_SPIN_ROLLOUT_FACTOR s)
    (CFG_BLINK_TIMES s) (g_rng s) (timers s) (statusText s) (messageBoxes s)
    (disk s).
Definition set_g_filePath (v : wstring) (s : State) : State :=
  mkState
    (g_entries s) v (g_animRunning s) (g_toDrawTotal s) (g_drawnCount s)
    (g_roundSelectedIdx s) (g_roundExcludedIdx s) (g_animPath s)
    (g_animWinnerIdx s) (g_blinkState s) (g_blinkIid s) (g_scanHighlightRow s)
    (g_winnerRows s) (CFG_SPIN_ROUNDS s) (CFG_SPIN_ROLLOUT_FACTOR s)
    (CFG_BLINK_TIMES s) (g_rng s) (timers s) (statusText s) (messageBoxes s)
    (disk s).
Definition set_g_animRunning (v : bool) (s : State) : State :=
  mkState
    (g_entries s) (g_filePath s) v (g_toDrawTotal s) (g_drawnCount s)
    (g_roundSelectedIdx s) (g_roundExcludedIdx s) (g_animPath s)
    (g_animWinnerIdx s) (g_blinkState s) (g_blinkIid s) (g_scanHighlightRow s)
    (g_winnerRows s) (CFG_SPIN_ROUNDS s) (CFG_SPIN_ROLLOUT_FACTOR s)
    (CFG_BLINK_TIMES s) (g_rng s) (timers s) (statusText s) (messageBoxes s)
    (disk s).
Definition set_g_toDrawTotal (v : Z) (s : State) : State :=
  mkState
    (g_entries s) (g_filePath s) (g_animRunning s) v (g_drawnCount s)
    (g_roundSelectedIdx s) (g_roundExcludedIdx s) (g_animPath s)
    (g_animWinnerIdx s) (g_blinkState s) (g_blinkIid s) (g_scanHighlightRow s)
    (g_winnerRows s) (CFG_SPIN_ROUNDS s) (CFG_SPIN_ROLLOUT_FACTOR s)
    (CFG_BLINK_TIMES s) (g_rng s) (timers s) (statusText s) (messageBoxes s)
    (disk s).
Definition set_g_drawnCount (v : Z) (s : State) : State :=
  mkState
    (g_entries s) (g_filePath s) (g_animRunning s) (g_toDrawTotal s) v
    (g_roundSelectedIdx s) (g_roundExcludedIdx s) (g_animPath s)
    (g_animWinnerIdx s) (g_blinkState s) (g_blinkIid s) (g_scanHighlightRow s)
    (g_winnerRows s) (CFG_SPIN_ROUNDS s) (CFG_SPIN_ROLLOUT_FACTOR s)
    (CFG_BLINK_TIMES s) (g_rng s) (timers s) (statusText s) (messageBoxes s)
    (disk s).
Definition set_g_roundSelectedIdx (v : gset Z) (s : State) : State :=
  mkState
    (g_entries s) (g_filePath s) (g_animRunning s) (g_toDrawTotal s)
    (g_drawnCount s) v (g_roundExcludedIdx s) (g_animPath s)
    (g_animWinnerIdx s) (g_blinkState s) (g_blinkIid s) (g_scanHighlightRow s)
    (g_winnerRows s) (CFG_SPIN_ROUNDS s) (CFG_SPIN_ROLLOUT_FACTOR s)
    (CFG_BLINK_TIMES s) (g_rng s) (timers s) (statusText s) (messageBoxes s)
    (disk s).
Definition set_g_roundExcludedIdx (v : gset Z) (s : State) : State :=
  mkState
    (g_entries s) (g_filePath s) (g_animRunning s) (g_toDrawTotal s)
    (g_drawnCount s) (g_roundSelectedIdx s) v (g_animPath s)
    (g_animWinnerIdx s) (g_blinkState s) (g_blinkIid s) (g_scanHighlightRow s)
    (g_winnerRows s) (CFG_SPIN_ROUNDS s) (CFG_SPIN_ROLLOUT_FACTOR s)
    (CFG_BLINK_TIMES s) (g_rng s) (timers s) (statusText s) (messageBoxes s)
    (disk s).
Definition set_g_animPath (v : list Z) (s : State) : State :=
  mkState
    (g_entries s) (g_filePath s) (g_animRunning s) (g_toDrawTotal s)
    (g_drawnCount s) (g_roundSelectedIdx s) (g_roundExcludedIdx s) v
    (g_animWinnerIdx s) (g_blinkState s) (g_blinkIid s) (g_scanHighlightRow s)
    (g_winnerRows s) (CFG_SPIN_ROUNDS s) (CFG_SPIN_ROLLOUT_FACTOR s)
    (CFG_BLINK_TIMES s) (g_rng s) (timers s) (statusText s) (messageBoxes s)
    (disk s).
Definition set_g_animWinnerIdx (v : Z) (s : State) : State :=
  mkState
    (g_entries s) (g_filePath s) (g_animRunning s) (g_toDrawTotal s)
    (g_drawnCount s) (g_roundSelectedIdx s) (g_roundExcludedIdx s)
    (g_animPath s) v (g_blinkState s) (g_blinkIid s) (g_scanHighlightRow s)
    (g_winnerRows s) (CFG_SPIN_ROUNDS s) (CFG_SPIN_ROLLOUT_FACTOR s)
    (CFG_BLINK_TIMES s) (g_rng s) (timers s) (statusText s) (messageBoxes s)
    (disk s).
Definition set_g_blinkState (v : Z) (s : State) : State :=
  mkState
    (g_entries s) (g_filePath s) (g_animRunning s) (g_toDrawTotal s)
    (g_drawnCount s) (g_roundSelectedIdx s) (g_roundExcludedIdx s)
    (g_animPath s) (g_animWinnerIdx s) v (g_blinkIid s) (g_scanHighlightRow s)
    (g_winnerRows s) (CFG_SPIN_ROUNDS s) (CFG_SPIN_ROLLOUT_FACTOR s)
    (CFG_BLINK_TIMES s) (g_rng s) (timers s) (statusText s) (messageBoxes s)
    (disk s).
Definition set_g_blinkIid (v : Z) (s : State) : State :=
  mkState
    (g_entries s) (g_filePath s) (g_animRunning s) (g_toDrawTotal s)
    (g_drawnCount s) (g_roundSelectedIdx s) (g_roundExcludedIdx s)
    (g_animPath s) (g_animWinnerIdx s) (g_blinkState s) v
    (g_scanHighlightRow s) (g_winnerRows s) (CFG_SPIN_ROUNDS s)
    (CFG_SPIN_ROLLOUT_FACTOR s) (CFG_BLINK_TIMES s) (g_rng s) (timers s)
    (statusText s) (messageBoxes s) (disk s).
Definition set_g_scanHighlightRow (v : Z) (s : State) : State :=
  mkState
    (g_entries s) (g_filePath s) (g_animRunning s) (g_toDrawTotal s)
    (g_drawnCount s) (g_roundSelectedIdx s) (g_roundExcludedIdx s)
    (g_animPath s) (g_animWinnerIdx s) (g_blinkState s) (g_blinkIid s) v
    (g_winnerRows s) (CFG_SPIN_ROUNDS s) (CFG_SPIN_ROLLOUT_FACTOR s)
    (CFG_BLINK_TIMES s) (g_rng s) (timers s) (statusText s) (messageBoxes s)
    (disk s).
Definition set_g_winnerRows (v : gset Z) (s : State) : State :=
  mkState
    (g_entries s) (g_filePath s) (g_animRunning s) (g_toDrawTotal s)
    (g_drawnCount s) (g_roundSelectedIdx s) (g_roundExcludedIdx s)
    (g_animPath s) (g_animWinnerIdx s) (g_blinkState s) (g_blinkIid s)
    (g_scanHighlightRow s) v (CFG_SPIN_ROUNDS s) (CFG_SPIN_ROLLOUT_FACTOR s)
    (CFG_BLINK_TIMES s) (g_rng s) (timers s) (statusText s) (messageBoxes s)
    (disk s).
Definition set_g_rng (v : nat → nat) (s : State) : State :=
  mkState
    (g_entries s) (g_filePath s) (g_animRunning s) (g_toDrawTotal s)
    (g_drawnCount s) (g_roundSelectedIdx s) (g_roundExcludedIdx s)
    (g_animPath s) (g_animWinnerIdx s) (g_blinkState s) (g_blinkIid s)
    (g_scanHighlightRow s) (g_winnerRows s) (CFG_SPIN_ROUNDS s)
    (CFG_SPIN_ROLLOUT_FACTOR s) (CFG_BLINK_TIMES s) v (timers s)
    (statusText s) (messageBoxes s) (disk s).
Definition set_timers (v : Timer → bool) (s : State) : State :=
  mkState
    (g_entries s) (g_filePath s) (g_animRunning s) (g_toDrawTotal s)
    (g_drawnCount s) (g_roundSelectedIdx s) (g_roundExcludedIdx s)
    (g_animPath s) (g_animWinnerIdx s) (g_blinkState s) (g_blinkIid s)
    (g_scanHighlightRow s) (g_winnerRows s) (CFG_SPIN_ROUNDS s)
    (CFG_SPIN_ROLLOUT_FACTOR s) (CFG_BLINK_TIMES s) (g_rng s) v (statusText s)
    (messageBoxes s) (disk s).
Definition set_statusText (v : wstring) (s : State) : State :=
  mkState
    (g_entries s) (g_filePath s) (g_animRunning s) (g_toDrawTotal s)
    (g_drawnCount s) (g_roundSelectedIdx s) (g_roundExcludedIdx s)
    (g_animPath s) (g_animWinnerIdx s) (g_blinkState s) (g_blinkIid s)
    (g_scanHighlightRow s) (g_winnerRows s) (CFG_SPIN_ROUNDS s)
    (CFG_SPIN_ROLLOUT_FACTOR s) (CFG_BLINK_TIMES s) (g_rng s) (timers s) v
    (messageBoxes s) (disk s).
Definition set_messageBoxes (v : list wstring) (s : State) : State :=
  mkState
    (g_entries s) (g_filePath s) (g_animRunning s) (g_toDrawTotal s)
    (g_drawnCount s) (g_roundSelectedIdx s) (g_roundExcludedIdx s)
    (g_animPath s) (g_animWinnerIdx s) (g_blinkState s) (g_blinkIid s)
    (g_scanHighlightRow s) (g_winnerRows s) (CFG_SPIN_ROUNDS s)
    (CFG_SPIN_ROLLOUT_FACTOR s) (CFG_BLINK_TIMES s) (g_rng s) (timers s)
    (statusText s) v (disk s).
Definition set_disk (v : FileSystem) (s : State) : State :=
  mkState
    (g_entries s) (g_filePath s) (g_animRunning s) (g_toDrawTotal s)
    (g_drawnCount s) (g_roundSelectedIdx s) (g_roundExcludedIdx s)
    (g_animPath s) (g_animWinnerIdx s) (g_blinkState s) (g_blinkIid s)
    (g_scanHighlightRow s) (g_winnerRows s) (CFG_SPIN_ROUNDS s)
    (CFG_SPIN_ROLLOUT_FACTOR s) (CFG_BLINK_TIMES s) (g_rng s) (timers s)
    (statusText s) (messageBoxes s) v.

(** [v[i]] as an operation of the program: undefined outside the vector. *)
Definition index {A} (v : list A) (i : Z) : result A :=
  match at_ v i with
  | Some x => Ok x
  | None => Undefined OutOfRange
  end.

(** [c++] on an [int]. *)
Definition int_incr (c : Z) : result Z :=
  if decide (c < INT_MAX) then Ok (c + 1) else Undefined SignedOverflow.

(** Iteration over a [std::set<int>]: ascending. *)
Definition set_iter (X : gset Z) : list Z := merge_sort Z.le (elements X).

(** [(int)x] for the product of a size and a factor: the fraction is dropped. *)
Definition Qtrunc (x : Q) : Z := Z.quot (Qnum x) (Z.pos (Qden x)).

(** ** Timers, status bar and highlights *)

Definition SetTimer (id : Timer) (s : State) : State :=
  set_timers (λ t, if decide (t = id) then true else timers s t) s.

Definition KillTimer (id : Timer) (s : State) : State :=
  set_timers (λ t, if decide (t = id) then false else timers s t) s.

Definition SetStatus (text : wstring) (s : State) : State := set_statusText text s.

Definition MessageBoxW (title : wstring) (s : State) : State :=
  set_messageBoxes (title :: messageBoxes s) s.

Definition ClearScanHighlight (s : State) : State :=
  if decide (g_scanHighlightRow s >= 0) then set_g_scanHighlightRow (-1) s else s.

Definition SetScanHighlight (idx : Z) (s : State) : State :=
  set_g_scanHighlightRow idx (ClearScanHighlight s).

Definition SetWinnerHighlight (idx : Z) (s : State) : State :=
  set_g_winnerRows ({[idx]} ∪ g_winnerRows s) s.

Definition ClearWinnerHighlight (idx : Z) (s : State) : State :=
  set_g_winnerRows (g_winnerRows s ∖ {[idx]}) s.

Definition ClearAllHighlights (s : State) : State :=
  set_g_winnerRows ∅ (set_g_scanHighlightRow (-1) s).

(** ** Animation logic *)

Definition StopAllTimers (s : State) : State :=
  KillTimer TIMER_FINISH
    (KillTimer TIMER_NEXT (KillTimer TIMER_BLINK (KillTimer TIMER_ANIM s))).

Definition EndRoundEarly (s : State) : State :=
  let s := StopAllTimers s in
  let s := set_g_animRunning false s in
  let s := set_g_roundSelectedIdx ∅ s in
  let s := set_g_roundExcludedIdx ∅ s in
  SetStatus (L "Ziehung abgebrochen.") s.

Definition StartBlink (s : State) : State :=
  let s := set_g_blinkState (CFG_BLINK_TIMES s * 2) s in
  let s := set_g_blinkIid (g_animWinnerIdx s) s in
  SetTimer TIMER_BLINK s.

Definition OnAnimTimer (s : State) : State :=
  match g_animPath s with
  | [] =>
      let s := KillTimer TIMER_ANIM s in
      let s := SetScanHighlight (g_animWinnerIdx s) s in
      let s := SetWinnerHighlight (g_animWinnerIdx s) s in
      let s := set_g_roundSelectedIdx ({[g_animWinnerIdx s]} ∪ g_roundSelectedIdx s) s in
      let s := set_g_roundExcludedIdx ({[g_animWinnerIdx s]} ∪ g_roundExcludedIdx s) s in
      StartBlink s
  | idx :: rest =>
      let s := set_g_animPath rest s in
      let s := SetScanHighlight idx s in
      SetTimer TIMER_ANIM s
  end.

Definition OnBlinkTimer (s : State) : State :=
  if decide (g_blinkState s <= 0) then
    let s := KillTimer TIMER_BLINK s in
    let s := SetWinnerHighlight (g_blinkIid s) s in
    let s := ClearScanHighlight s in
    SetTimer TIMER_NEXT s
  else
    let s :=
      if decide (g_blinkIid s ∈ g_winnerRows s)
      then set_g_scanHighlightRow (-1) (ClearWinnerHighlight (g_blinkIid s) s)
      else SetWinnerHighlight (g_blinkIid s) s in
    set_g_blinkState (g_blinkState s - 1) s.

(** The random engine: [dist(g_rng)] for a [uniform_int_distribution<int>]
    over [lo..hi] takes the next number of the stream into that range. *)
Definition uniform_int (lo hi : Z) (s : State) : Z * State :=
  (lo + Z.of_nat (g_rng s 0%nat) mod (hi - lo + 1),
   set_g_rng (λ k, g_rng s (S k)) s).

(** The [while (true)] loop of [DrawNextOne] that appends the rollout to the
    path.  [fuel] bounds the iterations of the embedding; the loop of the
    source leaves at its own cap [maxSteps]. *)
Fixpoint rollout_loop (fuel : nat) (filtered : list Z) (winnerIdx rollout maxSteps : Z)
    (cur steps : Z) (path : list Z) : option (result (list Z)) :=
  match fuel with
  | O => None
  | S fuel' =>
      match index filtered cur with
      | Undefined why => Some (Undefined why)
      | Ok idx =>
          let path := path ++ [idx] in
          let steps := steps + 1 in
          if decide (steps >= rollout ∧ idx = winnerIdx) then Some (Ok path)
          else if decide (steps >= maxSteps) then Some (Ok (path ++ [winnerIdx]))
          else rollout_loop fuel' filtered winnerIdx rollout maxSteps
                 (Z.rem (cur + 1) (Z.of_nat (length filtered))) steps path
      end
  end.

Section Engine.
Context `{Win32}.

Definition summary_heading : wstring :=
  L "Runde beendet " ++ [8211%N] ++ L " Gewinner: ".

(** The loop of [FinishRound] that builds the summary, with its [first]
    flag, over the indices that the iteration of the set delivers. *)
Fixpoint summary_loop (entries : list NameEntry) (idxs : list Z)
    (summary : wstring) (first : bool) : result wstring :=
  match idxs with
  | [] => Ok summary
  | i :: rest =>
      let summary := if first then summary else summary ++ L ", " in
      e ← index entries i;
      summary_loop entries rest (summary ++ name e) false
  end.

Definition FinishRound (s : State) : result State :=
  let s :=
    match g_filePath s with
    | [] => s
    | _ =>
        let '(saved, fs) := SaveCSV (g_filePath s) (g_entries s) (disk s) in
        let s := set_disk fs s in
        if saved then s else MessageBoxW (L "Speicherfehler") s
    end in
  summary ← summary_loop (g_entries s) (set_iter (g_roundSelectedIdx s))
              summary_heading true;
  let s := SetStatus summary s in
  let s := set_g_animRunning false s in
  let s := set_g_roundSelectedIdx ∅ s in
  Ok (set_g_roundExcludedIdx ∅ s).

(** [g_entries[idx].counter++] *)
Definition increment_counter (idx : Z) (entries : list NameEntry)
    : result (list NameEntry) :=
  e ← index entries idx;
  c ← int_incr (counter e);
  Ok (<[Z.to_nat idx := mkEntry (name e) c]> entries).

Definition ApplyWinnerAndContinue (s : State) : result State :=
  let idx := g_animWinnerIdx s in
  entries ← increment_counter idx (g_entries s);
  let s := set_g_entries entries s in
  let s := set_g_entries (NormalizeCounters (g_entries s)) s in
  let s := set_g_drawnCount (g_drawnCount s + 1) s in
  e ← index (g_entries s) idx;
  let status := L "Gezogen: " ++ to_wstring (g_drawnCount s) ++ L "/"
                ++ to_wstring (g_toDrawTotal s) ++ L " " ++ [8211%N] ++ L " Gewinner: "
                ++ name e in
  let s := SetStatus status s in
  if decide (g_drawnCount s < g_toDrawTotal s)
  then Ok (SetTimer TIMER_FINISH s)
  else FinishRound s.

Definition OnNextTimer (s : State) : result State :=
  ApplyWinnerAndContinue (KillTimer TIMER_NEXT s).

(** The candidates of a draw: the eligible indices that were not picked in
    this batch, or all eligible ones when none is left. *)
Definition draw_pool (elig : list Z) (excluded : gset Z) : list Z :=
  let filtered := filter (λ i, i ∉ excluded) elig in
  match filtered with
  | [] => elig
  | _ => filtered
  end.

Definition DrawNextOne (s : State) : result State :=
  match g_entries s with
  | [] => Ok (EndRoundEarly s)
  | _ =>
      let elig := EligibleIndices (g_entries s) in
      let s :=
        match elig with
        | [] => set_g_entries (NormalizeCounters (g_entries s)) s
        | _ => s
        end in
      let elig :=
        match elig with
        | [] => EligibleIndices (g_entries s)
        | _ => elig
        end in
      match elig with
      | [] => Ok (EndRoundEarly s)
      | _ =>
          let filtered := draw_pool elig (g_roundExcludedIdx s) in
          let size := Z.of_nat (length filtered) in
          let '(pick, s) := uniform_int 0 (size - 1) s in
          winnerIdx ← index filtered pick;
          let s := set_g_animWinnerIdx winnerIdx s in
          let laps := concat (replicate (Z.to_nat (CFG_SPIN_ROUNDS s)) filtered) in
          let rollout := Z.max 1 (Qtrunc (inject_Z size * CFG_SPIN_ROLLOUT_FACTOR s)) in
          let '(cur, s) := uniform_int 0 (size - 1) s in
          let maxSteps := rollout + size * 2 in
          match rollout_loop (Z.to_nat maxSteps) filtered winnerIdx rollout maxSteps
                  cur 0 laps with
          | None => Undefined Unbounded
          | Some r =>
              path ← r;
              let s := set_g_animPath path s in
              Ok (SetTimer TIMER_ANIM s)
          end
      end
  end.

Definition OnFinishTimer (s : State) : result State :=
  DrawNextOne (KillTimer TIMER_FINISH s).

(** [OnDrawClicked], with the number [n] that [_wtoi] reads in the edit box. *)
Definition OnDrawClicked (n : Z) (s : State) : result State :=
  if bool_decide (g_entries s = []) || g_animRunning s then Ok s
  else if decide (n < 1) then Ok (MessageBoxW (L "Eingabe") s)
  else
    let n := Z.min n (Z.of_nat (length (g_entries s))) in
    let s := set_g_toDrawTotal n s in
    let s := set_g_drawnCount 0 s in
    let s := set_g_roundSelectedIdx ∅ s in
    let s := set_g_roundExcludedIdx ∅ s in
    let s := set_g_animRunning true s in
    let s := SetStatus (L "Ziehe " ++ to_wstring n ++ L " Person(en) " ++ [8230%N]) s in
    DrawNextOne s.

(** ** File loading *)

Definition DoLoadFile (path : wstring) (s : State) : State :=
  let '(loaded, entries) := LoadCSV path (disk s) (g_entries s) in
  let s := set_g_entries entries s in
  if loaded then
    let s := set_g_filePath path s in
    SetStatus (L "Geladen: " ++ to_wstring (Z.of_nat (length (g_entries s)))
               ++ L " Eintr" ++ [228%N] ++ L "ge aus " ++ path) s
  else MessageBoxW (L "Fehler beim Laden") s.

(** [OnLoadExcel], with the path chosen in the file dialog, if any. *)
Definition OnLoadExcel (chosen : option wstring) (s : State) : State :=
  if g_animRunning s then MessageBoxW (L "Bitte warten") s
  else match chosen with
       | Some path => DoLoadFile path s
       | None => s
       end.

Definition OnReloadExcel (s : State) : State :=
  if g_animRunning s then MessageBoxW (L "Bitte warten") s
  else match g_filePath s with
       | [] => s
       | path => DoLoadFile path s
       end.

(** ** Window procedure: timer messages *)

(** [WM_TIMER] for the timer that is set.  The handlers keep at most one
    timer set at a time; a message for a timer that is not set does not
    arrive. *)
Definition OnTimer (id : Timer) (s : State) : result State :=
  match id with
  | TIMER_ANIM => Ok (OnAnimTimer s)
  | TIMER_BLINK => Ok (OnBlinkTimer s)
  | TIMER_NEXT => OnNextTimer s
  | TIMER_FINISH => OnFinishTimer s
  end.

Definition next_timer (s : State) : option Timer :=
  if timers s TIMER_ANIM then Some TIMER_ANIM
  else if timers s TIMER_BLINK then Some TIMER_BLINK
  else if timers s TIMER_NEXT then Some TIMER_NEXT
  else if timers s TIMER_FINISH then Some TIMER_FINISH
  else None.

Definition tick (s : State) : result State :=
  match next_timer s with
  | Some id => OnTimer id s
  | None => Ok s
  end.

(** One committed draw as the batch log keeps it: the winner and the roster
    from which it was selected. *)
Definition Draw : Type := Z * list NameEntry.

(** [k] timer messages from [s]: the draws committed on the way, in the order
    of their commits, and the state reached. *)
Fixpoint run (k : nat) (s : State) : result (list Draw * State) :=
  match k with
  | O => Ok ([], s)
  | S k' =>
      s' ← tick s;
      '(log, s'') ← run k' s';
      match next_timer s with
      | Some TIMER_NEXT => Ok ((g_animWinnerIdx s, g_entries s) :: log, s'')
      | _ => Ok (log, s'')
      end
  end.

End Engine.

(** ** A platform and states to evaluate the program on *)

(** A platform for files of ASCII text: every character is one code unit, a
    code unit that is not ASCII is written as the byte 255, and the text mode
    changes nothing. *)
Definition narrow (u : wchar_t) : ascii :=
  if decide (u < 128)%N then ascii_of_N u else ascii_of_N 255.

Definition ascii_platform : Win32 := {|
  MultiByteToWideChar := map N_of_ascii;
  WideCharToMultiByte := map narrow;
  text_mode := id
|}.

(** Files that can be opened by their narrow names as well, with an
    operation refused where [locked] says so. *)
Definition ascii_files (m : gmap wstring cstring) (locked : io_op → wstring → bool)
    : FileSystem :=
  mkFS m (λ p, Some (map N_of_ascii p)) locked.

(** A file system without files that refuses nothing. *)
Definition no_files : FileSystem := mkFS ∅ (λ _, None) (λ _ _, false).

(** The state of the program after start-up, with a roster, a stream of
    random numbers and the files given. *)
Definition startup (entries : list NameEntry) (rng : nat → nat) (fs : FileSystem) : State :=
  mkState entries [] false 0 0 ∅ ∅ [] (-1) 0 (-1) (-1) ∅
          3 (3 # 2) 3 rng (λ _, false) (L "Bereit.") [] fs.

(** A line of text followed by a line feed. *)
Definition line (s : string) : cstring := lit s ++ [LF].

(** A roster of two, and a stream of random numbers that picks the second
    entry in the first draw. *)
Definition two_names : list NameEntry := [mkEntry (L "Alice") 0; mkEntry (L "Bob") 0].
Definition second_first (k : nat) : nat := match k with O => 1%nat | _ => O end.

(** The batch of two draws from [two_names] that picks the second entry
    first: the state after the click and after sixty timer messages. *)
Definition two_start : State := startup two_names second_first no_files.

Definition two_clicked : State :=
  match OnDrawClicked 2 two_start with
  | Ok s => s
  | Undefined _ => two_start
  end.

Definition two_done : list Draw * State :=
  match @run ascii_platform 60 two_clicked with
  | Ok r => r
  | Undefined _ => ([], two_clicked)
  end.



(** A file with commas whose rows read back as they are. *)
Definition comma_file : cstring :=
  line "Name,Counter" ++ line "Alice,3" ++ line " Bob ,x" ++ line "nan,1" ++ line "Eve,-2".

(** A roster of two in memory and a file with nothing but its header. *)
Definition header_only : wstring := L "empty.csv".
Definition with_header_only : State :=
  startup two_names second_first
    (ascii_files {[header_only := line "Name;Counter"]} (λ _ _, false)).

(** A target file that another program keeps open: it can be neither
    removed nor replaced. *)
Definition target : wstring := L "names.csv".
Definition locked_target (op : io_op) (p : wstring) : bool :=
  match op with
  | REMOVE | RENAME | COPY => bool_decide (p = target)
  | FOPEN_READ | FOPEN_WRITE => false
  end.
Definition with_locked_target : FileSystem :=
  ascii_files {[target := lit "old"]} locked_target.

(** ** Notions used in the statements *)

(** No batch is running and no timer is set. *)
Definition idle (s : State) : Prop :=
  g_animRunning s = false ∧ ∀ t, timers s t = false.

(** [m] is the smallest counter of the roster. *)
Definition is_min_counter (entries : list NameEntry) (m : Z) : Prop :=
  (∃ e, e ∈ entries ∧ counter e = m) ∧ ∀ e, e ∈ entries → m ≤ counter e.

Definition counter_at (entries : list NameEntry) (i : Z) : option Z :=
  counter <$> at_ entries i.

Definition name_at (entries : list NameEntry) (i : Z) : wstring :=
  match at_ entries i with
  | Some e => name e
  | None => []
  end.

(** Names separated by a comma and a blank. *)
Fixpoint join_names (names : list wstring) : wstring :=
  match names with
  | [] => []
  | [nm] => nm
  | nm :: more => nm ++ L ", " ++ join_names more
  end.

Definition join_after (names : list wstring) : wstring :=
  concat (map (λ nm, L ", " ++ nm) names).

(** The winners of a batch log, in the order of the draws. *)
Definition winners (log : list Draw) : list Z := map fst log.

Definition picked (log : list Draw) : gset Z := list_to_set (winners log).

(** The text that [FinishRound] puts in the status bar for a set of indices. *)
Definition summary_of (entries : list NameEntry) (X : gset Z) : wstring :=
  summary_heading ++ join_names (map (name_at entries) (set_iter X)).

(** The pool of the next draw, its size, the rollout, the laps and the two
    numbers drawn at random in a state. *)
Definition pool_of (s : State) : list Z :=
  draw_pool (EligibleIndices (g_entries s)) (g_roundExcludedIdx s).
Definition pool_size (s : State) : Z := Z.of_nat (length (pool_of s)).
Definition rollout_of (s : State) : Z :=
  Z.max 1 (Qtrunc (inject_Z (pool_size s) * CFG_SPIN_ROLLOUT_FACTOR s)).
Definition laps_of (s : State) : list Z :=
  concat (replicate (Z.to_nat (CFG_SPIN_ROUNDS s)) (pool_of s)).
Definition pick_of (s : State) : Z := Z.of_nat (g_rng s 0%nat) mod pool_size s.
Definition start_of (s : State) : Z := Z.of_nat (g_rng s 1%nat) mod pool_size s.

(** The state that [DrawNextOne] leaves when it picked [w] and built [path]. *)
Definition drawn (s : State) (w : Z) (path : list Z) : State :=
  SetTimer TIMER_ANIM
    (set_g_animPath path (set_g_animWinnerIdx w (set_g_rng (λ k, g_rng s (S (S k))) s))).

(** The state after the first statements of [ApplyWinnerAndContinue]. *)
Definition committed (s : State) (mid : list NameEntry) (status : wstring) : State :=
  SetStatus status
    (set_g_drawnCount (g_drawnCount s + 1) (set_g_entries (NormalizeCounters mid) s)).

(** No draw of the log repeats an earlier winner of the log unless every
    index that was eligible for that draw was an earlier winner; and every
    winner was eligible. *)
Definition fair_log (log : list Draw) : Prop :=
  ∀ before w roster after,
    log = before ++ (w, roster) :: after →
    w ∈ EligibleIndices roster
    ∧ (w ∈ winners before → ∀ i, i ∈ EligibleIndices roster → i ∈ winners before).

(** The rosters of the log follow from the first one: each draw is taken from
    the roster that the commit of the draw before left. *)
Fixpoint replays (roster : list NameEntry) (log : list Draw) (final : list NameEntry) : Prop :=
  match log with
  | [] => final = roster
  | (w, r) :: log' =>
      r = roster ∧ ∃ mid, increment_counter w roster = Ok mid
                        ∧ replays (NormalizeCounters mid) log' final
  end.

Definition pending_ok (log : list Draw) (s : State) : Prop :=
  g_animWinnerIdx s ∈ EligibleIndices (g_entries s)
  ∧ (g_animWinnerIdx s ∈ winners log →
     ∀ i, i ∈ EligibleIndices (g_entries s) → i ∈ winners log).

Definition in_range (s : State) (i : Z) : Prop :=
  0 ≤ i < Z.of_nat (length (g_entries s)).

(** The phases of a batch, told apart by the timer that is set. *)
Inductive phase : Type := Scanning | Blinking | Settling | Pausing | Finished.

Definition timer_of (p : phase) : option Timer :=
  match p with
  | Scanning => Some TIMER_ANIM
  | Blinking => Some TIMER_BLINK
  | Settling => Some TIMER_NEXT
  | Pausing => Some TIMER_FINISH
  | Finished => None
  end.

Definition armed (s : State) (o : option Timer) : Prop :=
  ∀ t, timers s t = bool_decide (o = Some t).

Definition revealed (p : phase) : bool :=
  match p with Blinking | Settling => true | _ => false end.

Definition finished (p : phase) : bool :=
  match p with Finished => true | _ => false end.

Definition selecting (p : phase) : bool :=
  match p with Scanning | Blinking | Settling => true | _ => false end.

Definition settles (p : phase) : bool :=
  match p with Settling => true | _ => false end.

(** The draw that a tick in phase [p] commits, if it commits one. *)
Definition committed_by (p : phase) (s : State) : list Draw :=
  if settles p then [(g_animWinnerIdx s, g_entries s)] else [].

(** What holds of the state in phase [p] of a batch that started with the
    roster [roster0] and [total0] draws to make and has committed the draws
    of [log]. *)
Record batch_inv (roster0 : list NameEntry) (total0 : Z) (p : phase)
    (log : list Draw) (s : State) : Prop := {
  inv_timers : armed s (timer_of p);
  inv_entries : g_entries s ≠ [];
  inv_fair : fair_log log;
  inv_range : ∀ w, w ∈ winners log → in_range s w;
  inv_count : g_drawnCount s = Z.of_nat (length log);
  inv_running : g_animRunning s = negb (finished p);
  inv_total : if finished p then g_drawnCount s = g_toDrawTotal s
              else g_drawnCount s < g_toDrawTotal s;
  inv_selected : g_roundSelectedIdx s =
                 if finished p then ∅
                 else if revealed p then {[g_animWinnerIdx s]} ∪ picked log
                 else picked log;
  inv_excluded : g_roundExcludedIdx s = g_roundSelectedIdx s;
  inv_pending : selecting p = true → pending_ok log s;
  inv_path : Forall (in_range s) (g_animPath s);
  inv_blink : revealed p = true → g_blinkIid s = g_animWinnerIdx s;
  inv_status : finished p = true →
               statusText s = summary_of (g_entries s) (picked log);
  inv_replay : replays roster0 log (g_entries s);
  inv_winner : finished p = false → in_range s (g_animWinnerIdx s);
  inv_total0 : g_toDrawTotal s = total0
}.

(** The draws still to make, and room for them below the largest [int] in
    every counter. *)
Definition remaining (s : State) : Z := g_toDrawTotal s - g_drawnCount s.

Definition headroom (s : State) : Prop :=
  ∀ e, e ∈ g_entries s → counter e + remaining s ≤ INT_MAX.

Definition good (roster0 : list NameEntry) (total0 : Z) (p : phase) (log : list Draw)
    (s : State) : Prop :=
  batch_inv roster0 total0 p log s ∧ headroom s.

(** A string that [Trim] returns unchanged: empty, or with a first character
    that [Trim] does not skip and a last one that it does not drop. *)
Definition trimmed (t : wstring) : Prop :=
  t = [] ∨ ∃ c d, head t = Some c ∧ (c ∉ trim_front) ∧ last t = Some d ∧ (d ∉ trim_back).

Definition is_digit (c : ascii) : Prop := ∃ d, digit_of c = Some d ∧ 0 ≤ d ≤ 9.

(** What [LoadCSV] keeps of a line. *)
Record kept (e : NameEntry) : Prop := {
  kept_trimmed : trimmed (name e);
  kept_name : name e ≠ [] ∧ name e ≠ L "nan" ∧ name e ≠ L "None";
  kept_one_line : N_of_ascii LF ∉ name e;
  kept_int : INT_MIN ≤ counter e ≤ INT_MAX
}.

Section Platform.
Context `{Win32}.

(** Two properties of UTF-8 that the conversions of the platform have: an
    ASCII code unit comes out of the decoder only where the input has that
    byte, and an ASCII byte comes out of the encoder only where the input
    has that code unit. *)
Definition ascii_transparent : Prop :=
  (∀ s c, (N_of_ascii c < 128)%N → N_of_ascii c ∈ MultiByteToWideChar s → c ∈ s)
  ∧ (∀ w c, (N_of_ascii c < 128)%N → c ∈ WideCharToMultiByte w → N_of_ascii c ∈ w).

(** The text of an entry in the file, without its line feed. *)
Definition row_text (e : NameEntry) : cstring :=
  WideToUtf8 (name e) ++ lit ";" ++ to_string (counter e) ++ [CR].

End Platform.

(** * Further parts of the program and notions for their properties *)

(** ** Notions of fairness over a batch *)

(** The counters of the roster lie within [d] of each other. *)
Definition gap_le (d : Z) (entries : list NameEntry) : Prop :=
  ∀ e e', e ∈ entries → e' ∈ entries → counter e - counter e' ≤ d.

(** How often the index [i] won in the log. *)
Definition wins (i : Z) (log : list Draw) : Z :=
  Z.of_nat (length (filter (λ w, w = i) (winners log))).

(** ** Text mode, and files for the examples *)

(** What a stream opened in text mode makes of the line ends of a file: a
    carriage return before a line feed is dropped. *)
Fixpoint crlf_to_lf (s : cstring) : cstring :=
  match s with
  | [] => []
  | c :: rest =>
      match rest with
      | d :: rest' =>
          if decide (c = CR ∧ d = LF) then LF :: crlf_to_lf rest'
          else c :: crlf_to_lf rest
      | [] => [c]
      end
  end.

Section Platform2.
Context `{Win32}.

(** A property of UTF-8 that the decoder of the platform has: a carriage
    return at the end of the text is decoded by itself. *)
Definition cr_transparent : Prop :=
  ∀ s, MultiByteToWideChar (s ++ [CR]) = Utf8ToWide s ++ [13%N].

End Platform2.

(** A platform for files of ASCII text whose text mode translates the line
    ends. *)
Definition crlf_platform : Win32 := {|
  MultiByteToWideChar := map N_of_ascii;
  WideCharToMultiByte := map narrow;
  text_mode := crlf_to_lf
|}.

(** A file with CR LF line ends, a blank line and a row of three fields. *)
Definition crlf_file : cstring :=
  lit "Name;Counter" ++ [CR; LF] ++ lit "Alice;3" ++ [CR; LF] ++ [CR; LF]
  ++ lit "Bob;1;x" ++ [CR; LF].

Definition names_csv : wstring := L "names.csv".

(** A target file that cannot be removed but can be written over. *)
Definition undeletable (op : io_op) (p : wstring) : bool :=
  match op with
  | REMOVE => bool_decide (p = names_csv)
  | _ => false
  end.
Definition with_undeletable_target : FileSystem :=
  ascii_files {[names_csv := lit "old"]} undeletable.

(** The lines of a text with and without the translation of its line ends
    differ by a carriage return at the end of a line at most. *)
Definition up_to_CR (l' l : cstring) : Prop := l' = l ∨ l = l' ++ [CR].

(** ** Settings, colours and the window procedure *)

Definition set_CFG_SPIN_ROUNDS (v : Z) (s : State) : State :=
  mkState
    (g_entries s) (g_filePath s) (g_animRunning s) (g_toDrawTotal s)
    (g_drawnCount s) (g_roundSelectedIdx s) (g_roundExcludedIdx s)
    (g_animPath s) (g_animWinnerIdx s) (g_blinkState s) (g_blinkIid s)
    (g_scanHighlightRow s) (g_winnerRows s) v (CFG_SPIN_ROLLOUT_FACTOR s)
    (CFG_BLINK_TIMES s) (g_rng s) (timers s) (statusText s) (messageBoxes s)
    (disk s).
Definition set_CFG_SPIN_ROLLOUT_FACTOR (v : Q) (s : State) : State :=
  mkState
    (g_entries s) (g_filePath s) (g_animRunning s) (g_toDrawTotal s)
    (g_drawnCount s) (g_roundSelectedIdx s) (g_roundExcludedIdx s)
    (g_animPath s) (g_animWinnerIdx s) (g_blinkState s) (g_blinkIid s)
    (g_scanHighlightRow s) (g_winnerRows s) (CFG_SPIN_ROUNDS s) v
    (CFG_BLINK_TIMES s) (g_rng s) (timers s) (statusText s) (messageBoxes s)
    (disk s).
Definition set_CFG_BLINK_TIMES (v : Z) (s : State) : State :=
  mkState
    (g_entries s) (g_filePath s) (g_animRunning s) (g_toDrawTotal s)
    (g_drawnCount s) (g_roundSelectedIdx s) (g_roundExcludedIdx s)
    (g_animPath s) (g_animWinnerIdx s) (g_blinkState s) (g_blinkIid s)
    (g_scanHighlightRow s) (g_winnerRows s) (CFG_SPIN_ROUNDS s)
    (CFG_SPIN_ROLLOUT_FACTOR s) v (g_rng s) (timers s) (statusText s)
    (messageBoxes s) (disk s).

(** The numbers that [_wtoi] and [_wtof] read in the edit boxes 3004, 3005
    and 3006 of the settings dialog when its OK button is pressed. *)
Record SpinSettings : Type := mkSettings {
  rounds_box : Z;
  rollout_box : Q;
  blink_box : Z
}.

(** [ShowConfigDialog] by what it leaves in the settings that the state
    holds: the values of the boxes, each raised to its least value, when the
    dialog is closed with its OK button, and nothing otherwise.  While the
    dialog is open its own loop dispatches the messages of the main window
    as [wWinMain] does. *)
Definition ShowConfigDialog (ok : option SpinSettings) (s : State) : State :=
  match ok with
  | Some boxes =>
      let s := set_CFG_SPIN_ROUNDS (Z.max 0 (rounds_box boxes)) s in
      let s := set_CFG_SPIN_ROLLOUT_FACTOR
                 (if Qlt_le_dec 0 (rollout_box boxes) then rollout_box boxes else 0%Q) s in
      set_CFG_BLINK_TIMES (Z.max 0 (blink_box boxes)) s
  | None => s
  end.

(** The background colour that the custom draw of the list view gives a
    row ([CDDS_ITEMPREPAINT] in [WndProc]). *)
Definition COLORREF : Type := Z * Z * Z.
Definition RGB (r g b : Z) : COLORREF := (r, g, b).

Definition clrTextBk (row : Z) (s : State) : COLORREF :=
  if decide (row = g_scanHighlightRow s) then RGB 255 224 130
  else if decide (row ∈ g_winnerRows s) then RGB 200 230 201
  else RGB 255 255 255.

(** The commands of the buttons and of the menu, each with what the user
    enters on the way: the file chosen, the number in the edit box, the
    outcome of the settings dialog. *)
Inductive Command : Type :=
  | IDC_BTN_LOAD (chosen : option wstring)
  | IDC_BTN_DRAW (n : Z)
  | IDC_BTN_CLEAR
  | IDC_BTN_RELOAD
  | ID_4001 (ok : option SpinSettings)
  | ID_4002.

Inductive Message : Type :=
  | WM_COMMAND (id : Command)
  | WM_TIMER (wParam : Timer).

Section Window.
Context `{Win32}.

(** [WndProc] on the messages that read or change the globals of the draw.
    [WM_CREATE], [WM_SIZE], [WM_CLOSE] and [WM_DESTROY] build, lay out and
    close the window; the answer to [WM_NOTIFY] is [clrTextBk]; a command
    with another id does nothing. *)
Definition WndProc (msg : Message) (s : State) : result State :=
  match msg with
  | WM_COMMAND id =>
      match id with
      | IDC_BTN_LOAD chosen => Ok (OnLoadExcel chosen s)
      | IDC_BTN_DRAW n => OnDrawClicked n s
      | IDC_BTN_CLEAR =>
          Ok (SetStatus (L "Markierungen zur" ++ [252%N] ++ L "ckgesetzt.")
                (ClearAllHighlights s))
      | IDC_BTN_RELOAD => Ok (OnReloadExcel s)
      | ID_4001 ok => Ok (ShowConfigDialog ok s)
      | ID_4002 => Ok (MessageBoxW ([220%N] ++ L "ber") s)
      end
  | WM_TIMER wParam => OnTimer wParam s
  end.



End Window.

(** The status line that [ApplyWinnerAndContinue] shows for the draw that
    it commits, and the status line during a batch of [total] draws from
    [roster] that has committed the draws of [log]: the announcement of
    [OnDrawClicked] until the first commit, the line of the last commit
    afterwards. *)
Definition progress_line (drawn total : Z) (winner : wstring) : wstring :=
  L "Gezogen: " ++ to_wstring drawn ++ L "/" ++ to_wstring total
  ++ L " " ++ [8211%N] ++ L " Gewinner: " ++ winner.

Definition batch_status (total : Z) (roster : list NameEntry) (log : list Draw) : wstring :=
  match last log with
  | None => L "Ziehe " ++ to_wstring total ++ L " Person(en) " ++ [8230%N]
  | Some (w, _) => progress_line (Z.of_nat (length log)) total (name_at roster w)
  end.

(** The files and the message boxes that [FinishRound] leaves: the roster
    is saved when a path is known, and a failure reported by [SaveCSV] is
    shown. *)
Definition round_saved `{Win32} (path : wstring) (entries : list NameEntry)
    (fs : FileSystem) (boxes : list wstring) : FileSystem * list wstring :=
  match path with
  | [] => (fs, boxes)
  | _ =>
      let '(saved, fs') := SaveCSV path entries fs in
      (fs', if saved then boxes else L "Speicherfehler" :: boxes)
  end.

(** What holds, in phase [p] of a batch, of the globals that the draws do
    not decide: the rows shown as winners are those of the state [s0] before
    the batch and the winners so far (the row that blinks apart), no row is
    shown as scanned once the blinking is over, and the files are written at
    the end of the batch and not before. *)
Record batch_frame `{Win32} (s0 : State) (p : phase) (log : list Draw) (s : State)
    : Prop := {
  frame_rows :
    match p with
    | Blinking =>
        g_winnerRows s ∖ {[g_animWinnerIdx s]}
        = (g_winnerRows s0 ∪ picked log) ∖ {[g_animWinnerIdx s]}
    | Settling => g_winnerRows s = {[g_animWinnerIdx s]} ∪ (g_winnerRows s0 ∪ picked log)
    | _ => g_winnerRows s = g_winnerRows s0 ∪ picked log
    end;
  frame_scan :
    match p with
    | Settling | Pausing | Finished => g_scanHighlightRow s < 0
    | _ => True
    end;
  frame_path : g_filePath s = g_filePath s0;
  frame_status :
    finished p = false →
    statusText s = batch_status (g_toDrawTotal s) (g_entries s0) log;
  frame_disk :
    (disk s, messageBoxes s)
    = if finished p
      then round_saved (g_filePath s0) (g_entries s) (disk s0) (messageBoxes s0)
      else (disk s0, messageBoxes s0)
}.

(** Two states that differ in nothing that the draws of a batch read. *)
Definition same_batch (s s' : State) : Prop :=
  timers s' = timers s
  ∧ g_entries s' = g_entries s
  ∧ g_animRunning s' = g_animRunning s
  ∧ g_toDrawTotal s' = g_toDrawTotal s
  ∧ g_drawnCount s' = g_drawnCount s
  ∧ g_roundSelectedIdx s' = g_roundSelectedIdx s
  ∧ g_roundExcludedIdx s' = g_roundExcludedIdx s
  ∧ g_animPath s' = g_animPath s
  ∧ g_animWinnerIdx s' = g_animWinnerIdx s
  ∧ g_blinkState s' = g_blinkState s
  ∧ g_blinkIid s' = g_blinkIid s.


(** ** ListView helpers *)

(** The rows of the list view: the text of each item and of its second
    column. *)
Definition ListView : Type := list (wstring * wstring).

(** [ListView_InsertItem] with [iItem] and [pszText]: the new item stands at
    that index, or at the end when the index is larger than the count. *)
Definition ListView_InsertItem (iItem : nat) (pszText : wstring) (lv : ListView) : ListView :=
  take iItem lv ++ (pszText, []) :: drop iItem lv.

(** [ListView_SetItemText(hList, i, 1, pszText)]: nothing where there is no
    item [i]. *)
Definition ListView_SetItemText (i : nat) (pszText : wstring) (lv : ListView) : ListView :=
  alter (λ item, (item.1, pszText)) i lv.

(** The loop of [PopulateListView] from index [i] on. *)
Fixpoint populate_from (i : nat) (entries : list NameEntry) (lv : ListView) : ListView :=
  match entries with
  | [] => lv
  | e :: rest =>
      let lv := ListView_InsertItem i (name e) lv in
      let lv := ListView_SetItemText i (to_wstring (counter e)) lv in
      populate_from (S i) rest lv
  end.

Definition PopulateListView (g_entries : list NameEntry) (lv : ListView) : ListView :=
  populate_from 0 g_entries [].

(** The loop of [RefreshCounters] from index [i] on. *)
Fixpoint refresh_from (i : nat) (entries : list NameEntry) (lv : ListView) : ListView :=
  match entries with
  | [] => lv
  | e :: rest => refresh_from (S i) rest (ListView_SetItemText i (to_wstring (counter e)) lv)
  end.

Definition RefreshCounters (g_entries : list NameEntry) (lv : ListView) : ListView :=
  refresh_from 0 g_entries lv.

(** The row that shows an entry. *)
Definition row_of (e : NameEntry) : wstring * wstring := (name e, to_wstring (counter e)).

(** ** States and sessions for the examples *)

(** The batch of [two_clicked] after twenty timer messages, with its first
    draw committed and its second under way. *)
Definition two_midway : list Draw * State :=
  match @run ascii_platform 20 two_clicked with
  | Ok r => r
  | Undefined _ => ([], two_clicked)
  end.

(** The same batch in a session that has loaded its roster from a file. *)
Definition saving_start : State :=
  set_g_filePath names_csv
    (startup two_names second_first
       (ascii_files {[names_csv := lit "old"]} (λ _ _, false))).

Definition saving_clicked : State :=
  match OnDrawClicked 2 saving_start with
  | Ok s => s
  | Undefined _ => saving_start
  end.

Definition saving_done : list Draw * State :=
  match @run ascii_platform 60 saving_clicked with
  | Ok r => r
  | Undefined _ => ([], saving_clicked)
  end.


(** * Properties *)
(** * Fairness logic *)

Arguments scan_min : simpl never.
Arguments L : simpl never.
Arguments join_names : simpl never.

Lemma at_Some {A} (v : list A) (i : Z) (x : A) :
  at_ v i = Some x ↔ 0 ≤ i ∧ v !! Z.to_nat i = Some x.
Proof. unfold at_. case_decide; [tauto|]. split; [done|tauto]. Qed.

Lemma at_range {A} (v : list A) (i : Z) :
  is_Some (at_ v i) ↔ 0 ≤ i < Z.of_nat (length v).
Proof.
  unfold is_Some. setoid_rewrite at_Some. split.
  - intros (x & Hi & Hx). apply lookup_lt_Some in Hx. lia.
  - intros [Hi Hlt]. destruct (lookup_lt_is_Some_2 v (Z.to_nat i)) as [x Hx]; [lia|eauto].
Qed.

Lemma at_elem_of {A} (v : list A) (x : A) : x ∈ v ↔ ∃ i, at_ v i = Some x.
Proof.
  rewrite list_elem_of_lookup. setoid_rewrite at_Some. split.
  - intros [k Hk]. exists (Z.of_nat k). rewrite Nat2Z.id. split; [lia|done].
  - intros (i & _ & Hi). eauto.
Qed.

Lemma at_cons {A} (x : A) (v : list A) (i : Z) :
  at_ (x :: v) i = if decide (i = 0) then Some x else at_ v (i - 1).
Proof.
  unfold at_. repeat case_decide; try lia; subst; try done.
  replace (Z.to_nat i) with (S (Z.to_nat (i - 1))) by lia. done.
Qed.

Lemma scan_min_le (entries : list NameEntry) (m : Z) : scan_min m entries ≤ m.
Proof.
  unfold scan_min. revert m. induction entries as [|e rest IH]; intros m; simpl; [lia|].
  etrans; [apply IH|lia].
Qed.

Lemma scan_min_lower (entries : list NameEntry) (m : Z) (e : NameEntry) :
  e ∈ entries → scan_min m entries ≤ counter e.
Proof.
  unfold scan_min. revert m. induction entries as [|e' rest IH]; intros m He; simpl.
  - by apply elem_of_nil in He.
  - apply elem_of_cons in He as [->|He]; [|by apply IH].
    etrans; [apply (scan_min_le rest)|lia].
Qed.

Lemma scan_min_attained (entries : list NameEntry) (m : Z) :
  scan_min m entries = m ∨ ∃ e, e ∈ entries ∧ counter e = scan_min m entries.
Proof.
  unfold scan_min. revert m. induction entries as [|e rest IH]; intros m; simpl; [by left|].
  destruct (IH (Z.min m (counter e))) as [Heq|(e' & He' & Hc)].
  - rewrite Heq. destruct (Z.min_spec m (counter e)) as [[_ ->]|[_ ->]]; [by left|].
    right. exists e. split; [left|done].
  - right. exists e'. split; [by right|done].
Qed.

(** The value that both [EligibleIndices] and [NormalizeCounters] compute in
    [minC] is the smallest counter of the roster. *)
Lemma scan_min_is_min (e0 : NameEntry) (rest : list NameEntry) :
  is_min_counter (e0 :: rest) (scan_min (counter e0) (e0 :: rest)).
Proof.
  split.
  - destruct (scan_min_attained (e0 :: rest) (counter e0)) as [Heq|(e & He & Hc)].
    + exists e0. split; [left|done].
    + exists e. done.
  - intros e He. by apply scan_min_lower.
Qed.

Lemma is_min_counter_unique (entries : list NameEntry) (m m' : Z) :
  is_min_counter entries m → is_min_counter entries m' → m = m'.
Proof.
  intros [(e & He & Hc) Hlow] [(e' & He' & Hc') Hlow'].
  specialize (Hlow _ He'). specialize (Hlow' _ He). lia.
Qed.

Lemma collect_eq_spec (minC : Z) (entries : list NameEntry) (k i : Z) :
  i ∈ collect_eq minC k entries ↔
  ∃ e, at_ entries (i - k) = Some e ∧ counter e = minC.
Proof.
  revert k. induction entries as [|e rest IH]; intros k; simpl.
  - split; [intros Hi; by apply elem_of_nil in Hi|].
    intros (e & He & _). apply at_Some in He as [_ He]. done.
  - setoid_rewrite at_cons.
    assert (i ∈ collect_eq minC (k + 1) rest ↔
            ∃ e', at_ rest (i - k - 1) = Some e' ∧ counter e' = minC) as IH'.
    { rewrite IH. by replace (i - (k + 1)) with (i - k - 1) by lia. }
    assert (i ∈ collect_eq minC (k + 1) rest → i ≠ k) as Hne.
    { rewrite IH'. intros (e' & He' & _) ->. apply at_Some in He'. lia. }
    case_decide as Hc.
    + rewrite elem_of_cons, IH'. split.
      * intros [->|(e' & He' & Hc')].
        -- exists e. by rewrite decide_True by lia.
        -- exists e'. apply at_Some in He' as Hr. by rewrite decide_False by lia.
      * intros (e' & He' & Hc'). case_decide; [left; lia|right; eauto].
    + rewrite IH'. split.
      * intros (e' & He' & Hc'). exists e'. apply at_Some in He' as Hr.
        by rewrite decide_False by lia.
      * intros (e' & He' & Hc'). case_decide; [congruence|eauto].
Qed.

Lemma collect_eq_lower (minC : Z) (entries : list NameEntry) (k : Z) :
  Forall (λ i, k ≤ i) (collect_eq minC k entries).
Proof.
  revert k. induction entries as [|e rest IH]; intros k; simpl; [constructor|].
  assert (Forall (λ i, k ≤ i) (collect_eq minC (k + 1) rest)).
  { eapply Forall_impl; [apply IH|]. simpl. lia. }
  case_decide; [constructor; [lia|done]|done].
Qed.

Lemma collect_eq_sorted (minC : Z) (entries : list NameEntry) (k : Z) :
  StronglySorted Z.lt (collect_eq minC k entries).
Proof.
  revert k. induction entries as [|e rest IH]; intros k; simpl; [constructor|].
  case_decide; [|apply IH]. constructor; [apply IH|].
  eapply Forall_impl; [apply collect_eq_lower|]. simpl. lia.
Qed.

Lemma StronglySorted_lt_NoDup (l : list Z) : StronglySorted Z.lt l → NoDup l.
Proof.
  induction 1 as [|x l _ IH Hall]; constructor; [|done].
  intros Hx. rewrite Forall_forall in Hall. specialize (Hall _ Hx). lia.
Qed.

Lemma EligibleIndices_elem (entries : list NameEntry) (i m : Z) :
  is_min_counter entries m →
  i ∈ EligibleIndices entries ↔ counter_at entries i = Some m.
Proof.
  destruct entries as [|e0 rest]; intros Hm.
  - destruct Hm as [(e & He & _) _]. by apply elem_of_nil in He.
  - unfold EligibleIndices. rewrite collect_eq_spec, Z.sub_0_r.
    rewrite (is_min_counter_unique _ _ _ Hm (scan_min_is_min e0 rest)).
    unfold counter_at. destruct (at_ (e0 :: rest) i) as [e|]; simpl.
    + split; [intros (e' & [= <-] & Hc); by rewrite Hc|intros [= Hc]; eauto].
    + split; [intros (e' & [=] & _)|done].
Qed.

Lemma EligibleIndices_min_iff (entries : list NameEntry) (i : Z) :
  i ∈ EligibleIndices entries ↔
  ∃ e, at_ entries i = Some e ∧ ∀ j e', at_ entries j = Some e' → counter e ≤ counter e'.
Proof.
  destruct entries as [|e0 rest].
  - split; [intros Hi; by apply elem_of_nil in Hi|].
    intros (e & He & _). apply at_Some in He as [_ He]. done.
  - pose proof (scan_min_is_min e0 rest) as Hm.
    rewrite (EligibleIndices_elem _ _ _ Hm). unfold counter_at.
    destruct Hm as [(em & Hem & Hcm) Hlow]. split.
    + destruct (at_ (e0 :: rest) i) as [e|] eqn:He; [|done]. simpl. intros [= Hc].
      exists e. split; [done|]. intros j e' He'. rewrite Hc. apply Hlow.
      apply at_elem_of. by exists j.
    + intros (e & He & Hall). rewrite He. simpl. f_equal.
      apply at_elem_of in Hem as [j Hj]. specialize (Hall _ _ Hj).
      assert (e ∈ e0 :: rest) as Hin by (apply at_elem_of; by exists i).
      specialize (Hlow _ Hin). lia.
Qed.

(** C2.  [EligibleIndices] returns, in ascending order and without repeats,
    exactly the indices of the roster whose counter is the smallest counter
    of the whole roster; for the empty roster it returns nothing. *)
Theorem EligibleIndices_exactly_min (entries : list NameEntry) :
  (∀ i, i ∈ EligibleIndices entries ↔
        ∃ e, at_ entries i = Some e ∧
             ∀ j e', at_ entries j = Some e' → counter e ≤ counter e')
  ∧ StronglySorted Z.lt (EligibleIndices entries)
  ∧ (entries = [] → EligibleIndices entries = []).
Proof.
  split; [|split].
  - apply EligibleIndices_min_iff.
  - destruct entries as [|e0 rest]; [constructor|]. apply collect_eq_sorted.
  - by intros ->.
Qed.

Lemma NormalizeCounters_length (entries : list NameEntry) :
  length (NormalizeCounters entries) = length entries.
Proof.
  destruct entries as [|e0 rest]; [done|]. unfold NormalizeCounters.
  case_decide; [by rewrite length_map|done].
Qed.

Lemma at_map {A B} (f : A → B) (v : list A) (i : Z) : at_ (map f v) i = f <$> at_ v i.
Proof. unfold at_. case_decide; [apply list_lookup_fmap|done]. Qed.

(** [NormalizeCounters] lowers every counter by the smallest one when that
    is positive and changes nothing otherwise. *)
Lemma NormalizeCounters_at (entries : list NameEntry) (m i : Z) :
  is_min_counter entries m →
  at_ (NormalizeCounters entries) i =
  (λ e, mkEntry (name e) (counter e - Z.max m 0)) <$> at_ entries i.
Proof.
  intros Hm. destruct entries as [|e0 rest].
  - destruct Hm as [(e & He & _) _]. by apply elem_of_nil in He.
  - rewrite (is_min_counter_unique _ _ _ Hm (scan_min_is_min e0 rest)).
    unfold NormalizeCounters. case_decide as Hpos.
    + rewrite at_map. by rewrite Z.max_l by lia.
    + rewrite Z.max_r by lia. destruct (at_ (e0 :: rest) i) as [[nm c]|]; simpl; [|done].
      by rewrite Z.sub_0_r.
Qed.

Lemma NormalizeCounters_counter_at (entries : list NameEntry) (m i : Z) :
  is_min_counter entries m →
  counter_at (NormalizeCounters entries) i =
  (λ c, c - Z.max m 0) <$> counter_at entries i.
Proof.
  intros Hm. unfold counter_at. rewrite (NormalizeCounters_at _ m) by done.
  by destruct (at_ entries i).
Qed.

Lemma NormalizeCounters_min (entries : list NameEntry) (m : Z) :
  is_min_counter entries m → is_min_counter (NormalizeCounters entries) (Z.min m 0).
Proof.
  intros Hm. pose proof Hm as [(e & He & Hc) Hlow]. split.
  - apply at_elem_of in He as [i Hi].
    exists (mkEntry (name e) (counter e - Z.max m 0)). split; [|simpl; lia].
    apply at_elem_of. exists i. by rewrite (NormalizeCounters_at _ m), Hi.
  - intros e' [i Hi]%at_elem_of. rewrite (NormalizeCounters_at _ m) in Hi by done.
    destruct (at_ entries i) as [e''|] eqn:He''; [|done]. injection Hi as <-. simpl.
    assert (e'' ∈ entries) as Hin by (apply at_elem_of; by exists i).
    specialize (Hlow _ Hin). lia.
Qed.

Lemma NormalizeCounters_nonpositive (entries : list NameEntry) (m : Z) :
  is_min_counter entries m → m ≤ 0 → NormalizeCounters entries = entries.
Proof.
  intros Hm Hle. destruct entries as [|e0 rest]; [done|]. unfold NormalizeCounters.
  rewrite <- (is_min_counter_unique _ _ _ Hm (scan_min_is_min e0 rest)).
  by rewrite decide_False by lia.
Qed.

Lemma is_min_counter_exists (entries : list NameEntry) :
  entries ≠ [] → ∃ m, is_min_counter entries m.
Proof.
  destruct entries as [|e0 rest]; [done|]. intros _. eexists. apply scan_min_is_min.
Qed.

(** C3, as the program has it.  For every roster that is not empty,
    [NormalizeCounters] keeps the difference of the counters of every two
    entries; afterwards the smallest counter is 0 when the smallest counter
    was not negative, and a roster whose smallest counter is negative is left
    as it was. *)
Theorem NormalizeCounters_min_zero_unless_negative (entries : list NameEntry) :
  entries ≠ [] →
  ∃ m, is_min_counter entries m
     ∧ (0 ≤ m → is_min_counter (NormalizeCounters entries) 0)
     ∧ (m < 0 → NormalizeCounters entries = entries)
     ∧ ∀ i j ci cj,
         counter_at entries i = Some ci → counter_at entries j = Some cj →
         ∃ ci' cj', counter_at (NormalizeCounters entries) i = Some ci'
                  ∧ counter_at (NormalizeCounters entries) j = Some cj'
                  ∧ ci' - cj' = ci - cj.
Proof.
  intros Hne. destruct (is_min_counter_exists _ Hne) as [m Hm]. exists m.
  split; [done|]. split; [|split].
  - intros Hpos. pose proof (NormalizeCounters_min _ _ Hm) as Hmin.
    by rewrite Z.min_r in Hmin by lia.
  - intros Hneg. apply (NormalizeCounters_nonpositive _ m); [done|lia].
  - intros i j ci cj Hi Hj. exists (ci - Z.max m 0), (cj - Z.max m 0).
    rewrite !(NormalizeCounters_counter_at _ m), Hi, Hj by done. simpl.
    split; [done|]. split; [done|lia].
Qed.

Lemma NormalizeCounters_min_zero_unless_negative_witness :
  let roster := [mkEntry (L "Alice") 3; mkEntry (L "Bob") 5] in
  roster ≠ [] ∧
  ∃ m, is_min_counter roster m
     ∧ (0 ≤ m → is_min_counter (NormalizeCounters roster) 0)
     ∧ (m < 0 → NormalizeCounters roster = roster)
     ∧ ∀ i j ci cj,
         counter_at roster i = Some ci → counter_at roster j = Some cj →
         ∃ ci' cj', counter_at (NormalizeCounters roster) i = Some ci'
                  ∧ counter_at (NormalizeCounters roster) j = Some cj'
                  ∧ ci' - cj' = ci - cj.
Proof.
  intros roster. split; [discriminate|].
  apply (NormalizeCounters_min_zero_unless_negative roster). discriminate.
Defined.

(** C3 fails for a roster with a negative counter, which [LoadCSV] accepts:
    the guard [minC > 0] leaves the roster as it is and its smallest counter
    is still negative. *)
Lemma NormalizeCounters_negative_min_stays :
  let roster := @read_rows ascii_platform (line "Name;Counter" ++ line "Alice;-3") in
  roster = [mkEntry (L "Alice") (-3)]
  ∧ roster ≠ []
  ∧ NormalizeCounters roster = roster
  ∧ ¬ is_min_counter (NormalizeCounters roster) 0.
Proof.
  vm_compute. split; [done|]. split; [done|]. split; [done|].
  intros [(e & He & Hc) _]. apply list_elem_of_singleton in He. subst e. done.
Qed.

(** * Trim *)

Lemma find_first_not_of_Some (set : list wchar_t) (s : wstring) (b : nat) :
  find_first_not_of set s = Some b →
  ∃ c, s !! b = Some c ∧ c ∉ set.
Proof.
  revert b. induction s as [|c s IH]; intros b; simpl; [done|].
  case_bool_decide as Hc.
  - destruct (find_first_not_of set s) as [b'|]; [|done]. simpl. intros [= <-].
    by apply IH.
  - intros [= <-]. by exists c.
Qed.

Lemma find_last_not_of_Some (set : list wchar_t) (s : wstring) (e : nat) :
  find_last_not_of set s = Some e →
  ∃ d, s !! e = Some d ∧ (d ∉ set)
     ∧ ∀ j x, (e < j)%nat → s !! j = Some x → x ∈ set.
Proof.
  revert e. induction s as [|c s IH]; intros e; simpl; [done|].
  destruct (find_last_not_of set s) as [e'|] eqn:Hlast.
  - intros [= <-]. destruct (IH e' eq_refl) as (d & Hd & Hn & Hafter).
    exists d. split; [done|]. split; [done|].
    intros [|j] x Hj; [lia|]. simpl. apply Hafter. lia.
  - case_bool_decide as Hc; [done|]. intros [= <-]. exists c.
    split; [done|]. split; [done|].
    intros [|j] x Hj; [lia|]. simpl. intros Hx.
    clear IH Hj. revert j Hx. induction s as [|c' s IHs]; intros j; simpl in *; [done|].
    destruct (find_last_not_of set s); [done|]. case_bool_decide; [|done].
    destruct j; simpl; [by intros [= <-]|]. by apply IHs.
Qed.

Lemma find_last_not_of_None (set : list wchar_t) (s : wstring) :
  find_last_not_of set s = None → ∀ x, x ∈ s → x ∈ set.
Proof.
  induction s as [|c s IH]; simpl; [by intros _ x ?%elem_of_nil|].
  destruct (find_last_not_of set s); [done|]. case_bool_decide; [|done].
  intros _ x [->|Hx]%elem_of_cons; [done|]. by apply IH.
Qed.

Lemma trim_back_front (c : wchar_t) : c ∈ trim_back → c ∈ trim_front.
Proof.
  unfold trim_back, trim_front. rewrite !elem_of_app. intros [?|Hc]; [by left|right].
  rewrite !elem_of_cons in Hc. rewrite !elem_of_cons. tauto.
Qed.

(** [Trim] returns a piece of its argument that is [trimmed]. *)
Lemma Trim_spec (s : wstring) :
  trimmed (Trim s) ∧ ∀ x, x ∈ Trim s → x ∈ s.
Proof.
  unfold Trim. destruct (find_first_not_of trim_front s) as [b|] eqn:Hb.
  2:{ split; [by left|]. by intros x ?%elem_of_nil. }
  destruct (find_first_not_of_Some _ _ _ Hb) as (c & Hc & Hcn).
  destruct (find_last_not_of trim_back s) as [e|] eqn:He.
  - destruct (find_last_not_of_Some _ _ _ He) as (d & Hd & Hdn & Hafter).
    assert (b ≤ e)%nat as Hbe.
    { destruct (decide (b ≤ e)%nat) as [|Hgt]; [done|]. exfalso. apply Hcn, trim_back_front.
      apply (Hafter b c); [lia|done]. }
    pose proof (lookup_lt_Some _ _ _ Hd) as Hlen.
    unfold substr. split.
    + right. exists c, d. split; [|split; [done|split; [|done]]].
      * rewrite head_lookup, lookup_take_lt, lookup_drop by lia. by rewrite Nat.add_0_r.
      * rewrite last_lookup, length_take, length_drop.
        replace (pred (min (e - b + 1) (length s - b))) with (e - b)%nat by lia.
        rewrite lookup_take_lt, lookup_drop by lia. by replace (b + (e - b))%nat with e by lia.
    + intros x (i & Hi & _)%elem_of_take. rewrite lookup_drop in Hi.
      by eapply list_elem_of_lookup_2.
  - exfalso. apply Hcn, trim_back_front. eapply find_last_not_of_None; [done|].
    by eapply list_elem_of_lookup_2.
Qed.

Lemma Trim_trimmed (t : wstring) : trimmed t → Trim t = t.
Proof.
  intros [->|(c & d & Hc & Hcn & Hd & Hdn)]; [done|]. unfold Trim.
  destruct t as [|c' t]; [done|]. injection Hc as ->.
  cbn [find_first_not_of]. rewrite bool_decide_eq_false_2 by done.
  destruct (find_last_not_of trim_back (c :: t)) as [e|] eqn:He.
  - destruct (find_last_not_of_Some _ _ _ He) as (d' & Hd' & _ & Hafter).
    pose proof (lookup_lt_Some _ _ _ Hd') as Hlen.
    rewrite last_lookup in Hd.
    assert (e = pred (length (c :: t))) as ->.
    { destruct (decide (e = pred (length (c :: t)))) as [|Hne]; [done|]. exfalso.
      apply Hdn. apply (Hafter (pred (length (c :: t))) d); [lia|done]. }
    unfold substr. rewrite drop_0. apply take_ge. simpl. lia.
  - exfalso. apply Hdn. eapply find_last_not_of_None; [done|].
    rewrite last_lookup in Hd. by eapply list_elem_of_lookup_2.
Qed.

Lemma Trim_idemp (s : wstring) : Trim (Trim s) = Trim s.
Proof. apply Trim_trimmed, Trim_spec. Qed.

(** * Decimal numbers *)

Lemma digit_of_digit_char (d : Z) : 0 ≤ d ≤ 9 → digit_of (digit_char d) = Some d.
Proof.
  intros Hd. unfold digit_of, digit_char.
  rewrite N_ascii_embedding by lia. rewrite Z2N.id by lia.
  rewrite decide_True by lia. f_equal. lia.
Qed.

Lemma digits_of_S (fuel : nat) (n : Z) (acc : cstring) :
  digits_of (S fuel) n acc
  = if decide (n < 10) then digit_char (n mod 10) :: acc
    else digits_of fuel (n / 10) (digit_char (n mod 10) :: acc).
Proof. done. Qed.

Lemma digits_of_spec (fuel : nat) (n : Z) (acc : cstring) :
  0 ≤ n < 10 ^ Z.of_nat (S fuel) →
  ∃ ds, digits_of (S fuel) n acc = ds ++ acc
      ∧ ds ≠ []
      ∧ Forall is_digit ds
      ∧ ∀ a rest, read_digits a (ds ++ rest)
                  = read_digits (a * 10 ^ Z.of_nat (length ds) + n) rest.
Proof.
  revert n acc. induction fuel as [|fuel IH]; intros n acc Hn;
    rewrite digits_of_S; pose proof (Z.mod_pos_bound n 10 ltac:(lia)) as Hmod;
    (assert (is_digit (digit_char (n mod 10))) as Hdig
       by (exists (n mod 10); split; [apply digit_of_digit_char|]; lia)).
  { change (10 ^ Z.of_nat 1) with 10 in Hn. rewrite decide_True by lia.
    exists [digit_char (n mod 10)]. split; [done|]. split; [done|]. split; [by constructor|].
    intros a rest. cbn [app read_digits length]. rewrite digit_of_digit_char by lia.
    rewrite Z.mod_small by lia. f_equal. }
  case_decide as Hsmall.
  - exists [digit_char (n mod 10)]. split; [done|]. split; [done|]. split; [by constructor|].
    intros a rest. cbn [app read_digits length]. rewrite digit_of_digit_char by lia.
    rewrite Z.mod_small by lia. f_equal.
  - assert (0 ≤ n / 10 < 10 ^ Z.of_nat (S fuel)) as Hdiv.
    { split; [apply Z.div_pos; lia|]. apply Z.div_lt_upper_bound; [lia|].
      rewrite (Nat2Z.inj_succ (S fuel)), Z.pow_succ_r in Hn by lia. lia. }
    destruct (IH (n / 10) (digit_char (n mod 10) :: acc) Hdiv) as (ds & Heq & Hne & Hall & Hread).
    exists (ds ++ [digit_char (n mod 10)]). split; [by rewrite Heq, <- app_assoc|].
    split; [by destruct ds|]. split; [apply Forall_app; split; [done|by constructor]|].
    intros a rest. rewrite <- app_assoc, Hread. cbn [app read_digits].
    rewrite digit_of_digit_char by lia. f_equal.
    rewrite length_app, Nat2Z.inj_add, Z.pow_add_r by lia. simpl length.
    change (10 ^ Z.of_nat 1) with 10. pose proof (Z.div_mod n 10 ltac:(lia)). lia.
Qed.

Lemma to_digits_spec (n : Z) :
  0 ≤ n →
  to_digits n ≠ []
  ∧ Forall is_digit (to_digits n)
  ∧ ∀ a rest, read_digits a (to_digits n ++ rest)
              = read_digits (a * 10 ^ Z.of_nat (length (to_digits n)) + n) rest.
Proof.
  intros Hn. unfold to_digits.
  destruct (digits_of_spec (Z.to_nat (Z.log2 n)) n []) as (ds & Heq & Hne & Hall & Hread).
  { split; [done|]. rewrite Nat2Z.inj_succ, Z2Nat.id by apply Z.log2_nonneg.
    destruct (decide (n = 0)) as [->|Hpos]; [done|].
    pose proof (Z.log2_spec n ltac:(lia)) as [_ Hlt].
    eapply Z.lt_le_trans; [exact Hlt|].
    apply Z.pow_le_mono_l. pose proof (Z.log2_nonneg n). lia. }
  rewrite app_nil_r in Heq. by rewrite Heq.
Qed.

Lemma is_digit_not (c : ascii) :
  is_digit c → isspace c = false ∧ c ≠ "-"%char ∧ c ≠ "+"%char ∧ c ≠ ";"%char ∧ c ≠ LF.
Proof.
  intros (d & Hd & _). repeat split; try (intros ->; vm_compute in Hd; discriminate).
  unfold isspace. apply bool_decide_eq_false_2. rewrite !elem_of_cons.
  intros Hc. repeat (destruct Hc as [->|Hc]; [vm_compute in Hd; discriminate|]).
  by apply elem_of_nil in Hc.
Qed.

(** What [std::to_string] writes, [std::stoi] reads back, also before a
    carriage return. *)
Lemma stoi_to_string (n : Z) :
  INT_MIN ≤ n ≤ INT_MAX → stoi (to_string n ++ [CR]) = Some n.
Proof.
  intros Hn. unfold to_string. case_decide as Hneg.
  - destruct (to_digits_spec (- n)) as (Hne & Hall & Hread); [lia|].
    destruct (to_digits (- n)) as [|c ds] eqn:Hds; [done|].
    apply Forall_cons in Hall as [Hc _]. destruct Hc as (d & Hd & _).
    unfold stoi. cbn [app skip_space]. change (isspace "-") with false. cbn iota.
    rewrite decide_True by done. cbn [app]. rewrite Hd.
    change (c :: ds ++ [CR]) with ((c :: ds) ++ [CR]). rewrite Hread.
    cbn [read_digits]. change (digit_of CR) with (@None Z). cbn iota.
    rewrite Z.mul_0_l, Z.add_0_l, Z.opp_involutive. by rewrite decide_True.
  - destruct (to_digits_spec n) as (Hne & Hall & Hread); [lia|].
    destruct (to_digits n) as [|c ds] eqn:Hds; [done|].
    apply Forall_cons in Hall as [Hc _].
    destruct (is_digit_not c Hc) as (Hsp & Hm & Hp & _). destruct Hc as (d & Hd & _).
    unfold stoi. cbn [app skip_space]. rewrite Hsp.
    rewrite decide_False by done. rewrite decide_False by done. rewrite Hd.
    change (c :: ds ++ [CR]) with ((c :: ds) ++ [CR]). rewrite Hread.
    cbn [read_digits]. change (digit_of CR) with (@None Z). cbn iota.
    rewrite Z.mul_0_l, Z.add_0_l. by rewrite decide_True.
Qed.

Lemma to_string_chars (n : Z) (c : ascii) :
  c ∈ to_string n → c ≠ ";"%char ∧ c ≠ LF.
Proof.
  unfold to_string. case_decide.
  - intros [->|Hc]%elem_of_cons; [done|].
    destruct (to_digits_spec (- n)) as (_ & Hall & _); [lia|].
    rewrite Forall_forall in Hall. destruct (is_digit_not c (Hall c Hc)) as (_ & _ & _ & ? & ?).
    done.
  - intros Hc. destruct (to_digits_spec n) as (_ & Hall & _); [lia|].
    rewrite Forall_forall in Hall. destruct (is_digit_not c (Hall c Hc)) as (_ & _ & _ & ? & ?).
    done.
Qed.

(** * Lines and fields *)

Lemma getline_chars_app (d : ascii) (l rest : cstring) :
  d ∉ l → getline_chars d (l ++ d :: rest) = (l, rest).
Proof.
  induction l as [|c l IH]; intros Hd; cbn [app getline_chars].
  - by rewrite decide_True.
  - apply not_elem_of_cons in Hd as [Hc Hd]. rewrite decide_False by done.
    by rewrite IH.
Qed.

Lemma getline_chars_all (d : ascii) (l : cstring) :
  d ∉ l → getline_chars d l = (l, []).
Proof.
  induction l as [|c l IH]; intros Hd; cbn [getline_chars]; [done|].
  apply not_elem_of_cons in Hd as [Hc Hd]. rewrite decide_False by done. by rewrite IH.
Qed.

Lemma getline_chars_field (d : ascii) (s : cstring) (x : ascii) :
  x ∈ (getline_chars d s).1 → x ∈ s.
Proof.
  induction s as [|c s IH]; cbn [getline_chars]; [done|].
  case_decide; [by intros ?%elem_of_nil|].
  destruct (getline_chars d s) as [field rest]. cbn [fst] in *.
  intros [->|Hx]%elem_of_cons; [left|right; by apply IH].
Qed.

Lemma getline_Some (d : ascii) (s : cstring) :
  s ≠ [] → getline d s = Some (getline_chars d s).
Proof. by destruct s. Qed.

(** [getlines] is the sequence of the lines that [getline] reads. *)
Lemma getlines_unfold (s : cstring) :
  getlines s = match getline LF s with
               | None => []
               | Some (l, rest) => l :: getlines rest
               end.
Proof.
  induction s as [|c s IH]; [done|]. cbn [getlines getline getline_chars].
  case_decide; [done|]. rewrite IH. destruct s as [|c' s]; [done|].
  cbn [getline]. by destruct (getline_chars LF (c' :: s)).
Qed.

Lemma getlines_app (l rest : cstring) :
  LF ∉ l → getlines (l ++ LF :: rest) = l :: getlines rest.
Proof.
  induction l as [|c l IH]; intros Hd; cbn [app getlines].
  - by rewrite decide_True.
  - apply not_elem_of_cons in Hd as [Hc Hd]. rewrite decide_False by done.
    by rewrite IH.
Qed.

Lemma getlines_no_LF (s l : cstring) : l ∈ getlines s → LF ∉ l.
Proof.
  revert l. induction s as [|c s IH]; intros l; cbn [getlines]; [by intros ?%elem_of_nil|].
  case_decide as Hc.
  - intros [->|Hl]%elem_of_cons; [apply not_elem_of_nil|by apply IH].
  - destruct (getlines s) as [|l0 more].
    + intros ->%list_elem_of_singleton. apply not_elem_of_cons. split; [done|].
      apply not_elem_of_nil.
    + intros [->|Hl]%elem_of_cons.
      * apply not_elem_of_cons. split; [done|]. apply IH. left.
      * apply IH. by right.
Qed.

Lemma stoi_range (s : cstring) (v : Z) : stoi s = Some v → INT_MIN ≤ v ≤ INT_MAX.
Proof.
  unfold stoi. destruct (match skip_space s with [] => _ | _ => _ end) as [neg ds].
  destruct ds as [|c ds]; [done|]. destruct (digit_of c); [|done].
  case_decide; [|done]. by intros [= <-].
Qed.

(** * Reading back what was saved *)

Section RoundTrip.
Context `{Win32}.

Hypothesis Hplatform : ascii_transparent.

Lemma Utf8ToWide_ascii (s : cstring) (c : ascii) :
  (N_of_ascii c < 128)%N → N_of_ascii c ∈ Utf8ToWide s → c ∈ s.
Proof.
  intros Hc. unfold Utf8ToWide. destruct s; [by intros ?%elem_of_nil|].
  by apply Hplatform.
Qed.

Lemma WideToUtf8_ascii (w : wstring) (c : ascii) :
  (N_of_ascii c < 128)%N → c ∈ WideToUtf8 w → N_of_ascii c ∈ w.
Proof.
  intros Hc. unfold WideToUtf8. destruct w; [by intros ?%elem_of_nil|].
  by apply Hplatform.
Qed.

Lemma parse_row_kept (delim : ascii) (l : cstring) (e : NameEntry) :
  LF ∉ l → parse_row delim l = Some e → kept e.
Proof.
  intros Hl. unfold parse_row. destruct l as [|c l]; [done|].
  pose proof (getline_chars_field delim (c :: l)) as Hfield.
  destruct (getline_chars delim (c :: l)) as [nameField rest]. cbn [fst] in Hfield.
  case_bool_decide as Hname; [done|]. intros [= <-].
  destruct (Trim_spec (Utf8ToWide nameField)) as [Htrim Hsub].
  split; cbn [name counter].
  - done.
  - tauto.
  - intros Hin. apply Hl, Hfield. apply Utf8ToWide_ascii; [done|]. by apply Hsub.
  - destruct (match getline delim rest with Some _ => _ | None => _ end) as [|??] eqn:Hcf;
      (destruct (stoi _) as [v|] eqn:Hv; [by apply stoi_range in Hv|done]).
Qed.

Lemma read_rows_kept (stream : cstring) (e : NameEntry) :
  e ∈ read_rows stream → kept e.
Proof.
  unfold read_rows. intros (l & Hl & He)%list_elem_of_omap.
  eapply (parse_row_kept _ l); [|exact He]. apply (getlines_no_LF stream).
  destruct (getlines stream); [done|]. by right.
Qed.

Lemma row_text_no_LF (e : NameEntry) : kept e → LF ∉ row_text e.
Proof.
  intros He. unfold row_text. change (lit ";") with [";"%char].
  rewrite !not_elem_of_app. split; [|split; [|split]].
  - intros Hin. apply (kept_one_line _ He). by apply WideToUtf8_ascii.
  - by intros ?%list_elem_of_singleton.
  - intros Hin. by apply to_string_chars in Hin as [_ ?].
  - by intros ?%list_elem_of_singleton.
Qed.

Lemma getlines_csv_bytes (entries : list NameEntry) :
  Forall kept entries →
  getlines (csv_bytes entries)
  = (BOM8 ++ lit "Name;Counter" ++ [CR]) :: map row_text entries.
Proof.
  intros Hall. unfold csv_bytes.
  replace (BOM8 ++ (lit "Name;Counter" ++ [CR; LF]) ++ concat (map csv_line entries))
    with ((BOM8 ++ lit "Name;Counter" ++ [CR]) ++ LF :: concat (map csv_line entries))
    by (by rewrite <- !app_assoc).
  rewrite getlines_app.
  2:{ apply (bool_decide_unpack _). vm_compute. exact I. }
  f_equal. induction Hall as [|e entries He _ IH]; [done|]. cbn [map concat].
  replace (csv_line e ++ concat (map csv_line entries))
    with (row_text e ++ LF :: concat (map csv_line entries)).
  - rewrite getlines_app by by apply row_text_no_LF. by rewrite IH.
  - unfold csv_line, row_text. by rewrite <- !app_assoc.
Qed.

Lemma parse_row_row_text (e : NameEntry) :
  kept e → N_of_ascii ";" ∉ name e → Utf8ToWide (WideToUtf8 (name e)) = name e →
  parse_row ";" (row_text e) = Some e.
Proof.
  intros He Hsemi Hcodec.
  assert (";"%char ∉ WideToUtf8 (name e)) as Henc.
  { intros Hin. by apply Hsemi, WideToUtf8_ascii. }
  assert (";"%char ∉ to_string (counter e) ++ [CR]) as Hcnt.
  { rewrite not_elem_of_app. split.
    - intros Hin. by apply to_string_chars in Hin as [? _].
    - by intros ?%list_elem_of_singleton. }
  assert (to_string (counter e) ++ [CR] ≠ []) as Hne by by destruct (to_string _).
  unfold parse_row, row_text.
  destruct (WideToUtf8 (name e) ++ lit ";" ++ to_string (counter e) ++ [CR]) as [|c0 l0] eqn:Hline.
  { by destruct (WideToUtf8 (name e)). }
  rewrite <- Hline.
  change (lit ";" ++ to_string (counter e) ++ [CR])
    with (";"%char :: (to_string (counter e) ++ [CR])).
  rewrite getline_chars_app by done.
  rewrite getline_Some, getline_chars_all by done.
  rewrite Hcodec, (Trim_trimmed _ (kept_trimmed _ He)).
  rewrite bool_decide_eq_false_2 by (pose proof (kept_name _ He); tauto).
  rewrite stoi_to_string by apply (kept_int _ He). by destruct e.
Qed.

(** C7, as the program has it.  On a platform whose UTF-8 conversions keep
    ASCII characters apart from all others: for every text, when no name
    that [LoadCSV] keeps of it holds a semicolon and the platform converts
    each of these names to UTF-8 and back unchanged, reading the text that
    [SaveCSV] writes for the rows read gives these rows again, name for name
    and counter for counter. *)
Theorem csv_round_trip (stream : cstring) :
  (∀ e, e ∈ read_rows stream →
        (N_of_ascii ";" ∉ name e) ∧ Utf8ToWide (WideToUtf8 (name e)) = name e) →
  read_rows (csv_bytes (read_rows stream)) = read_rows stream.
Proof.
  intros Hnames.
  assert (Forall kept (read_rows stream)) as Hkept.
  { apply Forall_forall. intros e. apply read_rows_kept. }
  rewrite Forall_forall in Hkept.
  unfold read_rows at 1. rewrite getlines_csv_bytes by by apply Forall_forall.
  cbn [hd tl].
  assert (DetectDelimiter (BOM8 ++ lit "Name;Counter" ++ [CR]) = ";"%char) as -> by done.
  induction (read_rows stream) as [|e entries IH]; [done|]. cbn [map omap list_omap].
  rewrite parse_row_row_text.
  - cbn. f_equal. apply IH.
    + intros e' He'. apply Hnames. by right.
    + intros e' He'. apply Hkept. by right.
  - apply Hkept. left.
  - apply Hnames. left.
  - apply Hnames. left.
Qed.

End RoundTrip.

Lemma N_of_ascii_inj (c d : ascii) : N_of_ascii c = N_of_ascii d → c = d.
Proof. intros Heq. by rewrite <- (ascii_N_embedding c), <- (ascii_N_embedding d), Heq. Qed.

Lemma ascii_platform_transparent : @ascii_transparent ascii_platform.
Proof.
  split; cbn.
  - intros s c _ (d & Hd & Hin)%list_elem_of_fmap. by apply N_of_ascii_inj in Hd as ->.
  - intros w c Hc (u & -> & Hin)%list_elem_of_fmap. unfold narrow in *.
    case_decide as Hu.
    + by rewrite N_ascii_embedding by lia.
    + vm_compute in Hc. discriminate.
Qed.

Lemma csv_round_trip_witness :
  @ascii_transparent ascii_platform
  ∧ (∀ e, e ∈ @read_rows ascii_platform comma_file →
          (N_of_ascii ";" ∉ name e)
          ∧ @Utf8ToWide ascii_platform (@WideToUtf8 ascii_platform (name e)) = name e)
  ∧ @read_rows ascii_platform (@csv_bytes ascii_platform (@read_rows ascii_platform comma_file))
    = @read_rows ascii_platform comma_file.
Proof.
  assert (∀ e, e ∈ @read_rows ascii_platform comma_file →
               (N_of_ascii ";" ∉ name e)
               ∧ @Utf8ToWide ascii_platform (@WideToUtf8 ascii_platform (name e)) = name e)
    as Hnames.
  { apply Forall_forall. apply (bool_decide_unpack _). vm_compute. exact I. }
  split; [exact ascii_platform_transparent|]. split; [exact Hnames|].
  exact (@csv_round_trip ascii_platform ascii_platform_transparent comma_file Hnames).
Defined.

(** C7 fails as stated: a name with a semicolon, kept from a file with
    commas, is cut at the semicolon when the saved file is read, and the
    counter is lost. *)
Lemma semicolon_name_not_round_trip :
  let stream := line "A,B" ++ line "foo;bar,3" in
  @read_rows ascii_platform stream = [mkEntry (L "foo;bar") 3]
  ∧ @read_rows ascii_platform (@csv_bytes ascii_platform (@read_rows ascii_platform stream))
    = [mkEntry (L "foo") 0]
  ∧ @read_rows ascii_platform (@csv_bytes ascii_platform (@read_rows ascii_platform stream))
    ≠ @read_rows ascii_platform stream.
Proof. vm_compute. repeat split; discriminate. Qed.

(** * Loading and saving at their failures *)

(** C5, at a failing input.  Loading a file without valid rows fails, and
    the roster in memory is empty afterwards; the path, the status bar and
    every other global are as they were. *)
Lemma DoLoadFile_without_rows_empties_roster :
  let s' := @DoLoadFile ascii_platform header_only with_header_only in
  g_entries with_header_only = two_names
  ∧ @LoadCSV ascii_platform header_only (disk with_header_only) two_names = (false, [])
  ∧ g_entries s' = []
  ∧ messageBoxes s' = [L "Fehler beim Laden"]
  ∧ g_filePath s' = g_filePath with_header_only
  ∧ statusText s' = statusText with_header_only.
Proof. vm_compute. repeat split. Qed.

(** The other failure of [LoadCSV], a file that cannot be opened, leaves the
    roster as it was. *)
Lemma LoadCSV_unreadable_keeps_roster `{Win32} (path : wstring) (fs : FileSystem)
    (entries : list NameEntry) :
  ifstream_open fs (WideToUtf8 path) = None → wfopen_rb fs path = None →
  LoadCSV path fs entries = (false, entries).
Proof. intros Hn Hw. unfold LoadCSV. by rewrite Hn, Hw. Qed.

(** And any file that opens and has no valid row empties it. *)
Lemma LoadCSV_without_rows_empties_roster `{Win32} (path : wstring) (fs : FileSystem)
    (prior : list NameEntry) (text : cstring) :
  ifstream_open fs (WideToUtf8 path) = Some text → read_rows text = [] →
  LoadCSV path fs prior = (false, []).
Proof. intros Hopen Hrows. unfold LoadCSV. by rewrite Hopen, Hrows. Qed.

(** C6, at a failing input.  The temporary file is written, the target can
    neither be removed nor renamed onto nor copied onto, and [SaveCSV]
    returns [true]; the target holds what it held, not the roster, and the
    temporary file is gone. *)
Lemma SaveCSV_true_though_target_not_replaced :
  let '(saved, fs') := @SaveCSV ascii_platform target two_names with_locked_target in
  saved = true
  ∧ files fs' !! target = Some (lit "old")
  ∧ files fs' !! target ≠ Some (@csv_bytes ascii_platform two_names)
  ∧ files fs' !! (target ++ L ".tmp") = None.
Proof. vm_compute. repeat split; discriminate. Qed.

(** In general: once the temporary file could be opened, [SaveCSV] returns
    [true] whatever becomes of the rename and of the copy. *)
Lemma SaveCSV_true_once_opened `{Win32} (path : wstring) (entries : list NameEntry)
    (fs : FileSystem) :
  refuses fs FOPEN_WRITE (path ++ L ".tmp") = false →
  (SaveCSV path entries fs).1 = true.
Proof.
  intros Hopen. unfold SaveCSV. rewrite Hopen.
  destruct (wrename _ _ _) as [[] fs1]; [done|]. by destruct (CopyFileW _ _ _).
Qed.

(** * Selection of a winner *)

Lemma EligibleIndices_range (entries : list NameEntry) (i : Z) :
  i ∈ EligibleIndices entries → 0 ≤ i < Z.of_nat (length entries).
Proof.
  intros Hi. apply EligibleIndices_min_iff in Hi as (e & He & _).
  apply at_range. by exists e.
Qed.

Lemma EligibleIndices_nonempty (entries : list NameEntry) :
  entries ≠ [] → EligibleIndices entries ≠ [].
Proof.
  intros Hne. destruct (is_min_counter_exists _ Hne) as [m Hm].
  pose proof Hm as [(e & [i Hi]%at_elem_of & Hc) _].
  assert (i ∈ EligibleIndices entries) as Hin.
  { apply (EligibleIndices_elem _ _ m); [done|]. unfold counter_at. by rewrite Hi, <- Hc. }
  intros Heq. rewrite Heq in Hin. by apply elem_of_nil in Hin.
Qed.

Lemma draw_pool_subseteq (elig : list Z) (excluded : gset Z) (i : Z) :
  i ∈ draw_pool elig excluded → i ∈ elig.
Proof.
  unfold draw_pool. destruct (filter _ elig) as [|x l] eqn:Hf; [done|].
  rewrite <- Hf. by intros [_ ?]%list_elem_of_filter.
Qed.

Lemma draw_pool_nonempty (elig : list Z) (excluded : gset Z) :
  elig ≠ [] → draw_pool elig excluded ≠ [].
Proof. unfold draw_pool. by destruct (filter _ elig). Qed.

(** A candidate that was already picked in the batch is in the pool only
    when every eligible index was already picked. *)
Lemma draw_pool_repeat (elig : list Z) (excluded : gset Z) (w : Z) :
  w ∈ draw_pool elig excluded → w ∈ excluded → ∀ i, i ∈ elig → i ∈ excluded.
Proof.
  unfold draw_pool. destruct (filter _ elig) as [|x l] eqn:Hf.
  - intros _ _ i Hi. destruct (decide (i ∈ excluded)) as [|Hn]; [done|].
    assert (i ∈ filter (λ i, i ∉ excluded) elig) as Hin by by apply list_elem_of_filter.
    rewrite Hf in Hin. by apply elem_of_nil in Hin.
  - rewrite <- Hf. intros [Hn _]%list_elem_of_filter Hw. done.
Qed.

(** And otherwise the pool holds exactly the eligible indices not yet
    picked. *)
Lemma draw_pool_fresh (elig : list Z) (excluded : gset Z) (i : Z) :
  i ∈ elig → i ∉ excluded →
  ∀ w, w ∈ draw_pool elig excluded ↔ w ∈ elig ∧ w ∉ excluded.
Proof.
  intros Hi Hn w. unfold draw_pool.
  assert (i ∈ filter (λ i, i ∉ excluded) elig) as Hin by by apply list_elem_of_filter.
  destruct (filter _ elig) as [|x l] eqn:Hf; [by apply elem_of_nil in Hin|].
  rewrite <- Hf, list_elem_of_filter. tauto.
Qed.

Lemma uniform_int_range (size : Z) (s : State) :
  0 < size → 0 ≤ (uniform_int 0 (size - 1) s).1 < size.
Proof.
  intros Hs. unfold uniform_int. simpl. replace (size - 1 - 0 + 1) with size by lia.
  pose proof (Z.mod_pos_bound (Z.of_nat (g_rng s 0%nat)) size Hs). lia.
Qed.

Lemma index_Ok {A} (v : list A) (i : Z) :
  0 ≤ i < Z.of_nat (length v) → ∃ x, index v i = Ok x ∧ at_ v i = Some x ∧ x ∈ v.
Proof.
  intros Hi. apply at_range in Hi as [x Hx]. exists x. unfold index. rewrite Hx.
  split; [done|]. split; [done|]. apply at_elem_of. by exists i.
Qed.

Lemma index_inv {A} (v : list A) (i : Z) (x : A) : index v i = Ok x → at_ v i = Some x.
Proof. unfold index. destruct (at_ v i); [by intros [= ->]|done]. Qed.

(** * The rollout loop *)

Section Rollout.
Variables (filtered : list Z) (winnerIdx rollout maxSteps : Z).
Let n : Z := Z.of_nat (length filtered).

(** What the loop returns from any of its states: [t] rounds were made, the
    cells visited are those of a circular walk from [cur], no earlier round
    met the exit test, and the loop left either on the winner or at the cap,
    where the winner is appended. *)
Lemma rollout_loop_spec (fuel : nat) (cur steps : Z) (path : list Z) :
  0 ≤ cur < n → 0 ≤ steps < maxSteps → maxSteps - steps ≤ Z.of_nat fuel →
  ∃ (t : nat) (walk : list Z),
    rollout_loop fuel filtered winnerIdx rollout maxSteps cur steps path
      = Some (Ok (path ++ walk))
    ∧ (1 ≤ t)%nat ∧ steps + Z.of_nat t ≤ maxSteps
    ∧ (∀ k, (k < t)%nat → walk !! k = at_ filtered ((cur + Z.of_nat k) mod n))
    ∧ (∀ k, (S k < t)%nat →
            ¬ (steps + Z.of_nat (S k) >= rollout ∧ walk !! k = Some winnerIdx))
    ∧ ((length walk = t ∧ walk !! (t - 1)%nat = Some winnerIdx
        ∧ steps + Z.of_nat t >= rollout)
       ∨ (length walk = S t ∧ walk !! t = Some winnerIdx
          ∧ steps + Z.of_nat t = maxSteps
          ∧ ¬ (steps + Z.of_nat t >= rollout ∧ walk !! (t - 1)%nat = Some winnerIdx))).
Proof.
  revert cur steps path. induction fuel as [|fuel IH]; intros cur steps path Hcur Hsteps Hfuel.
  { lia. }
  destruct (index_Ok filtered cur Hcur) as (idx & Hidx & Hat & _).
  cbn [rollout_loop]. rewrite Hidx.
  assert (at_ filtered ((cur + 0) mod n) = Some idx) as Hat0.
  { by rewrite Z.add_0_r, Z.mod_small. }
  destruct (decide (steps + 1 >= rollout ∧ idx = winnerIdx)) as [[Hr Hw]|Hnowin].
  { exists 1%nat, [idx]. split; [done|]. split; [lia|]. split; [lia|]. split; [|split].
    - intros k Hk. replace k with 0%nat by lia. done.
    - intros k Hk. lia.
    - left. simpl. split; [done|]. split; [by rewrite Hw|lia]. }
  destruct (decide (steps + 1 >= maxSteps)) as [Hcap|Hnocap].
  { exists 1%nat, [idx; winnerIdx]. split; [by rewrite <- app_assoc|].
    split; [lia|]. split; [lia|]. split; [|split].
    - intros k Hk. replace k with 0%nat by lia. done.
    - intros k Hk. lia.
    - right. simpl. split; [done|]. split; [done|]. split; [lia|].
      intros [Hr [= Hw]]. apply Hnowin. split; [lia|done]. }
  assert (Z.rem (cur + 1) n = (cur + 1) mod n) as Hrem by (apply Z.rem_mod_nonneg; lia).
  fold n. rewrite Hrem.
  destruct (IH ((cur + 1) mod n) (steps + 1) (path ++ [idx]))
    as (t & walk & Hrun & Ht & Hle & Hcirc & Hfirst & Hend).
  { apply Z.mod_pos_bound. lia. }
  { lia. }
  { lia. }
  exists (S t), (idx :: walk). split; [by rewrite Hrun, <- app_assoc|].
  split; [lia|]. split; [lia|]. split; [|split].
  - intros [|k] Hk; [done|]. simpl. rewrite Hcirc by lia. f_equal.
    rewrite Zplus_mod_idemp_l. f_equal. lia.
  - intros [|k] Hk.
    + simpl. intros [Hr [= Hw]]. apply Hnowin. split; [lia|done].
    + simpl. intros [Hr Hw]. apply (Hfirst k); [lia|]. split; [lia|done].
  - replace (S t - 1)%nat with (S (t - 1)) by lia. simpl.
    destruct Hend as [(Hlen & Hlast & Hr)|(Hlen & Hlast & Hcap & Hno)].
    + left. split; [lia|]. split; [done|lia].
    + right. split; [lia|]. split; [done|]. split; [lia|].
      intros [Hr Hw]. apply Hno. split; [lia|done].
Qed.

(** When the winner is one of the cells walked over and the cap leaves room
    for a full turn after the rollout, the loop leaves on the winner before
    the cap. *)
Lemma rollout_loop_lands (cur : Z) (path : list Z) :
  winnerIdx ∈ filtered → 1 ≤ rollout → maxSteps = rollout + n * 2 → 0 ≤ cur < n →
  ∃ walk : list Z,
    rollout_loop (Z.to_nat maxSteps) filtered winnerIdx rollout maxSteps cur 0 path
      = Some (Ok (path ++ walk))
    ∧ rollout ≤ Z.of_nat (length walk) < rollout + n
    ∧ last walk = Some winnerIdx
    ∧ (∀ k, (k < length walk)%nat → walk !! k = at_ filtered ((cur + Z.of_nat k) mod n))
    ∧ (∀ k, rollout ≤ Z.of_nat (S k) → (S k < length walk)%nat → walk !! k ≠ Some winnerIdx).
Proof.
  intros Hw Hr Hmax Hcur.
  destruct (rollout_loop_spec (Z.to_nat maxSteps) cur 0 path)
    as (t & walk & Hrun & Ht & Hle & Hcirc & Hfirst & Hend); [lia..|].
  apply at_elem_of in Hw as [p Hp].
  assert (0 ≤ p < n) as Hpn by (apply at_range; by exists winnerIdx).
  (* the first round at or after the rollout that stands on the winner *)
  set (k0 := rollout - 1).
  set (k := k0 + (p - cur - k0) mod n).
  assert (0 ≤ (p - cur - k0) mod n < n) as Hm by (apply Z.mod_pos_bound; lia).
  assert ((cur + k) mod n = p) as Hk.
  { unfold k. rewrite Z.add_assoc, Zplus_mod_idemp_r.
    replace (cur + k0 + (p - cur - k0)) with p by lia. by apply Z.mod_small. }
  assert (∀ j : nat, Z.of_nat j = k → (j < t)%nat → walk !! j = Some winnerIdx) as Hhit.
  { intros j Hj Hjt. by rewrite Hcirc, Hj, Hk. }
  assert (Z.of_nat t ≤ k + 1) as Hbound.
  { destruct (decide (Z.of_nat t ≤ k + 1)) as [|Hgt]; [done|]. exfalso.
    apply (Hfirst (Z.to_nat k)); [lia|]. split; [lia|]. apply Hhit; lia. }
  destruct Hend as [(Hlen & Hlast & Hge)|(Hlen & Hlast & Hcap & Hno)]; [|lia].
  exists walk. split; [done|]. split; [lia|]. split; [|split].
  - rewrite last_lookup. by replace (pred (length walk)) with (t - 1)%nat by lia.
  - intros j Hj. apply Hcirc. lia.
  - intros j Hj Hjt Hwalk. apply (Hfirst j); [lia|]. split; [lia|done].
Qed.

End Rollout.

(** * One draw *)

Section Draw.
Context `{Win32}.

Lemma pool_of_nonempty (s : State) : g_entries s ≠ [] → 0 < pool_size s.
Proof.
  intros Hne. unfold pool_size, pool_of.
  pose proof (draw_pool_nonempty _ (g_roundExcludedIdx s) (EligibleIndices_nonempty _ Hne)).
  destruct (draw_pool _ _); [done|simpl; lia].
Qed.

Lemma DrawNextOne_spec (s : State) :
  g_entries s ≠ [] →
  ∃ w walk,
    DrawNextOne s = Ok (drawn s w (laps_of s ++ walk))
    ∧ at_ (pool_of s) (pick_of s) = Some w
    ∧ w ∈ pool_of s
    ∧ rollout_of s ≤ Z.of_nat (length walk) < rollout_of s + pool_size s
    ∧ last walk = Some w
    ∧ (∀ k, (k < length walk)%nat →
            walk !! k = at_ (pool_of s) ((start_of s + Z.of_nat k) mod pool_size s))
    ∧ (∀ k, rollout_of s ≤ Z.of_nat (S k) → (S k < length walk)%nat → walk !! k ≠ Some w).
Proof.
  intros Hne. pose proof (pool_of_nonempty s Hne) as Hsize.
  pose proof (EligibleIndices_nonempty _ Hne) as Helig.
  assert (0 ≤ pick_of s < pool_size s) as Hpick by (apply Z.mod_pos_bound; lia).
  assert (0 ≤ start_of s < pool_size s) as Hstart by (apply Z.mod_pos_bound; lia).
  destruct (index_Ok (pool_of s) (pick_of s) Hpick) as (w & Hidx & Hat & Hw).
  destruct (rollout_loop_lands (pool_of s) w (rollout_of s)
              (rollout_of s + pool_size s * 2) (start_of s) (laps_of s))
    as (walk & Hrun & Hlen & Hlast & Hcirc & Hfirst);
    [done|unfold rollout_of; lia|done|done|].
  exists w, walk. split; [|done].
  unfold DrawNextOne. destruct (g_entries s) as [|e0 rest] eqn:Hentries; [done|].
  rewrite <- Hentries in Helig |- *.
  destruct (EligibleIndices (g_entries s)) as [|i0 elig] eqn:Heq; [done|].
  rewrite <- Heq.
  change (draw_pool (EligibleIndices (g_entries s)) (g_roundExcludedIdx s)) with (pool_of s).
  unfold uniform_int. cbn [fst snd].
  change (Z.of_nat (length (pool_of s))) with (pool_size s).
  replace (pool_size s - 1 - 0 + 1) with (pool_size s) by lia.
  rewrite !Z.add_0_l. fold (pick_of s). rewrite Hidx. cbn.
  fold (start_of s). fold (laps_of s).
  change (Z.max 1 (Qtrunc (inject_Z (pool_size s) * CFG_SPIN_ROLLOUT_FACTOR s)))
    with (rollout_of s).
  rewrite Z.add_0_l, Hrun. done.
Qed.

End Draw.

(** * The commit of a draw *)

Lemma at_insert {A} (v : list A) (w i : Z) (x : A) :
  0 ≤ w < Z.of_nat (length v) →
  at_ (<[Z.to_nat w := x]> v) i = if decide (i = w) then Some x else at_ v i.
Proof.
  intros Hw. unfold at_. case_decide as Hi.
  - case_decide as Heq.
    + subst. apply list_lookup_insert_eq. lia.
    + apply list_lookup_insert_ne. lia.
  - by rewrite decide_False by lia.
Qed.

Lemma int_incr_Ok (c : Z) : c < INT_MAX → int_incr c = Ok (c + 1).
Proof. intros Hc. unfold int_incr. by rewrite decide_True. Qed.

Lemma int_incr_overflow (c : Z) : INT_MAX ≤ c → int_incr c = Undefined SignedOverflow.
Proof. intros Hc. unfold int_incr. by rewrite decide_False by lia. Qed.

Lemma increment_counter_Ok (entries : list NameEntry) (w : Z) (e : NameEntry) :
  at_ entries w = Some e → counter e < INT_MAX →
  increment_counter w entries
  = Ok (<[Z.to_nat w := mkEntry (name e) (counter e + 1)]> entries).
Proof.
  intros Hat Hc. unfold increment_counter, index. rewrite Hat. cbn.
  by rewrite int_incr_Ok.
Qed.

Lemma increment_counter_overflow (entries : list NameEntry) (w : Z) (e : NameEntry) :
  at_ entries w = Some e → INT_MAX ≤ counter e →
  increment_counter w entries = Undefined SignedOverflow.
Proof.
  intros Hat Hc. unfold increment_counter, index. rewrite Hat. cbn.
  by rewrite int_incr_overflow.
Qed.

(** A defined [counter++] changes the counter of that entry alone, by one. *)
Lemma increment_counter_inv (entries mid : list NameEntry) (w : Z) :
  increment_counter w entries = Ok mid →
  ∃ e, at_ entries w = Some e ∧ counter e < INT_MAX
     ∧ mid = <[Z.to_nat w := mkEntry (name e) (counter e + 1)]> entries
     ∧ length mid = length entries
     ∧ ∀ i, at_ mid i =
            (λ e', mkEntry (name e') (if decide (i = w) then counter e' + 1 else counter e'))
              <$> at_ entries i.
Proof.
  unfold increment_counter, index. destruct (at_ entries w) as [e|] eqn:Hat; [|done].
  cbn. unfold int_incr. case_decide as Hc; [|done]. cbn. intros [= <-].
  exists e. split; [done|]. split; [done|]. split; [done|].
  split; [apply length_insert|]. intros i.
  assert (0 ≤ w < Z.of_nat (length entries)) as Hw by (apply at_range; by exists e).
  rewrite at_insert by done. case_decide as Hi.
  - subst i. by rewrite Hat.
  - destruct (at_ entries i) as [[nm c]|]; done.
Qed.

Lemma name_at_NormalizeCounters (entries : list NameEntry) (i : Z) :
  name_at (NormalizeCounters entries) i = name_at entries i.
Proof.
  destruct entries as [|e0 rest]; [done|]. unfold name_at.
  rewrite (NormalizeCounters_at _ _ i (scan_min_is_min e0 rest)).
  by destruct (at_ (e0 :: rest) i).
Qed.

Lemma name_at_increment (entries mid : list NameEntry) (w i : Z) :
  increment_counter w entries = Ok mid → name_at mid i = name_at entries i.
Proof.
  intros (e & _ & _ & _ & _ & Hat)%increment_counter_inv. unfold name_at.
  rewrite Hat. by destruct (at_ entries i).
Qed.

(** * The summary *)

Lemma set_iter_elem (X : gset Z) (i : Z) : i ∈ set_iter X ↔ i ∈ X.
Proof. unfold set_iter. by rewrite merge_sort_Permutation, elem_of_elements. Qed.

Lemma set_iter_ascending (X : gset Z) : StronglySorted Z.lt (set_iter X).
Proof.
  unfold set_iter.
  assert (NoDup (merge_sort Z.le (elements X))) as Hnd.
  { rewrite merge_sort_Permutation. apply NoDup_elements. }
  assert (StronglySorted Z.le (merge_sort Z.le (elements X))) as Hs.
  { apply StronglySorted_merge_sort; apply _. }
  induction Hs as [|x l _ IH Hall]; [constructor|].
  apply NoDup_cons in Hnd as [Hx Hnd]. constructor; [by apply IH|].
  apply Forall_forall. intros y Hy. rewrite Forall_forall in Hall.
  specialize (Hall _ Hy). assert (x ≠ y) by (intros ->; done). lia.
Qed.

Lemma join_names_cons (nm : wstring) (names : list wstring) :
  join_names (nm :: names) = nm ++ join_after names.
Proof.
  revert nm. induction names as [|nm' names IH]; intros nm.
  - unfold join_names, join_after. simpl. by rewrite app_nil_r.
  - change (join_names (nm :: nm' :: names)) with (nm ++ L ", " ++ join_names (nm' :: names)).
    rewrite IH. unfold join_after. cbn [map concat]. by rewrite <- !app_assoc.
Qed.

Lemma summary_loop_spec (entries : list NameEntry) (idxs : list Z)
    (summary : wstring) (first : bool) :
  Forall (λ i, 0 ≤ i < Z.of_nat (length entries)) idxs →
  summary_loop entries idxs summary first
  = Ok (summary ++ (if first then join_names (map (name_at entries) idxs)
                    else join_after (map (name_at entries) idxs))).
Proof.
  intros Hall. revert summary first.
  induction Hall as [|i idxs Hi _ IH]; intros summary first.
  - simpl. destruct first; by rewrite app_nil_r.
  - destruct (index_Ok entries i Hi) as (e & Hidx & Hat & _).
    cbn [summary_loop]. rewrite Hidx. cbn [mbind result_bind]. rewrite IH.
    assert (name_at entries i = name e) as Hnm by (unfold name_at; by rewrite Hat).
    f_equal. cbn [map]. rewrite Hnm. destruct first.
    + by rewrite join_names_cons, <- app_assoc.
    + unfold join_after. cbn [map concat]. by rewrite <- !app_assoc.
Qed.

(** * The end of a batch and the commit as steps of the state *)

Section Commit.
Context `{Win32}.

Lemma FinishRound_spec (s : State) :
  (∀ i, i ∈ g_roundSelectedIdx s → 0 ≤ i < Z.of_nat (length (g_entries s))) →
  ∃ s', FinishRound s = Ok s'
      ∧ g_entries s' = g_entries s
      ∧ g_animRunning s' = false
      ∧ g_roundSelectedIdx s' = ∅
      ∧ g_roundExcludedIdx s' = ∅
      ∧ timers s' = timers s
      ∧ g_drawnCount s' = g_drawnCount s
      ∧ g_toDrawTotal s' = g_toDrawTotal s
      ∧ g_animPath s' = g_animPath s
      ∧ statusText s' = summary_of (g_entries s) (g_roundSelectedIdx s).
Proof.
  intros Hsel. unfold FinishRound.
  set (s0 := match g_filePath s with [] => s | _ => _ end).
  assert (g_entries s0 = g_entries s ∧ g_roundSelectedIdx s0 = g_roundSelectedIdx s
          ∧ timers s0 = timers s ∧ g_drawnCount s0 = g_drawnCount s
          ∧ g_toDrawTotal s0 = g_toDrawTotal s
          ∧ g_animPath s0 = g_animPath s) as (He & Hs & Ht & Hd & Hn & Hq).
  { unfold s0. destruct (g_filePath s); [done|].
    destruct (SaveCSV _ _ _) as [[] fs]; done. }
  clearbody s0. rewrite He, Hs.
  rewrite summary_loop_spec.
  - cbn [mbind result_bind]. eexists. split; [done|]. cbn -[summary_of].
    repeat split; done.
  - apply Forall_forall. intros i Hi. apply Hsel. by apply set_iter_elem.
Qed.

Lemma ApplyWinnerAndContinue_spec (s : State) (mid : list NameEntry) :
  increment_counter (g_animWinnerIdx s) (g_entries s) = Ok mid →
  ∃ status,
    ApplyWinnerAndContinue s =
    if decide (g_drawnCount s + 1 < g_toDrawTotal s)
    then Ok (SetTimer TIMER_FINISH (committed s mid status))
    else FinishRound (committed s mid status).
Proof.
  intros Hmid. unfold ApplyWinnerAndContinue. rewrite Hmid. cbn [mbind result_bind].
  apply increment_counter_inv in Hmid as (e & Hat & _ & _ & Hlen & _).
  assert (0 ≤ g_animWinnerIdx s < Z.of_nat (length (NormalizeCounters mid))) as Hw.
  { rewrite NormalizeCounters_length, Hlen. apply at_range. by exists e. }
  destruct (index_Ok _ _ Hw) as (e' & Hidx & _).
  cbn [g_entries set_g_entries set_g_drawnCount g_animWinnerIdx].
  rewrite Hidx. cbn [mbind result_bind]. eexists. reflexivity.
Qed.

Lemma ApplyWinnerAndContinue_fault (s : State) (why : fault) :
  increment_counter (g_animWinnerIdx s) (g_entries s) = Undefined why →
  ApplyWinnerAndContinue s = Undefined why.
Proof. intros Hmid. unfold ApplyWinnerAndContinue. by rewrite Hmid. Qed.

End Commit.

Arguments EligibleIndices : simpl never.
Arguments NormalizeCounters : simpl never.
Arguments summary_of : simpl never.

Lemma next_timer_armed (s : State) (o : option Timer) : armed s o → next_timer s = o.
Proof.
  intros Ha. unfold next_timer. rewrite !Ha. by destruct o as [[]|].
Qed.

Lemma winners_app (log log' : list Draw) : winners (log ++ log') = winners log ++ winners log'.
Proof. apply map_app. Qed.

Lemma picked_snoc (log : list Draw) (w : Z) (roster : list NameEntry) :
  picked (log ++ [(w, roster)]) = {[w]} ∪ picked log.
Proof.
  unfold picked. rewrite winners_app, list_to_set_app_L. simpl.
  by rewrite union_empty_r_L, (comm_L (∪)).
Qed.

Lemma elem_of_picked (log : list Draw) (w : Z) : w ∈ picked log ↔ w ∈ winners log.
Proof. apply elem_of_list_to_set. Qed.

Lemma fair_log_nil : fair_log [].
Proof. intros [|??] ???; done. Qed.

Lemma fair_log_snoc (log : list Draw) (w : Z) (roster : list NameEntry) :
  fair_log log →
  w ∈ EligibleIndices roster →
  (w ∈ winners log → ∀ i, i ∈ EligibleIndices roster → i ∈ winners log) →
  fair_log (log ++ [(w, roster)]).
Proof.
  intros Hfair Hw Hrep before w' roster' after Heq.
  destruct after as [|d after _] using rev_ind.
  - apply app_inj_tail in Heq as [-> [= -> ->]]. done.
  - rewrite app_comm_cons, app_assoc in Heq. apply app_inj_tail in Heq as [-> _].
    by apply (Hfair before w' roster' after).
Qed.

Lemma ClearScanHighlight_eq (s : State) :
  ClearScanHighlight s
  = set_g_scanHighlightRow
      (if decide (g_scanHighlightRow s >= 0) then -1 else g_scanHighlightRow s) s.
Proof. unfold ClearScanHighlight. case_decide; [done|]. by destruct s. Qed.

Lemma replays_snoc (roster0 roster mid : list NameEntry) (log : list Draw) (w : Z) :
  replays roster0 log roster → increment_counter w roster = Ok mid →
  replays roster0 (log ++ [(w, roster)]) (NormalizeCounters mid).
Proof.
  revert roster0. induction log as [|[w' r'] log IH]; intros roster0; simpl.
  - intros -> Hmid. split; [done|]. by exists mid.
  - intros (-> & mid' & Hmid' & Hrest) Hmid. split; [done|]. exists mid'.
    split; [done|]. by apply IH.
Qed.

Section Steps.
Context `{Win32}.
Variable roster0 : list NameEntry.
Variable total0 : Z.

Ltac armed_tac Ha := intros t; cbn; rewrite ?Ha; destruct t; reflexivity.
Ltac open_inv := unfold armed, in_range, pending_ok in *; cbn in *.

Lemma step_scan (log : list Draw) (s : State) :
  batch_inv roster0 total0 Scanning log s →
  batch_inv roster0 total0 (match g_animPath s with [] => Blinking | _ => Scanning end)
            log (OnAnimTimer s).
Proof.
  intros [Ha He Hf Hr Hc Hrun Ht Hsel Hex Hp Hpath _ _ Hrep Hwin Htot0].
  unfold OnAnimTimer, SetScanHighlight.
  destruct (g_animPath s) as [|idx rest] eqn:Hq; rewrite !ClearScanHighlight_eq.
  - split; open_inv; try done.
    + armed_tac Ha.
    + by rewrite Hsel.
    + by rewrite Hex.
    + by rewrite Hq.
  - split; open_inv; try done.
    + armed_tac Ha.
    + by apply Forall_cons in Hpath as [_ ?].
Qed.

Lemma step_blink (log : list Draw) (s : State) :
  batch_inv roster0 total0 Blinking log s →
  batch_inv roster0 total0 (if decide (g_blinkState s <= 0) then Settling else Blinking)
            log (OnBlinkTimer s).
Proof.
  intros [Ha He Hf Hr Hc Hrun Ht Hsel Hex Hp Hpath Hb _ Hrep Hwin Htot0].
  unfold OnBlinkTimer. case_decide; rewrite ?ClearScanHighlight_eq.
  - split; open_inv; try done. armed_tac Ha.
  - case_decide; split; open_inv; try done.
Qed.

Lemma step_pause (log : list Draw) (s : State) :
  batch_inv roster0 total0 Pausing log s →
  ∃ s', OnFinishTimer s = Ok s' ∧ batch_inv roster0 total0 Scanning log s'.
Proof.
  intros [Ha He Hf Hr Hc Hrun Ht Hsel Hex _ _ _ _ Hrep _ Htot0]. cbn in *.
  unfold OnFinishTimer.
  destruct (DrawNextOne_spec (KillTimer TIMER_FINISH s)) as (w & walk & Hdraw & _ & Hw & Hx);
    [done|].
  eexists. split; [exact Hdraw|].
  assert (pool_of (KillTimer TIMER_FINISH s)
          = draw_pool (EligibleIndices (g_entries s)) (picked log)) as Hpool.
  { unfold pool_of. cbn. by rewrite Hex, Hsel. }
  rewrite Hpool in Hw.
  split; open_inv; try done.
  - armed_tac Ha.
  - intros _. split.
    + by eapply draw_pool_subseteq.
    + intros Hin i Hi. apply elem_of_picked.
      eapply draw_pool_repeat; [exact Hw|by apply elem_of_picked|done].
  - destruct Hx as (_ & _ & Hcirc & _). apply Forall_app. split.
    + unfold laps_of. rewrite Hpool. apply Forall_concat, Forall_replicate.
      apply Forall_forall. intros i Hi. apply EligibleIndices_range.
      by eapply draw_pool_subseteq.
    + apply Forall_lookup. intros k i Hk.
      assert (k < length walk)%nat as Hlt by by eapply lookup_lt_Some.
      rewrite (Hcirc k Hlt), Hpool in Hk. apply EligibleIndices_range.
      eapply draw_pool_subseteq, at_elem_of. eauto.
  - intros _. apply EligibleIndices_range. by eapply draw_pool_subseteq.
Qed.


(** The tick that commits a draw: it is defined unless the counter of the
    winner is the largest [int], appends the draw to the log and either
    pauses before the next draw or finishes the batch. *)
Lemma step_settle (log : list Draw) (s : State) :
  batch_inv roster0 total0 Settling log s →
  ∃ e, at_ (g_entries s) (g_animWinnerIdx s) = Some e
     ∧ (INT_MAX ≤ counter e → OnNextTimer s = Undefined SignedOverflow)
     ∧ (counter e < INT_MAX →
        ∃ s', OnNextTimer s = Ok s'
            ∧ batch_inv roster0 total0 (if decide (g_drawnCount s + 1 < g_toDrawTotal s)
                                 then Pausing else Finished)
                        (log ++ [(g_animWinnerIdx s, g_entries s)]) s'
            ∧ g_toDrawTotal s' = g_toDrawTotal s
            ∧ increment_counter (g_animWinnerIdx s) (g_entries s)
              = Ok (<[Z.to_nat (g_animWinnerIdx s) :=
                        mkEntry (name e) (counter e + 1)]> (g_entries s))
            ∧ g_entries s'
              = NormalizeCounters (<[Z.to_nat (g_animWinnerIdx s) :=
                                       mkEntry (name e) (counter e + 1)]> (g_entries s))).
Proof.
  intros [Ha He Hf Hr Hc Hrun Ht Hsel Hex Hp Hpath Hb _ Hreplay Hwin Htot0].
  destruct (Hp eq_refl) as [Hw Hrep].
  pose proof (EligibleIndices_range _ _ Hw) as Hwr.
  apply at_range in Hwr as [e Hat]. exists e. split; [done|]. split.
  { intros Hc'. unfold OnNextTimer. apply ApplyWinnerAndContinue_fault.
    by apply (increment_counter_overflow _ _ e). }
  intros Hc'. unfold OnNextTimer.
  set (mid := <[Z.to_nat (g_animWinnerIdx s) := mkEntry (name e) (counter e + 1)]> (g_entries s)).
  assert (increment_counter (g_animWinnerIdx s) (g_entries s) = Ok mid) as Hmid
      by by apply increment_counter_Ok.
  destruct (ApplyWinnerAndContinue_spec (KillTimer TIMER_NEXT s) mid Hmid) as [status Happly].
  rewrite Happly. clear Happly. cbn [g_drawnCount g_toDrawTotal KillTimer set_timers].
  assert (length (NormalizeCounters mid) = length (g_entries s)) as Hlen.
  { rewrite NormalizeCounters_length. apply length_insert. }
  assert (NormalizeCounters mid ≠ []) as Hne.
  { intros Heq. rewrite Heq in Hlen. by destruct (g_entries s). }
  assert (fair_log (log ++ [(g_animWinnerIdx s, g_entries s)])) as Hfair
      by by apply fair_log_snoc.
  assert (∀ w, w ∈ winners (log ++ [(g_animWinnerIdx s, g_entries s)]) →
               0 ≤ w < Z.of_nat (length (g_entries s))) as Hrange.
  { intros w. rewrite winners_app, elem_of_app. intros [Hin|Hin]; [by apply Hr|].
    apply list_elem_of_singleton in Hin. subst w. by apply EligibleIndices_range. }
  pose proof (replays_snoc _ _ _ _ _ Hreplay Hmid) as Hreplay'.
  case_decide as Hmore.
  - eexists. split; [done|]. split; [|done].
    split; open_inv; rewrite ?Hlen; try done.
    + armed_tac Ha.
    + rewrite length_app. simpl. lia.
    + by rewrite picked_snoc.
  - destruct (FinishRound_spec (committed (KillTimer TIMER_NEXT s) mid status))
      as (s' & Hfin & Hent & Hrun' & Hsel' & Hex' & Htim & Hdr & Htot & Hq & Hstat).
    { cbn. rewrite Hlen, Hsel. cbn. intros i [->%elem_of_singleton|Hi]%elem_of_union.
      - by apply EligibleIndices_range.
      - by apply Hr, elem_of_picked. }
    exists s'. split; [done|]. cbn in Hent. split; [|done].
    split; unfold armed, in_range, pending_ok; rewrite ?Hent, ?Hlen; try done.
    + intros t. rewrite Htim. cbn. rewrite Ha. by destruct t.
    + rewrite Hdr. cbn. rewrite length_app. simpl. lia.
    + rewrite Hdr, Htot. cbn in *. lia.
    + by rewrite Hex'.
    + by rewrite Hq.
    + intros _. rewrite Hstat. cbn. by rewrite Hsel, picked_snoc.
    + by rewrite Htot.
Qed.


Lemma tick_inv (p : phase) (log : list Draw) (s s' : State) :
  batch_inv roster0 total0 p log s → tick s = Ok s' →
  ∃ p', batch_inv roster0 total0 p' (log ++ committed_by p s) s'.
Proof.
  intros Hinv. unfold tick. rewrite (next_timer_armed _ _ (inv_timers _ _ _ _ _ Hinv)).
  unfold committed_by. destruct p; cbn.
  - intros [= <-]. rewrite app_nil_r. eexists. by apply step_scan.
  - intros [= <-]. rewrite app_nil_r. eexists. by apply step_blink.
  - destruct (step_settle log s Hinv) as (e & Hat & Hover & Hok).
    destruct (decide (counter e < INT_MAX)) as [Hc|Hc].
    + destruct (Hok Hc) as (s1 & Hs1 & Hinv' & _). rewrite Hs1. intros [= <-]. eauto.
    + rewrite Hover by lia. done.
  - destruct (step_pause log s Hinv) as (s1 & Hs1 & Hinv'). rewrite Hs1.
    intros [= <-]. rewrite app_nil_r. eauto.
  - intros [= <-]. rewrite app_nil_r. eauto.
Qed.

Lemma run_S (k : nat) (s : State) :
  run (S k) s =
  s' ← tick s;
  '(log, s'') ← run k s';
  Ok (match next_timer s with
      | Some TIMER_NEXT => (g_animWinnerIdx s, g_entries s) :: log
      | _ => log
      end, s'').
Proof.
  cbn [run]. destruct (tick s) as [s'|]; [|done]. cbn.
  destruct (run k s') as [[log s'']|]; [|done]. cbn.
  by destruct (next_timer s) as [[]|].
Qed.

Lemma run_inv (k : nat) (p : phase) (pre log : list Draw) (s s' : State) :
  batch_inv roster0 total0 p pre s → run k s = Ok (log, s') →
  ∃ p', batch_inv roster0 total0 p' (pre ++ log) s'.
Proof.
  revert p pre log s s'. induction k as [|k IH]; intros p pre log s s' Hinv.
  - intros [= <- <-]. rewrite app_nil_r. eauto.
  - rewrite run_S. destruct (tick s) as [s1|] eqn:Htick; [|done]. cbn.
    destruct (run k s1) as [[log1 s2]|] eqn:Hrun; [|done]. cbn.
    destruct (tick_inv _ _ _ _ Hinv Htick) as [p1 Hinv1].
    destruct (IH _ _ _ _ _ Hinv1 Hrun) as [p2 Hinv2].
    rewrite (next_timer_armed _ _ (inv_timers _ _ _ _ _ Hinv)).
    intros [= <- <-]. exists p2. revert Hinv2. unfold committed_by.
    destruct p; cbn; rewrite <- ?app_assoc; by rewrite ?app_nil_r.
Qed.

End Steps.

Section Start.
Context `{Win32}.

Lemma run_no_timer (k : nat) (s : State) :
  (∀ t, timers s t = false) → run k s = Ok ([], s).
Proof.
  intros Ht. assert (next_timer s = None) as Hn.
  { unfold next_timer. by rewrite !Ht. }
  induction k as [|k IH]; [done|]. rewrite run_S. unfold tick. rewrite Hn. cbn.
  by rewrite IH.
Qed.

(** A click on the draw button that is refused leaves all timers as they
    were; one that is accepted starts the first draw of a batch. *)
Lemma OnDrawClicked_cases (n : Z) (s : State) :
  idle s →
  (∃ s', OnDrawClicked n s = Ok s' ∧ (∀ t, timers s' t = false)
       ∧ g_entries s' = g_entries s
       ∧ (g_entries s = [] ∨ n < 1))
  ∨ (∃ s', OnDrawClicked n s = Ok s'
         ∧ batch_inv (g_entries s) (Z.min n (Z.of_nat (length (g_entries s)))) Scanning [] s'
         ∧ g_entries s ≠ [] ∧ 1 ≤ n
         ∧ g_entries s' = g_entries s).
Proof.
  intros [Hrun Ht]. unfold OnDrawClicked. rewrite Hrun, orb_false_r.
  case_bool_decide as He.
  { left. exists s. auto. }
  case_decide as Hn.
  { left. eexists. split; [done|]. cbn. auto. }
  right.
  set (s1 := SetStatus _ _).
  destruct (DrawNextOne_spec s1) as (w & walk & Hdraw & _ & Hw & _ & _ & Hcirc & _); [done|].
  eexists. split; [exact Hdraw|].
  assert (pool_of s1 = draw_pool (EligibleIndices (g_entries s)) ∅) as Hpool by done.
  rewrite Hpool in Hw.
  assert (0 < Z.of_nat (length (g_entries s))) by (destruct (g_entries s); [done|simpl; lia]).
  split; [|cbn; split; [done|]; split; [lia|]; done].
  split; unfold armed, in_range, pending_ok; cbn; try done.
  - intros t. rewrite Ht. by destruct t.
  - apply fair_log_nil.
  - intros w' Hw'. by apply elem_of_nil in Hw'.
  - lia.
  - intros _. split; [by eapply draw_pool_subseteq|]. intros Hin. by apply elem_of_nil in Hin.
  - apply Forall_app. split.
    + unfold laps_of. rewrite Hpool. apply Forall_concat, Forall_replicate.
      apply Forall_forall. intros i Hi. apply EligibleIndices_range.
      by eapply draw_pool_subseteq.
    + apply Forall_lookup. intros k i Hk.
      assert (k < length walk)%nat as Hlt by by eapply lookup_lt_Some.
      rewrite (Hcirc k Hlt), Hpool in Hk. apply EligibleIndices_range.
      eapply draw_pool_subseteq, at_elem_of. eauto.
  - intros _. apply EligibleIndices_range. by eapply draw_pool_subseteq.
Qed.

End Start.

(** * A batch runs to its end *)

Section Progress.
Context `{Win32}.
Variable roster0 : list NameEntry.
Variable total0 : Z.

Lemma run_app (k1 k2 : nat) (s s1 s2 : State) (l1 l2 : list Draw) :
  run k1 s = Ok (l1, s1) → run k2 s1 = Ok (l2, s2) →
  run (k1 + k2) s = Ok (l1 ++ l2, s2).
Proof.
  revert s l1. induction k1 as [|k1 IH]; intros s l1.
  - intros [= <- <-]. done.
  - cbn [Nat.add]. rewrite !run_S. destruct (tick s) as [s'|]; [|done]. cbn.
    destruct (run k1 s') as [[l s'']|] eqn:Hrun; [|done]. cbn. intros [= <- <-] H2.
    rewrite (IH _ _ Hrun H2). cbn. by destruct (next_timer s) as [[]|].
Qed.

Lemma run_1 (p : phase) (log : list Draw) (s s' : State) :
  batch_inv roster0 total0 p log s → tick s = Ok s' → run 1 s = Ok (committed_by p s, s').
Proof.
  intros Hinv Htick. rewrite run_S, Htick. cbn.
  rewrite (next_timer_armed _ _ (inv_timers _ _ _ _ _ Hinv)). by destruct p.
Qed.

Lemma OnAnimTimer_frame (s : State) :
  g_entries (OnAnimTimer s) = g_entries s
  ∧ remaining (OnAnimTimer s) = remaining s
  ∧ g_animPath (OnAnimTimer s) = tail (g_animPath s).
Proof.
  unfold OnAnimTimer, SetScanHighlight, remaining.
  destruct (g_animPath s) eqn:Hq; rewrite !ClearScanHighlight_eq; cbn; by rewrite ?Hq.
Qed.

Lemma OnBlinkTimer_frame (s : State) :
  g_entries (OnBlinkTimer s) = g_entries s
  ∧ remaining (OnBlinkTimer s) = remaining s
  ∧ (0 < g_blinkState s → g_blinkState (OnBlinkTimer s) = g_blinkState s - 1).
Proof.
  unfold OnBlinkTimer, remaining. case_decide; rewrite ?ClearScanHighlight_eq.
  - cbn. split; [done|]. split; [done|lia].
  - case_decide; cbn; done.
Qed.

Lemma headroom_frame (s s' : State) :
  g_entries s' = g_entries s → remaining s' = remaining s → headroom s → headroom s'.
Proof. unfold headroom. by intros -> ->. Qed.

Lemma scanning_runs (log : list Draw) (s : State) :
  good roster0 total0 Scanning log s →
  ∃ k s', run k s = Ok ([], s') ∧ good roster0 total0 Blinking log s' ∧ remaining s' = remaining s.
Proof.
  remember (length (g_animPath s)) as m eqn:Hm. revert s Hm.
  induction m as [|m IH]; intros s Hm [Hinv Hroom].
  - pose proof (step_scan roster0 total0 _ _ Hinv) as Hinv'.
    destruct (g_animPath s) eqn:Hq; [|done].
    exists 1%nat, (OnAnimTimer s). split.
    + apply (run_1 Scanning log); [done|]. unfold tick.
      by rewrite (next_timer_armed _ _ (inv_timers _ _ _ _ _ Hinv)).
    + destruct (OnAnimTimer_frame s) as (He & Hr & _).
      split; [|done]. split; [done|]. by apply (headroom_frame s).
  - pose proof (step_scan roster0 total0 _ _ Hinv) as Hinv'.
    destruct (OnAnimTimer_frame s) as (He & Hr & Hq').
    destruct (g_animPath s) as [|idx rest] eqn:Hq; [done|].
    destruct (IH (OnAnimTimer s)) as (k & s' & Hrun & Hgood & Hrem).
    { rewrite Hq'. simpl in Hm. simpl. lia. }
    { split; [done|]. by apply (headroom_frame s). }
    exists (1 + k)%nat, s'. split; [|split; [done|congruence]].
    apply (run_app 1 k s (OnAnimTimer s) s' [] []); [|done].
    apply (run_1 Scanning log); [done|]. unfold tick.
    by rewrite (next_timer_armed _ _ (inv_timers _ _ _ _ _ Hinv)).
Qed.

Lemma blinking_runs (log : list Draw) (s : State) :
  good roster0 total0 Blinking log s →
  ∃ k s', run k s = Ok ([], s') ∧ good roster0 total0 Settling log s' ∧ remaining s' = remaining s.
Proof.
  remember (Z.to_nat (g_blinkState s)) as m eqn:Hm. revert s Hm.
  induction m as [|m IH]; intros s Hm [Hinv Hroom].
  - pose proof (step_blink roster0 total0 _ _ Hinv) as Hinv'.
    rewrite decide_True in Hinv' by lia.
    exists 1%nat, (OnBlinkTimer s). split.
    + apply (run_1 Blinking log); [done|]. unfold tick.
      by rewrite (next_timer_armed _ _ (inv_timers _ _ _ _ _ Hinv)).
    + destruct (OnBlinkTimer_frame s) as (He & Hr & _).
      split; [|done]. split; [done|]. by apply (headroom_frame s).
  - pose proof (step_blink roster0 total0 _ _ Hinv) as Hinv'.
    rewrite decide_False in Hinv' by lia.
    destruct (OnBlinkTimer_frame s) as (He & Hr & Hb).
    destruct (IH (OnBlinkTimer s)) as (k & s' & Hrun & Hgood & Hrem).
    { rewrite Hb by lia. lia. }
    { split; [done|]. by apply (headroom_frame s). }
    exists (1 + k)%nat, s'. split; [|split; [done|congruence]].
    apply (run_app 1 k s (OnBlinkTimer s) s' [] []); [|done].
    apply (run_1 Blinking log); [done|]. unfold tick.
    by rewrite (next_timer_armed _ _ (inv_timers _ _ _ _ _ Hinv)).
Qed.

Lemma NormalizeCounters_le (entries : list NameEntry) (e' : NameEntry) :
  e' ∈ NormalizeCounters entries → ∃ e, e ∈ entries ∧ counter e' ≤ counter e.
Proof.
  intros [i Hi]%at_elem_of. destruct entries as [|e0 rest]; [by apply at_Some in Hi as [_ ?]|].
  rewrite (NormalizeCounters_at _ _ i (scan_min_is_min e0 rest)) in Hi.
  destruct (at_ (e0 :: rest) i) as [e|] eqn:He; [|done]. injection Hi as <-.
  exists e. split; [apply at_elem_of; by exists i|simpl; lia].
Qed.

Lemma settling_runs (log : list Draw) (s : State) :
  good roster0 total0 Settling log s →
  ∃ s', run 1 s = Ok ([(g_animWinnerIdx s, g_entries s)], s')
      ∧ good roster0 total0 (if decide (1 < remaining s) then Pausing else Finished)
             (log ++ [(g_animWinnerIdx s, g_entries s)]) s'
      ∧ remaining s' = remaining s - 1.
Proof.
  intros [Hinv Hroom]. destruct (step_settle roster0 total0 log s Hinv) as (e & Hat & _ & Hok).
  assert (e ∈ g_entries s) as He by (apply at_elem_of; eauto).
  pose proof (inv_total _ _ _ _ _ Hinv) as Htot. cbn in Htot.
  pose proof (Hroom e He) as Hce. unfold remaining in Hce.
  destruct Hok as (s' & Hnext & Hinv' & Htotal & Hmid & Hent); [lia|].
  exists s'. split.
  { apply (run_1 Settling log); [done|]. unfold tick.
    by rewrite (next_timer_armed _ _ (inv_timers _ _ _ _ _ Hinv)). }
  assert (g_drawnCount s' = g_drawnCount s + 1) as Hdr.
  { rewrite (inv_count _ _ _ _ _ Hinv'), (inv_count _ _ _ _ _ Hinv), length_app. simpl. lia. }
  split; [|unfold remaining; lia]. split.
  - revert Hinv'. unfold remaining. repeat case_decide; try lia; done.
  - intros e' He'. rewrite Hent in He'. apply NormalizeCounters_le in He' as (e1 & He1 & Hle).
    apply at_elem_of in He1 as [i Hi].
    rewrite at_insert in Hi by (apply at_range; eauto).
    unfold remaining. rewrite Htotal, Hdr. case_decide.
    + injection Hi as <-. simpl in Hle. lia.
    + assert (e1 ∈ g_entries s) as Hin by (apply at_elem_of; eauto).
      specialize (Hroom _ Hin). unfold remaining in Hroom. lia.
Qed.

Lemma pausing_runs (log : list Draw) (s : State) :
  good roster0 total0 Pausing log s →
  ∃ s', run 1 s = Ok ([], s') ∧ good roster0 total0 Scanning log s' ∧ remaining s' = remaining s.
Proof.
  intros [Hinv Hroom]. destruct (step_pause roster0 total0 log s Hinv) as (s' & Hfin & Hinv').
  exists s'. split.
  { apply (run_1 Pausing log); [done|]. unfold tick.
    by rewrite (next_timer_armed _ _ (inv_timers _ _ _ _ _ Hinv)). }
  unfold OnFinishTimer in Hfin.
  destruct (DrawNextOne_spec (KillTimer TIMER_FINISH s)) as (w & walk & Hdraw & _).
  { apply (inv_entries _ _ _ _ _ Hinv). }
  rewrite Hfin in Hdraw. injection Hdraw as ->.
  split; [|done]. split; [done|]. by apply (headroom_frame s).
Qed.

(** From the selection of a winner on, the batch runs to its end. *)
Lemma batch_runs (log : list Draw) (s : State) :
  good roster0 total0 Scanning log s →
  ∃ k log' s', run k s = Ok (log', s')
             ∧ batch_inv roster0 total0 Finished (log ++ log') s'
             ∧ Z.of_nat (length log') = remaining s.
Proof.
  remember (Z.to_nat (remaining s)) as m eqn:Hm. revert log s Hm.
  induction m as [m IH] using lt_wf_ind. intros log s Hm Hgood.
  destruct (scanning_runs log s Hgood) as (k1 & s1 & Hrun1 & Hgood1 & Hrem1).
  destruct (blinking_runs log s1 Hgood1) as (k2 & s2 & Hrun2 & Hgood2 & Hrem2).
  destruct (settling_runs log s2 Hgood2) as (s3 & Hrun3 & Hgood3 & Hrem3).
  pose proof (run_app _ _ _ _ _ _ _ (run_app _ _ _ _ _ _ _ Hrun1 Hrun2) Hrun3) as Hrun.
  cbn [app] in Hrun.
  pose proof (inv_total _ _ _ _ _ (proj1 Hgood)) as Htot. cbn in Htot.
  assert (1 ≤ remaining s) as Hpos by (unfold remaining; lia).
  case_decide as Hmore.
  - destruct (pausing_runs _ s3 Hgood3) as (s4 & Hrun4 & Hgood4 & Hrem4).
    destruct (IH (Z.to_nat (remaining s4))) with (log := log ++ [(g_animWinnerIdx s2, g_entries s2)]) (s := s4)
      as (k5 & log5 & s5 & Hrun5 & Hinv5 & Hlen5); [lia|done|done|].
    exists (k1 + k2 + 1 + 1 + k5)%nat, ((g_animWinnerIdx s2, g_entries s2) :: log5), s5.
    split; [|split].
    + pose proof (run_app _ _ _ _ _ _ _ (run_app _ _ _ _ _ _ _ Hrun Hrun4) Hrun5) as Hall.
      by rewrite app_nil_r in Hall.
    + by rewrite <- app_assoc in Hinv5.
    + simpl length. lia.
  - exists (k1 + k2 + 1)%nat, [(g_animWinnerIdx s2, g_entries s2)], s3.
    split; [done|]. split; [apply Hgood3|]. simpl. lia.
Qed.

End Progress.

(** * Batches from the click on the draw button *)

Lemma replays_frame (roster0 roster : list NameEntry) (log : list Draw) :
  replays roster0 log roster →
  length roster = length roster0 ∧ ∀ i, name_at roster i = name_at roster0 i.
Proof.
  revert roster0. induction log as [|[w r] log IH]; intros roster0; simpl.
  - by intros ->.
  - intros (-> & mid & Hmid & Hrest). destruct (IH _ Hrest) as [Hlen Hnm].
    pose proof Hmid as (e & _ & _ & _ & Hlen' & _)%increment_counter_inv.
    split; [by rewrite Hlen, NormalizeCounters_length|].
    intros i. by rewrite Hnm, name_at_NormalizeCounters, (name_at_increment _ _ _ _ Hmid).
Qed.

Section Batches.
Context `{Win32}.

Lemma tick_fault (roster0 : list NameEntry) (total0 : Z) (p : phase) (log : list Draw)
    (s : State) (why : fault) :
  batch_inv roster0 total0 p log s → tick s = Undefined why → why = SignedOverflow.
Proof.
  intros Hinv. unfold tick. rewrite (next_timer_armed _ _ (inv_timers _ _ _ _ _ Hinv)).
  destruct p; cbn; try done.
  - destruct (step_settle roster0 total0 log s Hinv) as (e & Hat & Hover & Hok).
    destruct (decide (counter e < INT_MAX)) as [Hc|Hc].
    + destruct (Hok Hc) as (s1 & Hs1 & _). by rewrite Hs1.
    + rewrite Hover by lia. by intros [= <-].
  - destruct (step_pause roster0 total0 log s Hinv) as (s1 & Hs1 & _). by rewrite Hs1.
Qed.

Lemma run_fault (roster0 : list NameEntry) (total0 : Z) (k : nat) (p : phase) (log : list Draw)
    (s : State) (why : fault) :
  batch_inv roster0 total0 p log s → run k s = Undefined why → why = SignedOverflow.
Proof.
  revert p log s. induction k as [|k IH]; intros p log s Hinv; [done|].
  rewrite run_S. destruct (tick s) as [s1|why1] eqn:Htick; cbn.
  - destruct (tick_inv roster0 total0 _ _ _ _ Hinv Htick) as [p1 Hinv1].
    destruct (run k s1) as [[log1 s2]|why2] eqn:Hrun; cbn; [done|].
    intros [= <-]. by eapply IH.
  - intros [= <-]. by eapply tick_fault.
Qed.

(** What holds after any number of timer messages that follow a click on
    the draw button in an idle state. *)
Lemma batch_inv_reached (n : Z) (k : nat) (s0 s1 s' : State) (log : list Draw) :
  idle s0 → OnDrawClicked n s0 = Ok s1 → run k s1 = Ok (log, s') →
  (log = [] ∧ g_animRunning s' = false ∧ g_entries s' = g_entries s0
   ∧ (g_entries s0 = [] ∨ n < 1))
  ∨ (∃ p, batch_inv (g_entries s0) (Z.min n (Z.of_nat (length (g_entries s0)))) p log s'
        ∧ g_entries s0 ≠ [] ∧ 1 ≤ n).
Proof.
  intros Hidle Hclick Hrun.
  destruct (OnDrawClicked_cases n s0 Hidle)
    as [(s1' & Hs1 & Ht & He & Hwhy)|(s1' & Hs1 & Hinv & Hne & Hn & He)];
    rewrite Hclick in Hs1; injection Hs1 as <-.
  - left. rewrite run_no_timer in Hrun by done. injection Hrun as <- <-.
    split; [done|]. split; [|done].
    destruct Hidle as [Hrun0 _]. revert Hclick. unfold OnDrawClicked.
    rewrite Hrun0, orb_false_r. case_bool_decide; [by intros [= <-]|].
    case_decide; [by intros [= <-]|]. destruct Hwhy; [done|lia].
  - right. destruct (run_inv _ _ _ _ _ _ _ _ Hinv Hrun) as [p Hp]. by exists p.
Qed.

End Batches.

Section Claims.
Context `{Win32}.

(** While a batch runs the two load buttons only show a message: the roster
    is not replaced. *)
Lemma load_refused_while_running (s : State) (chosen : option wstring) :
  g_animRunning s = true →
  g_entries (OnLoadExcel chosen s) = g_entries s
  ∧ g_entries (OnReloadExcel s) = g_entries s.
Proof. intros Hrun. unfold OnLoadExcel, OnReloadExcel. by rewrite Hrun. Qed.




(** C4.  Take a click on the draw button in an idle state and any number of
    timer messages after it, and the draws committed by then in their order,
    each with the roster it was selected from.  There are at most as many as
    asked for and as the roster has entries; the rosters follow from the one
    of the click by the commits; every winner was eligible in its roster;
    and a winner that had already won earlier in the batch was selected only
    when every index eligible in its roster had already won earlier in the
    batch.  The same holds of the winner that is selected and not yet
    committed. *)
Theorem batch_repeats_only_after_all_eligible (n : Z) (k : nat) (s0 s1 s' : State)
    (log : list Draw) :
  idle s0 → OnDrawClicked n s0 = Ok s1 → run k s1 = Ok (log, s') →
  replays (g_entries s0) log (g_entries s')
  ∧ Z.of_nat (length log) ≤ Z.max 0 (Z.min n (Z.of_nat (length (g_entries s0))))
  ∧ (∀ before w roster after,
       log = before ++ (w, roster) :: after →
       w ∈ EligibleIndices roster
       ∧ (w ∈ winners before → ∀ i, i ∈ EligibleIndices roster → i ∈ winners before))
  ∧ (g_animRunning s' = true → timers s' TIMER_FINISH = false →
     g_animWinnerIdx s' ∈ EligibleIndices (g_entries s')
     ∧ (g_animWinnerIdx s' ∈ winners log →
        ∀ i, i ∈ EligibleIndices (g_entries s') → i ∈ winners log)).
Proof.
  intros Hidle Hclick Hrun.
  destruct (batch_inv_reached n k s0 s1 s' log Hidle Hclick Hrun)
    as [(-> & Hstop & He & _)|(p & Hinv & _ & _)].
  - split; [done|]. split; [simpl; lia|]. split; [apply fair_log_nil|].
    by rewrite Hstop.
  - split; [apply (inv_replay _ _ _ _ _ Hinv)|]. split; [|split].
    + pose proof (inv_total _ _ _ _ _ Hinv) as Ht.
      rewrite (inv_count _ _ _ _ _ Hinv), (inv_total0 _ _ _ _ _ Hinv) in Ht.
      destruct (finished p); lia.
    + apply (inv_fair _ _ _ _ _ Hinv).
    + intros Hrunning Hpause. apply (inv_pending _ _ _ _ _ Hinv).
      rewrite (inv_running _ _ _ _ _ Hinv) in Hrunning.
      rewrite (inv_timers _ _ _ _ _ Hinv) in Hpause. by destruct p.
Qed.

(** C10.  After a click on the draw button in an idle state and any number
    of timer messages, the roster has the length it had; while the batch
    runs, every index on the path, the winner, every winner committed and
    every index in the set of the selected are indices of the roster; and
    neither the messages so far nor the next one index a vector out of its
    range or run a loop without end: the one undefined step there can be is
    the overflow of a counter that holds the largest [int]. *)
Theorem batch_indices_in_range (n : Z) (k : nat) (s0 s1 : State) :
  idle s0 → OnDrawClicked n s0 = Ok s1 →
  (∀ why, run k s1 = Undefined why → why = SignedOverflow)
  ∧ ∀ log s', run k s1 = Ok (log, s') →
      length (g_entries s') = length (g_entries s0)
      ∧ (∀ why, tick s' = Undefined why → why = SignedOverflow)
      ∧ (g_animRunning s' = true →
         Forall (in_range s') (g_animPath s')
         ∧ in_range s' (g_animWinnerIdx s')
         ∧ (∀ w, w ∈ winners log → in_range s' w)
         ∧ (∀ i, i ∈ g_roundSelectedIdx s' → in_range s' i)).
Proof.
  intros Hidle Hclick. split.
  - intros why Hrun.
    destruct (OnDrawClicked_cases n s0 Hidle)
      as [(s1' & Hs1 & Ht & _)|(s1' & Hs1 & Hinv & _)];
      rewrite Hclick in Hs1; injection Hs1 as <-.
    + by rewrite run_no_timer in Hrun.
    + by eapply run_fault.
  - intros log s' Hrun.
    destruct (batch_inv_reached n k s0 s1 s' log Hidle Hclick Hrun)
      as [(-> & Hnot & He & _)|(p & Hinv & _ & _)].
    + split; [by rewrite He|]. split; [|by rewrite Hnot].
      destruct (OnDrawClicked_cases n s0 Hidle)
        as [(s1' & Hs1 & Ht & _)|(s1' & Hs1 & Hinv & _)];
        rewrite Hclick in Hs1; injection Hs1 as <-.
      * rewrite run_no_timer in Hrun by done. injection Hrun as <-.
        intros why. unfold tick, next_timer. by rewrite !Ht.
      * intros why Htick. destruct (run_inv _ _ _ _ _ _ _ _ Hinv Hrun) as [p Hp].
        by eapply tick_fault.
    + split; [apply (replays_frame _ _ _ (inv_replay _ _ _ _ _ Hinv))|].
      split; [intros why Htick; by eapply tick_fault|].
      intros Hrunning. rewrite (inv_running _ _ _ _ _ Hinv) in Hrunning.
      destruct (finished p) eqn:Hp; [done|].
      split; [apply (inv_path _ _ _ _ _ Hinv)|].
      split; [by apply (inv_winner _ _ _ _ _ Hinv)|].
      split; [apply (inv_range _ _ _ _ _ Hinv)|].
      intros i. rewrite (inv_selected _ _ _ _ _ Hinv), Hp.
      pose proof (inv_winner _ _ _ _ _ Hinv Hp) as Hwin.
      pose proof (inv_range _ _ _ _ _ Hinv) as Hr.
      destruct (revealed p).
      * intros [->%elem_of_singleton|Hi%elem_of_picked]%elem_of_union; auto.
      * intros Hi%elem_of_picked. auto.
Qed.

End Claims.

Section Summary.
Context `{Win32}.

(** C9, as the program has it.  A batch started by a click on the draw
    button in an idle state, with a roster that is not empty and a number of
    at least 1, commits as many draws as the number asked for, at most the
    size of the roster; when it is over the status bar shows, after the
    heading, the names of the indices that won, each index once and in
    ascending order of the index, joined by a comma and a blank.  The batch
    does get there when no counter can pass the largest [int] on the way.  *)
Theorem summary_lists_winners_by_index (n : Z) (s0 : State) :
  idle s0 → g_entries s0 ≠ [] → 1 ≤ n →
  ∃ s1, OnDrawClicked n s0 = Ok s1
    ∧ (∀ k log s', run k s1 = Ok (log, s') → g_animRunning s' = false →
         statusText s'
         = summary_heading
           ++ join_names (map (name_at (g_entries s0))
                              (set_iter (list_to_set (winners log))))
         ∧ Z.of_nat (length log) = Z.min n (Z.of_nat (length (g_entries s0)))
         ∧ StronglySorted Z.lt (set_iter (list_to_set (winners log)))
         ∧ ∀ i, i ∈ set_iter (list_to_set (winners log)) ↔ i ∈ winners log)
    ∧ ((∀ e, e ∈ g_entries s0 →
             counter e + Z.min n (Z.of_nat (length (g_entries s0))) ≤ INT_MAX) →
       ∃ k log s', run k s1 = Ok (log, s') ∧ g_animRunning s' = false).
Proof.
  intros Hidle Hne Hn.
  destruct (OnDrawClicked_cases n s0 Hidle)
    as [(s1 & Hs1 & _ & _ & [?|?])|(s1 & Hs1 & Hinv & _ & _ & He)]; [done|lia|].
  exists s1. split; [done|]. split.
  - intros k log s' Hrun Hstop.
    destruct (run_inv _ _ _ _ _ _ _ _ Hinv Hrun) as [p Hp]. simpl in Hp.
    rewrite (inv_running _ _ _ _ _ Hp) in Hstop.
    destruct (finished p) eqn:Hfin; [|done].
    split; [|split; [|split]].
    + rewrite (inv_status _ _ _ _ _ Hp Hfin). unfold summary_of, picked. do 2 f_equal.
      apply map_ext. intros i. apply (replays_frame _ _ _ (inv_replay _ _ _ _ _ Hp)).
    + pose proof (inv_total _ _ _ _ _ Hp) as Ht. rewrite Hfin in Ht.
      by rewrite <- (inv_count _ _ _ _ _ Hp), Ht, (inv_total0 _ _ _ _ _ Hp).
    + apply set_iter_ascending.
    + intros i. by rewrite set_iter_elem, elem_of_list_to_set.
  - intros Hroom.
    destruct (batch_runs (g_entries s0) (Z.min n (Z.of_nat (length (g_entries s0)))) [] s1)
      as (k & log & s' & Hrun & Hfin & _).
    { split; [done|]. intros e He'. unfold remaining.
      rewrite (inv_total0 _ _ _ _ _ Hinv), (inv_count _ _ _ _ _ Hinv). simpl.
      rewrite Z.sub_0_r. apply Hroom. by rewrite <- He. }
    exists k, log, s'. split; [done|]. by rewrite (inv_running _ _ _ _ _ Hfin).
Qed.

End Summary.

(** C9 fails as stated: Bob is drawn before Alice and the summary names
    Alice before Bob. *)
Lemma summary_not_in_draw_order :
  let s0 := startup two_names second_first no_files in
  ∃ s1 log s',
    OnDrawClicked 2 s0 = Ok s1
    ∧ @run ascii_platform 60 s1 = Ok (log, s')
    ∧ g_animRunning s' = false
    ∧ map (name_at two_names) (winners log) = [L "Bob"; L "Alice"]
    ∧ statusText s' = summary_heading ++ L "Alice, Bob"
    ∧ statusText s' ≠ summary_heading ++ join_names (map (name_at two_names) (winners log)).
Proof.
  eexists _, _, _. split; [vm_compute; reflexivity|].
  split; [vm_compute; reflexivity|].
  split; [reflexivity|]. split; [reflexivity|]. split; [reflexivity|].
  vm_compute. discriminate.
Qed.

Lemma summary_lists_winners_by_index_witness :
  let s0 := startup two_names second_first no_files in
  idle s0 ∧ g_entries s0 ≠ [] ∧ 1 ≤ 2
  ∧ ∃ s1, OnDrawClicked 2 s0 = Ok s1
    ∧ (∀ k log s', @run ascii_platform k s1 = Ok (log, s') → g_animRunning s' = false →
         statusText s'
         = summary_heading
           ++ join_names (map (name_at (g_entries s0))
                              (set_iter (list_to_set (winners log))))
         ∧ Z.of_nat (length log) = Z.min 2 (Z.of_nat (length (g_entries s0)))
         ∧ StronglySorted Z.lt (set_iter (list_to_set (winners log)))
         ∧ ∀ i, i ∈ set_iter (list_to_set (winners log)) ↔ i ∈ winners log)
    ∧ ((∀ e, e ∈ g_entries s0 →
             counter e + Z.min 2 (Z.of_nat (length (g_entries s0))) ≤ INT_MAX) →
       ∃ k log s', @run ascii_platform k s1 = Ok (log, s') ∧ g_animRunning s' = false).
Proof.
  intros s0.
  assert (idle s0) as Hidle by (split; [reflexivity|intros t; reflexivity]).
  assert (g_entries s0 ≠ []) as Hne by discriminate.
  split; [exact Hidle|]. split; [exact Hne|]. split; [lia|].
  apply (@summary_lists_winners_by_index ascii_platform 2 s0 Hidle Hne). lia.
Defined.

Lemma two_start_idle : idle two_start.
Proof. split; [reflexivity|]. intros t. reflexivity. Qed.

Lemma two_clicked_eq : OnDrawClicked 2 two_start = Ok two_clicked.
Proof. vm_compute. reflexivity. Qed.

Lemma two_done_eq : @run ascii_platform 60 two_clicked = Ok (two_done.1, two_done.2).
Proof. vm_compute. reflexivity. Qed.




Lemma batch_repeats_only_after_all_eligible_witness :
  idle two_start
  ∧ OnDrawClicked 2 two_start = Ok two_clicked
  ∧ @run ascii_platform 60 two_clicked = Ok (two_done.1, two_done.2)
  ∧ winners two_done.1 = [1; 0]
  ∧ replays (g_entries two_start) two_done.1 (g_entries two_done.2)
  ∧ Z.of_nat (length two_done.1)
    ≤ Z.max 0 (Z.min 2 (Z.of_nat (length (g_entries two_start))))
  ∧ (∀ before w roster after,
       two_done.1 = before ++ (w, roster) :: after →
       w ∈ EligibleIndices roster
       ∧ (w ∈ winners before → ∀ i, i ∈ EligibleIndices roster → i ∈ winners before))
  ∧ (g_animRunning two_done.2 = true → timers two_done.2 TIMER_FINISH = false →
     g_animWinnerIdx two_done.2 ∈ EligibleIndices (g_entries two_done.2)
     ∧ (g_animWinnerIdx two_done.2 ∈ winners two_done.1 →
        ∀ i, i ∈ EligibleIndices (g_entries two_done.2) → i ∈ winners two_done.1)).
Proof.
  split; [exact two_start_idle|]. split; [exact two_clicked_eq|].
  split; [exact two_done_eq|]. split; [reflexivity|].
  exact (@batch_repeats_only_after_all_eligible ascii_platform 2 60 two_start two_clicked
           two_done.2 two_done.1 two_start_idle two_clicked_eq two_done_eq).
Defined.

Lemma batch_indices_in_range_witness :
  idle two_start
  ∧ OnDrawClicked 2 two_start = Ok two_clicked
  ∧ (∀ why, @run ascii_platform 7 two_clicked = Undefined why → why = SignedOverflow)
  ∧ ∀ log s', @run ascii_platform 7 two_clicked = Ok (log, s') →
      length (g_entries s') = length (g_entries two_start)
      ∧ (∀ why, @tick ascii_platform s' = Undefined why → why = SignedOverflow)
      ∧ (g_animRunning s' = true →
         Forall (in_range s') (g_animPath s')
         ∧ in_range s' (g_animWinnerIdx s')
         ∧ (∀ w, w ∈ winners log → in_range s' w)
         ∧ (∀ i, i ∈ g_roundSelectedIdx s' → in_range s' i)).
Proof.
  split; [exact two_start_idle|]. split; [exact two_clicked_eq|].
  exact (@batch_indices_in_range ascii_platform 2 7 two_start two_clicked
           two_start_idle two_clicked_eq).
Defined.

(** * Fairness over a batch *)

Lemma scan_min_shift (d c : Z) (l : list NameEntry) :
  scan_min (c - d) (map (λ e, mkEntry (name e) (counter e - d)) l) = scan_min c l - d.
Proof.
  unfold scan_min. revert c. induction l as [|e l IH]; intros c; simpl; [done|].
  rewrite <- IH. f_equal. lia.
Qed.

Lemma collect_eq_shift (d m k : Z) (l : list NameEntry) :
  collect_eq (m - d) k (map (λ e, mkEntry (name e) (counter e - d)) l) = collect_eq m k l.
Proof.
  revert k. induction l as [|e l IH]; intros k; simpl; [done|].
  rewrite IH. repeat case_decide; try done; lia.
Qed.

(** X1.  [NormalizeCounters] does not change which indices are eligible:
    [EligibleIndices] returns the same list before and after it. *)
Theorem EligibleIndices_NormalizeCounters (entries : list NameEntry) :
  EligibleIndices (NormalizeCounters entries) = EligibleIndices entries.
Proof.
  destruct entries as [|e0 rest]; [done|]. unfold NormalizeCounters.
  case_decide as Hpos; [|done].
  set (d := scan_min (counter e0) (e0 :: rest)).
  change (EligibleIndices (map _ (e0 :: rest)))
    with (collect_eq (scan_min (counter e0 - d)
                               (map (λ e, mkEntry (name e) (counter e - d)) (e0 :: rest)))
                     0 (map (λ e, mkEntry (name e) (counter e - d)) (e0 :: rest))).
  by rewrite scan_min_shift, collect_eq_shift.
Qed.

(** X2.  A second [NormalizeCounters] changes nothing. *)
Theorem NormalizeCounters_idempotent (entries : list NameEntry) :
  NormalizeCounters (NormalizeCounters entries) = NormalizeCounters entries.
Proof.
  destruct (decide (entries = [])) as [->|Hne]; [done|].
  destruct (is_min_counter_exists _ Hne) as [m Hm].
  apply (NormalizeCounters_nonpositive _ (Z.min m 0)); [|lia].
  by apply NormalizeCounters_min.
Qed.

(** The commit of a draw in the terms of its roster: the entry at [i]
    afterwards is the entry before with its counter raised by one at the
    winner and then lowered by the shift of the normalization. *)
Lemma commit_at (roster mid : list NameEntry) (w : Z) :
  increment_counter w roster = Ok mid →
  ∃ shift, 0 ≤ shift ∧ length (NormalizeCounters mid) = length roster ∧
    ∀ i, at_ (NormalizeCounters mid) i =
         (λ e, mkEntry (name e)
                 (counter e + (if decide (i = w) then 1 else 0) - shift))
           <$> at_ roster i.
Proof.
  intros (e & Hat & _ & _ & Hlen & Hmid)%increment_counter_inv.
  assert (mid ≠ []) as Hne.
  { intros ->. apply at_Some in Hat as [_ Hat]. apply lookup_lt_Some in Hat.
    simpl in Hlen. lia. }
  destruct (is_min_counter_exists _ Hne) as [m Hm].
  exists (Z.max m 0). split; [lia|]. split; [by rewrite NormalizeCounters_length|].
  intros i. rewrite (NormalizeCounters_at _ m) by done. rewrite Hmid.
  destruct (at_ roster i) as [[nm c]|]; [|done]. simpl. f_equal. f_equal.
  case_decide; lia.
Qed.

Lemma commit_gap (d w : Z) (roster mid : list NameEntry) :
  1 ≤ d → gap_le d roster → w ∈ EligibleIndices roster →
  increment_counter w roster = Ok mid → gap_le d (NormalizeCounters mid).
Proof.
  intros Hd Hgap Hw Hmid. destruct (commit_at _ _ _ Hmid) as (shift & _ & _ & Hat).
  apply EligibleIndices_min_iff in Hw as (ew & Hew & Hmin).
  intros e1 e2 [i Hi]%at_elem_of [j Hj]%at_elem_of. rewrite Hat in Hi, Hj.
  destruct (at_ roster i) as [ei|] eqn:Hei; [|done].
  destruct (at_ roster j) as [ej|] eqn:Hej; [|done].
  injection Hi as <-. injection Hj as <-. simpl.
  assert (ei ∈ roster) as Hini by (apply at_elem_of; eauto).
  assert (ej ∈ roster) as Hinj by (apply at_elem_of; eauto).
  pose proof (Hgap _ _ Hini Hinj). pose proof (Hmin _ _ Hej).
  repeat case_decide; subst; simplify_eq; lia.
Qed.

Lemma fair_log_eligible (log : list Draw) (w : Z) (r : list NameEntry) :
  fair_log log → (w, r) ∈ log → w ∈ EligibleIndices r.
Proof.
  intros Hfair (before & after & ->)%list_elem_of_split. by apply (Hfair before w r after).
Qed.

Lemma replays_gap (d : Z) (roster0 final : list NameEntry) (log : list Draw) :
  1 ≤ d → (∀ w r, (w, r) ∈ log → w ∈ EligibleIndices r) →
  replays roster0 log final → gap_le d roster0 → gap_le d final.
Proof.
  intros Hd. revert roster0. induction log as [|[w r] log IH]; intros roster0 Hel; simpl.
  - by intros ->.
  - intros (-> & mid & Hmid & Hrest) Hgap. apply (IH (NormalizeCounters mid)); [|done|].
    + intros w' r' Hin. apply Hel. by right.
    + apply (commit_gap d w roster0); [done|done| |done]. apply Hel. left.
Qed.

Lemma wins_cons (i w : Z) (r : list NameEntry) (log : list Draw) :
  wins i ((w, r) :: log) = (if decide (i = w) then 1 else 0) + wins i log.
Proof.
  unfold wins, winners. cbn [map fst]. rewrite filter_cons.
  repeat case_decide; subst; try done; simpl length; lia.
Qed.

Lemma replays_account (roster0 final : list NameEntry) (log : list Draw) :
  replays roster0 log final →
  ∃ shift, 0 ≤ shift ∧ length final = length roster0 ∧
    ∀ i, at_ final i =
         (λ e, mkEntry (name e) (counter e + wins i log - shift)) <$> at_ roster0 i.
Proof.
  revert roster0. induction log as [|[w r] log IH]; intros roster0; simpl.
  - intros ->. exists 0. split; [done|]. split; [done|]. intros i.
    destruct (at_ roster0 i) as [[nm c]|]; [|done]. simpl. f_equal. f_equal.
    unfold wins. simpl. lia.
  - intros (-> & mid & Hmid & Hrest).
    destruct (IH _ Hrest) as (shift' & Hs' & Hlen' & Hat').
    destruct (commit_at _ _ _ Hmid) as (shift & Hs & Hlen & Hat).
    exists (shift + shift'). split; [lia|]. split; [congruence|]. intros i.
    rewrite Hat', Hat, wins_cons. destruct (at_ roster0 i) as [[nm c]|]; [|done].
    simpl. f_equal. f_equal. lia.
Qed.

(** Fewer indices than the roster has leave one out. *)
Lemma index_left_out (m : Z) (l : list Z) :
  Z.of_nat (length l) < m → ∃ j, 0 ≤ j < m ∧ j ∉ l.
Proof.
  intros Hlen. destruct (decide (Forall (λ j, j ∈ l) (seqZ 0 m))) as [Hall|Hnot].
  - exfalso. rewrite Forall_forall in Hall.
    assert (seqZ 0 m ⊆+ l) as Hsub by (apply NoDup_submseteq; [apply NoDup_seqZ|done]).
    apply submseteq_length in Hsub. rewrite length_seqZ in Hsub. lia.
  - apply not_Forall_Exists in Hnot; [|apply _].
    apply Exists_exists in Hnot as (j & Hj & Hn). exists j. split; [|done].
    apply elem_of_seqZ in Hj. lia.
Qed.

Lemma replays_distinct (log pre : list Draw) (roster final : list NameEntry) (c : Z) :
  fair_log (pre ++ log) → replays roster log final →
  (length pre + length log ≤ length roster)%nat →
  NoDup (winners pre) →
  (∀ w, w ∈ winners pre → 0 ≤ w < Z.of_nat (length roster)) →
  (∀ i e, at_ roster i = Some e →
          counter e = if decide (i ∈ winners pre) then c + 1 else c) →
  NoDup (winners (pre ++ log)).
Proof.
  revert pre roster c. induction log as [|[w r] log IH]; intros pre roster c.
  { intros _ _ _ Hnd _ _. by rewrite app_nil_r. }
  intros Hfair (-> & mid & Hmid & Hrest) Hlen Hnd Hrange Hlevel.
  destruct (Hfair pre w roster log eq_refl) as [Hw Hrep].
  pose proof (EligibleIndices_range _ _ Hw) as Hwr.
  destruct (index_left_out (Z.of_nat (length roster)) (winners pre)) as (j & Hj & Hjn).
  { unfold winners. rewrite length_map. unfold Draw in *. simpl in Hlen. lia. }
  assert (w ∉ winners pre) as Hfresh.
  { intros Hin. apply Hjn, (Hrep Hin). apply EligibleIndices_min_iff.
    apply at_range in Hj as [ej Hej]. exists ej. split; [done|].
    intros i e' He'. rewrite (Hlevel _ _ Hej), (Hlevel _ _ He').
    rewrite decide_False by done. case_decide; lia. }
  destruct (commit_at _ _ _ Hmid) as (shift & _ & Hlen' & Hat).
  unfold Draw in *.
  rewrite (cons_middle (w, roster) pre log), (assoc_L (++)) in Hfair |- *.
  assert (winners (pre ++ [(w, roster)]) = winners pre ++ [w]) as Hwin
      by apply winners_app.
  apply (IH _ (NormalizeCounters mid) (c - shift)); [done|done| | | |].
  - rewrite Hlen', length_app. unfold Draw in *. cbn [length] in *. lia.
  - rewrite Hwin. apply NoDup_app. split; [done|]. split; [|apply NoDup_singleton].
    intros x Hx ->%list_elem_of_singleton. done.
  - intros x. rewrite Hwin, elem_of_app, Hlen'.
    intros [Hx| ->%list_elem_of_singleton]; [by apply Hrange|done].
  - intros i e. rewrite Hat, Hwin. destruct (at_ roster i) as [ei|] eqn:Hei; [|done].
    intros [= <-]. simpl. rewrite (Hlevel _ _ Hei).
    destruct (decide (i = w)) as [->|Hne].
    + rewrite decide_False by done. rewrite decide_True; [lia|].
      apply elem_of_app. right. by apply list_elem_of_singleton.
    + destruct (decide (i ∈ winners pre)) as [Hin|Hnin].
      * rewrite decide_True; [lia|]. apply elem_of_app. by left.
      * rewrite decide_False; [lia|]. rewrite elem_of_app.
        intros [?| ?%list_elem_of_singleton]; done.
Qed.

Lemma commit_nonneg (roster mid : list NameEntry) (w : Z) :
  (∀ e, e ∈ roster → 0 ≤ counter e) → increment_counter w roster = Ok mid →
  is_min_counter (NormalizeCounters mid) 0.
Proof.
  intros Hpos Hmid.
  pose proof Hmid as (e & Hat & _ & _ & Hlen & Hmid')%increment_counter_inv.
  assert (mid ≠ []) as Hne.
  { intros ->. apply at_Some in Hat as [_ Hat]. apply lookup_lt_Some in Hat.
    simpl in Hlen. lia. }
  destruct (is_min_counter_exists _ Hne) as [m Hm].
  assert (0 ≤ m) as Hm0.
  { destruct Hm as [(em & [i Hi]%at_elem_of & <-) _]. rewrite Hmid' in Hi.
    destruct (at_ roster i) as [ei|] eqn:Hei; [|done]. injection Hi as <-. simpl.
    assert (ei ∈ roster) as Hin by (apply at_elem_of; eauto).
    specialize (Hpos _ Hin). case_decide; lia. }
  pose proof (NormalizeCounters_min _ _ Hm) as Hmin. by rewrite Z.min_r in Hmin by lia.
Qed.

Lemma replays_nonneg (roster0 final : list NameEntry) (log : list Draw) :
  (∀ e, e ∈ roster0 → 0 ≤ counter e) → replays roster0 log final →
  (∀ e, e ∈ final → 0 ≤ counter e) ∧ (log ≠ [] → is_min_counter final 0).
Proof.
  revert roster0. induction log as [|[w r] log IH]; intros roster0 Hpos; simpl.
  - by intros ->.
  - intros (-> & mid & Hmid & Hrest).
    pose proof (commit_nonneg _ _ _ Hpos Hmid) as Hmin.
    destruct (IH _ (proj2 Hmin) Hrest) as [Hpos' Hmin']. split; [done|]. intros _.
    destruct log as [|d log]; [|by apply Hmin'].
    simpl in Hrest. by rewrite Hrest.
Qed.

Section FairBatches.
Context `{Win32}.

(** X6.  When no counter of the roster is negative at the click on the
    draw button, none is negative after any number of timer messages, and
    once a draw is committed the smallest counter is 0. *)
Theorem committed_draw_leaves_least_counter_zero (n : Z) (k : nat) (s0 s1 s' : State)
    (log : list Draw) :
  idle s0 → OnDrawClicked n s0 = Ok s1 → run k s1 = Ok (log, s') →
  (∀ e, e ∈ g_entries s0 → 0 ≤ counter e) →
  (∀ e, e ∈ g_entries s' → 0 ≤ counter e)
  ∧ (log ≠ [] → is_min_counter (g_entries s') 0).
Proof.
  intros Hidle Hclick Hrun Hpos. apply (replays_nonneg (g_entries s0)); [done|].
  destruct (batch_inv_reached n k s0 s1 s' log Hidle Hclick Hrun)
    as [(-> & _ & -> & _)|(p & Hinv & _ & _)]; [done|].
  apply (inv_replay _ _ _ _ _ Hinv).
Qed.

(** X3.  The draws of a batch do not drive the counters apart: when the
    counters of the roster lie within [d] of each other at the click on the
    draw button, for some [d] of at least 1, they do so after any number of
    timer messages. *)
Theorem batch_keeps_counters_close (n d : Z) (k : nat) (s0 s1 s' : State)
    (log : list Draw) :
  idle s0 → OnDrawClicked n s0 = Ok s1 → run k s1 = Ok (log, s') →
  1 ≤ d → gap_le d (g_entries s0) → gap_le d (g_entries s').
Proof.
  intros Hidle Hclick Hrun Hd Hgap.
  destruct (batch_inv_reached n k s0 s1 s' log Hidle Hclick Hrun)
    as [(_ & _ & -> & _)|(p & Hinv & _ & _)]; [done|].
  apply (replays_gap d (g_entries s0) _ log); [done| |apply (inv_replay _ _ _ _ _ Hinv)|done].
  intros w r. apply fair_log_eligible, (inv_fair _ _ _ _ _ Hinv).
Qed.

(** X4.  After a click on the draw button in an idle state and any number
    of timer messages the roster has its length and its names, and every
    counter has risen by the number of draws that its entry has won so far
    in the batch, less one shift that is the same for all entries and not
    negative (what the normalizations took off). *)
Theorem batch_counts_wins (n : Z) (k : nat) (s0 s1 s' : State) (log : list Draw) :
  idle s0 → OnDrawClicked n s0 = Ok s1 → run k s1 = Ok (log, s') →
  ∃ shift, 0 ≤ shift ∧ length (g_entries s') = length (g_entries s0) ∧
    ∀ i, at_ (g_entries s') i =
         (λ e, mkEntry (name e) (counter e + wins i log - shift))
           <$> at_ (g_entries s0) i.
Proof.
  intros Hidle Hclick Hrun. apply replays_account.
  destruct (batch_inv_reached n k s0 s1 s' log Hidle Hclick Hrun)
    as [(-> & _ & -> & _)|(p & Hinv & _ & _)]; [done|].
  apply (inv_replay _ _ _ _ _ Hinv).
Qed.

(** X5.  When all counters of the roster are equal at the click on the
    draw button, no entry wins twice in the batch. *)
Theorem level_roster_draws_nobody_twice (n : Z) (k : nat) (s0 s1 s' : State)
    (log : list Draw) :
  idle s0 → OnDrawClicked n s0 = Ok s1 → run k s1 = Ok (log, s') →
  gap_le 0 (g_entries s0) → NoDup (winners log).
Proof.
  intros Hidle Hclick Hrun Hlevel.
  destruct (batch_inv_reached n k s0 s1 s' log Hidle Hclick Hrun)
    as [(-> & _)|(p & Hinv & Hne & _)]; [constructor|].
  destruct (g_entries s0) as [|e0 rest] eqn:Hroster; [done|].
  apply (replays_distinct log [] (e0 :: rest) (g_entries s') (counter e0)).
  - apply (inv_fair _ _ _ _ _ Hinv).
  - apply (inv_replay _ _ _ _ _ Hinv).
  - pose proof (inv_total _ _ _ _ _ Hinv) as Ht.
    rewrite (inv_count _ _ _ _ _ Hinv), (inv_total0 _ _ _ _ _ Hinv) in Ht.
    simpl length in *. destruct (finished p); lia.
  - constructor.
  - intros w Hw. by apply elem_of_nil in Hw.
  - intros i e He. rewrite decide_False by apply not_elem_of_nil.
    assert (e ∈ e0 :: rest) as Hin by (apply at_elem_of; eauto).
    assert (e0 ∈ e0 :: rest) as Hin0 by left.
    pose proof (Hlevel _ _ Hin Hin0). pose proof (Hlevel _ _ Hin0 Hin). lia.
Qed.

End FairBatches.

Lemma two_names_level : gap_le 0 (g_entries two_start).
Proof.
  intros e e' He He'. change (g_entries two_start) with two_names in *.
  unfold two_names in *. rewrite !elem_of_cons in He, He'.
  destruct He as [->|[->|He]]; [| |by apply elem_of_nil in He];
    (destruct He' as [->|[->|He']]; [| |by apply elem_of_nil in He']); simpl; lia.
Qed.

Lemma batch_keeps_counters_close_witness :
  idle two_start
  ∧ OnDrawClicked 2 two_start = Ok two_clicked
  ∧ @run ascii_platform 60 two_clicked = Ok (two_done.1, two_done.2)
  ∧ 1 ≤ 1
  ∧ gap_le 1 (g_entries two_start)
  ∧ gap_le 1 (g_entries two_done.2).
Proof.
  assert (gap_le 1 (g_entries two_start)) as Hgap.
  { intros e e' He He'. pose proof (two_names_level e e' He He'). lia. }
  split; [exact two_start_idle|]. split; [exact two_clicked_eq|].
  split; [exact two_done_eq|]. split; [lia|]. split; [exact Hgap|].
  exact (@batch_keeps_counters_close ascii_platform 2 1 60 two_start two_clicked
           two_done.2 two_done.1 two_start_idle two_clicked_eq two_done_eq
           ltac:(lia) Hgap).
Defined.

Lemma batch_counts_wins_witness :
  idle two_start
  ∧ OnDrawClicked 2 two_start = Ok two_clicked
  ∧ @run ascii_platform 60 two_clicked = Ok (two_done.1, two_done.2)
  ∧ ∃ shift, 0 ≤ shift ∧ length (g_entries two_done.2) = length (g_entries two_start) ∧
      ∀ i, at_ (g_entries two_done.2) i =
           (λ e, mkEntry (name e) (counter e + wins i two_done.1 - shift))
             <$> at_ (g_entries two_start) i.
Proof.
  split; [exact two_start_idle|]. split; [exact two_clicked_eq|].
  split; [exact two_done_eq|].
  exact (@batch_counts_wins ascii_platform 2 60 two_start two_clicked
           two_done.2 two_done.1 two_start_idle two_clicked_eq two_done_eq).
Defined.

Lemma level_roster_draws_nobody_twice_witness :
  idle two_start
  ∧ OnDrawClicked 2 two_start = Ok two_clicked
  ∧ @run ascii_platform 60 two_clicked = Ok (two_done.1, two_done.2)
  ∧ gap_le 0 (g_entries two_start)
  ∧ NoDup (winners two_done.1).
Proof.
  split; [exact two_start_idle|]. split; [exact two_clicked_eq|].
  split; [exact two_done_eq|]. split; [exact two_names_level|].
  exact (@level_roster_draws_nobody_twice ascii_platform 2 60 two_start two_clicked
           two_done.2 two_done.1 two_start_idle two_clicked_eq two_done_eq
           two_names_level).
Defined.

Lemma committed_draw_leaves_least_counter_zero_witness :
  idle two_start
  ∧ OnDrawClicked 2 two_start = Ok two_clicked
  ∧ @run ascii_platform 60 two_clicked = Ok (two_done.1, two_done.2)
  ∧ (∀ e, e ∈ g_entries two_start → 0 ≤ counter e)
  ∧ (∀ e, e ∈ g_entries two_done.2 → 0 ≤ counter e)
  ∧ (two_done.1 ≠ [] → is_min_counter (g_entries two_done.2) 0).
Proof.
  assert (∀ e, e ∈ g_entries two_start → 0 ≤ counter e) as Hpos.
  { apply Forall_forall. apply (bool_decide_unpack _). vm_compute. exact I. }
  split; [exact two_start_idle|]. split; [exact two_clicked_eq|].
  split; [exact two_done_eq|]. split; [exact Hpos|].
  exact (@committed_draw_leaves_least_counter_zero ascii_platform 2 60 two_start
           two_clicked two_done.2 two_done.1 two_start_idle two_clicked_eq two_done_eq
           Hpos).
Defined.

(** * What [Trim] removes *)

Lemma find_first_not_of_before (set : list wchar_t) (s : wstring) (b : nat) :
  find_first_not_of set s = Some b →
  ∀ j x, (j < b)%nat → s !! j = Some x → x ∈ set.
Proof.
  revert b. induction s as [|c s IH]; intros b; simpl; [done|].
  case_bool_decide as Hc.
  - destruct (find_first_not_of set s) as [b'|]; [|done]. simpl. intros [= <-].
    intros [|j] x Hj; simpl; [by intros [= <-]|]. apply (IH b' eq_refl). lia.
  - intros [= <-] j x Hj. lia.
Qed.

Lemma find_first_not_of_None (set : list wchar_t) (s : wstring) :
  find_first_not_of set s = None → ∀ x, x ∈ s → x ∈ set.
Proof.
  induction s as [|c s IH]; simpl; [by intros _ x ?%elem_of_nil|].
  case_bool_decide as Hc; [|done].
  destruct (find_first_not_of set s); [done|].
  intros _ x [->|Hx]%elem_of_cons; [done|]. by apply IH.
Qed.

(** Where [Trim] finds a first character to keep it finds a last one, at
    the same place or after it. *)
Lemma Trim_ends (s : wstring) (b : nat) :
  find_first_not_of trim_front s = Some b →
  ∃ e, find_last_not_of trim_back s = Some e ∧ (b ≤ e < length s)%nat.
Proof.
  intros Hb. destruct (find_first_not_of_Some _ _ _ Hb) as (c & Hc & Hcn).
  destruct (find_last_not_of trim_back s) as [e|] eqn:He.
  - destruct (find_last_not_of_Some _ _ _ He) as (d & Hd & Hdn & Hafter).
    exists e. split; [done|]. split; [|by eapply lookup_lt_Some].
    destruct (decide (b ≤ e)%nat) as [|Hgt]; [done|]. exfalso.
    apply Hcn, trim_back_front. apply (Hafter b c); [lia|done].
  - exfalso. apply Hcn, trim_back_front. eapply find_last_not_of_None; [done|].
    by eapply list_elem_of_lookup_2.
Qed.

(** X9.  The count [e - b + 1] of [Trim] never wraps around: where
    [find_first_not_of] finds a position [b], [find_last_not_of] finds a
    position [e] that is not before [b] and lies in the string, and [Trim]
    returns the [e - b + 1] characters from [b] on. *)
Theorem Trim_count_never_wraps (s : wstring) (b : nat) :
  find_first_not_of trim_front s = Some b →
  ∃ e, find_last_not_of trim_back s = Some e
     ∧ (b ≤ e < length s)%nat
     ∧ Trim s = substr s b (e - b + 1)
     ∧ length (Trim s) = (e - b + 1)%nat.
Proof.
  intros Hb. destruct (Trim_ends s b Hb) as (e & He & Hbe).
  exists e. split; [done|]. split; [done|]. unfold Trim. rewrite Hb, He.
  split; [done|]. unfold substr. rewrite length_take, length_drop. lia.
Qed.

(** X7.  [Trim] cuts its argument at both ends: what it removes in front
    are characters of [L" \t\r\n\xFEFF"], what it removes behind are characters
    of [L" \t\r\n"], and what it returns is empty or begins with a character
    that is not in the first set and ends with one that is not in the
    second. *)
Theorem Trim_cuts_both_ends (s : wstring) :
  ∃ front back,
    s = front ++ Trim s ++ back
    ∧ Forall (λ c, c ∈ trim_front) front
    ∧ Forall (λ c, c ∈ trim_back) back
    ∧ trimmed (Trim s).
Proof.
  destruct (find_first_not_of trim_front s) as [b|] eqn:Hb.
  - destruct (Trim_ends s b Hb) as (e & He & Hbe).
    destruct (find_last_not_of_Some _ _ _ He) as (d & Hd & Hdn & Hafter).
    exists (take b s), (drop (S e) s). split; [|split; [|split]].
    + unfold Trim. rewrite Hb, He. unfold substr.
      rewrite <- (take_drop b s) at 1. f_equal.
      rewrite <- (take_drop (e - b + 1) (drop b s)) at 1. f_equal.
      rewrite drop_drop. f_equal. lia.
    + apply Forall_lookup. intros j x Hj.
      apply lookup_take_Some in Hj as [Hj Hlt].
      by apply (find_first_not_of_before _ _ _ Hb j).
    + apply Forall_lookup. intros j x Hj. rewrite lookup_drop in Hj.
      apply (Hafter (S e + j)%nat); [lia|done].
    + apply Trim_spec.
  - exists s, []. unfold Trim. rewrite Hb. split; [by rewrite app_nil_r|].
    split; [|split; [constructor|by left]].
    apply Forall_forall. by apply find_first_not_of_None.
Qed.

(** X8.  [Trim] returns what it returns unchanged, and the strings it
    leaves unchanged are the trimmed ones. *)
Theorem Trim_fixes_what_it_returns (s : wstring) :
  Trim (Trim s) = Trim s ∧ (Trim s = s ↔ trimmed s).
Proof.
  split; [apply Trim_trimmed, Trim_spec|]. split; [|apply Trim_trimmed].
  intros <-. apply Trim_spec.
Qed.

Lemma Trim_count_never_wraps_witness :
  find_first_not_of trim_front (L " Bob ") = Some 1%nat
  ∧ ∃ e, find_last_not_of trim_back (L " Bob ") = Some e
       ∧ (1 ≤ e < length (L " Bob "))%nat
       ∧ Trim (L " Bob ") = substr (L " Bob ") 1 (e - 1 + 1)
       ∧ length (Trim (L " Bob ")) = (e - 1 + 1)%nat.
Proof.
  split; [reflexivity|]. apply (Trim_count_never_wraps (L " Bob ") 1). reflexivity.
Defined.

(** * Reading and writing the file *)

Lemma getlines_nonempty (s : cstring) : s ≠ [] → getlines s ≠ [].
Proof.
  destruct s as [|c s]; [done|]. intros _. cbn [getlines].
  case_decide; [done|]. by destruct (getlines s).
Qed.

Lemma getlines_app_LF (a rest : cstring) :
  getlines (a ++ LF :: rest) = getlines (a ++ [LF]) ++ getlines rest.
Proof.
  induction a as [|c a IH]; cbn [app getlines].
  - by rewrite decide_True.
  - case_decide; [by rewrite IH|]. rewrite IH.
    pose proof (getlines_nonempty (a ++ [LF])) as Hne.
    destruct (getlines (a ++ [LF])); [|done]. exfalso. apply Hne; [|done]. by destruct a.
Qed.

Section Rows.
Context `{Win32}.

Lemma parse_row_nil (delim : ascii) : parse_row delim [] = None.
Proof. done. Qed.

(** X12.  A blank line after any line of the file changes nothing in the
    rows read. *)
Theorem read_rows_skips_blank_lines (a b : cstring) :
  read_rows (a ++ LF :: LF :: b) = read_rows (a ++ LF :: b).
Proof.
  unfold read_rows. rewrite (getlines_app_LF a (LF :: b)), (getlines_app_LF a b).
  pose proof (getlines_nonempty (a ++ [LF])) as Hne.
  destruct (getlines (a ++ [LF])) as [|hdr rows]; [exfalso; apply Hne; [by destruct a|done]|].
  cbn [app hd tl getlines]. rewrite decide_True by done.
  by rewrite !omap_app.
Qed.

(** X11.  A row is read from its first two fields: what follows a second
    delimiter does not matter. *)
Theorem parse_row_ignores_further_columns (delim : ascii)
    (nameField counterField more : cstring) :
  delim ∉ nameField → delim ∉ counterField →
  parse_row delim (nameField ++ delim :: counterField ++ delim :: more)
  = parse_row delim (nameField ++ delim :: counterField).
Proof.
  intros Hn Hc. unfold parse_row.
  destruct (nameField ++ delim :: counterField ++ delim :: more) as [|c0 l0] eqn:Hl0;
    [by destruct nameField|]. rewrite <- Hl0. clear Hl0.
  destruct (nameField ++ delim :: counterField) as [|c1 l1] eqn:Hl1;
    [by destruct nameField|]. rewrite <- Hl1. clear Hl1.
  rewrite !getline_chars_app by done.
  rewrite getline_Some by by destruct counterField.
  rewrite getline_chars_app by done.
  destruct counterField as [|c cs]; [done|].
  rewrite getline_Some by done. by rewrite getline_chars_all.
Qed.

Lemma parse_row_valid (delim : ascii) (l : cstring) (e : NameEntry) :
  parse_row delim l = Some e →
  trimmed (name e)
  ∧ name e ≠ [] ∧ name e ≠ L "nan" ∧ name e ≠ L "None"
  ∧ INT_MIN ≤ counter e ≤ INT_MAX.
Proof.
  unfold parse_row. destruct l as [|c l]; [done|].
  destruct (getline_chars delim (c :: l)) as [nameField rest].
  case_bool_decide as Hname; [done|]. intros [= <-]. cbn [name counter].
  split; [apply Trim_spec|]. split; [tauto|]. split; [tauto|]. split; [tauto|].
  destruct (stoi _) as [v|] eqn:Hv; [by apply stoi_range in Hv|done].
Qed.

(** X10.  A load that succeeds leaves a roster that is not empty, in which
    every name is trimmed, not empty and neither [nan] nor [None], and every
    counter is an [int]. *)
Theorem LoadCSV_true_gives_valid_roster (path : wstring) (fs : FileSystem)
    (prior entries : list NameEntry) :
  LoadCSV path fs prior = (true, entries) →
  entries ≠ []
  ∧ ∀ e, e ∈ entries →
      trimmed (name e)
      ∧ name e ≠ [] ∧ name e ≠ L "nan" ∧ name e ≠ L "None"
      ∧ INT_MIN ≤ counter e ≤ INT_MAX.
Proof.
  assert (∀ stream e, e ∈ read_rows stream →
            trimmed (name e)
            ∧ name e ≠ [] ∧ name e ≠ L "nan" ∧ name e ≠ L "None"
            ∧ INT_MIN ≤ counter e ≤ INT_MAX) as Hrows.
  { intros stream e (l & _ & He)%list_elem_of_omap. by eapply parse_row_valid. }
  unfold LoadCSV. destruct (ifstream_open _ _) as [stream|].
  - intros [= Hne <-]. apply bool_decide_eq_true in Hne. split; [done|]. apply Hrows.
  - destruct (wfopen_rb _ _) as [buf|]; [|done].
    intros [= Hne <-]. apply bool_decide_eq_true in Hne. split; [done|]. apply Hrows.
Qed.

End Rows.

(** * Carriage returns *)

Lemma skip_space_CR (s : cstring) :
  skip_space (s ++ [CR]) = match skip_space s with [] => [] | t => t ++ [CR] end.
Proof.
  induction s as [|c s IH]; [done|]. cbn [app skip_space].
  destruct (isspace c); [done|]. done.
Qed.

Lemma read_digits_CR (acc : Z) (ds : cstring) :
  read_digits acc (ds ++ [CR]) = read_digits acc ds.
Proof.
  revert acc. induction ds as [|c ds IH]; intros acc; [done|]. cbn [app read_digits].
  by destruct (digit_of c).
Qed.

Lemma stoi_digits_CR (negative : bool) (digits : cstring) :
  match digits ++ [CR] with
  | c :: _ =>
      match digit_of c with
      | Some _ =>
          let v := read_digits 0 (digits ++ [CR]) in
          let v := if negative then - v else v in
          if decide (INT_MIN ≤ v ≤ INT_MAX) then Some v else None
      | None => None
      end
  | [] => None
  end
  = match digits with
    | c :: _ =>
        match digit_of c with
        | Some _ =>
            let v := read_digits 0 digits in
            let v := if negative then - v else v in
            if decide (INT_MIN ≤ v ≤ INT_MAX) then Some v else None
        | None => None
        end
    | [] => None
    end.
Proof.
  destruct digits as [|c ds]; [done|]. cbn [app].
  destruct (digit_of c); [|done]. cbn zeta.
  change (c :: ds ++ [CR]) with ((c :: ds) ++ [CR]). by rewrite read_digits_CR.
Qed.

(** [std::stoi] does not see a carriage return after the number. *)
Lemma stoi_CR (s : cstring) : stoi (s ++ [CR]) = stoi s.
Proof.
  unfold stoi. rewrite skip_space_CR. destruct (skip_space s) as [|c t]; [done|].
  cbn [app]. destruct (decide (c = "-"%char)) as [_|_]; [exact (stoi_digits_CR true t)|].
  destruct (decide (c = "+"%char)) as [_|_]; [exact (stoi_digits_CR false t)|].
  exact (stoi_digits_CR false (c :: t)).
Qed.

Lemma find_first_not_of_snoc (set : list wchar_t) (s : wstring) (x : wchar_t) :
  x ∈ set → find_first_not_of set (s ++ [x]) = find_first_not_of set s.
Proof.
  intros Hx. induction s as [|c s IH]; cbn [app find_first_not_of].
  - by rewrite bool_decide_eq_true_2.
  - by rewrite IH.
Qed.

Lemma find_last_not_of_snoc (set : list wchar_t) (s : wstring) (x : wchar_t) :
  x ∈ set → find_last_not_of set (s ++ [x]) = find_last_not_of set s.
Proof.
  intros Hx. induction s as [|c s IH]; cbn [app find_last_not_of].
  - by rewrite bool_decide_eq_true_2.
  - by rewrite IH.
Qed.

(** [Trim] drops a carriage return at the end. *)
Lemma Trim_CR (w : wstring) : Trim (w ++ [13%N]) = Trim w.
Proof.
  assert (13%N ∈ trim_front) as Hf by (apply (bool_decide_unpack _); vm_compute; exact I).
  assert (13%N ∈ trim_back) as Hb by (apply (bool_decide_unpack _); vm_compute; exact I).
  unfold Trim. rewrite find_first_not_of_snoc, find_last_not_of_snoc by done.
  destruct (find_first_not_of trim_front w) as [b|] eqn:Hfirst; [|done].
  destruct (Trim_ends w b Hfirst) as (e & -> & Hbe).
  unfold substr. rewrite drop_app_le by lia. apply take_app_le.
  rewrite length_drop. lia.
Qed.

Lemma count_char_snoc (c x : ascii) (s : cstring) :
  count_char c (s ++ [x]) = count_char c s + if decide (x = c) then 1 else 0.
Proof.
  unfold count_char. rewrite foldl_app. simpl. case_decide; lia.
Qed.

Lemma DetectDelimiter_CR (l : cstring) : DetectDelimiter (l ++ [CR]) = DetectDelimiter l.
Proof.
  unfold DetectDelimiter. rewrite !count_char_snoc.
  assert (CR ≠ ";"%char) as H1 by (intros [=]).
  assert (CR ≠ ","%char) as H2 by (intros [=]).
  rewrite (decide_False _ _ H1), (decide_False _ _ H2). by rewrite !Z.add_0_r.
Qed.

Lemma DetectDelimiter_cases (l : cstring) :
  DetectDelimiter l = ";"%char ∨ DetectDelimiter l = ","%char.
Proof. unfold DetectDelimiter. case_decide; auto. Qed.

Section CarriageReturns.
Context `{Win32}.
Hypothesis Hcr : cr_transparent.

Lemma Utf8ToWide_CR (s : cstring) : Utf8ToWide (s ++ [CR]) = Utf8ToWide s ++ [13%N].
Proof.
  unfold Utf8ToWide at 1. destruct (s ++ [CR]) eqn:Hs; [by destruct s|].
  rewrite <- Hs. apply Hcr.
Qed.

(** A carriage return at the end of a line changes nothing in the row that
    [LoadCSV] reads from it. *)
Lemma parse_row_CR (delim : ascii) (l : cstring) :
  delim ≠ CR → parse_row delim (l ++ [CR]) = parse_row delim l.
Proof.
  intros Hd.
  assert (∀ nameField counterField counterField' : cstring,
            stoi counterField' = stoi counterField →
            (let wname := Trim (Utf8ToWide (nameField ++ [CR])) in
             if bool_decide (wname = [] ∨ wname = L "nan" ∨ wname = L "None") then None
             else Some (mkEntry wname
                          match stoi counterField' with Some v => v | None => 0 end))
            = (let wname := Trim (Utf8ToWide nameField) in
               if bool_decide (wname = [] ∨ wname = L "nan" ∨ wname = L "None") then None
               else Some (mkEntry wname
                            match stoi counterField with Some v => v | None => 0 end)))
    as Hname.
  { intros nameField cf cf' Hcf. cbn zeta. by rewrite Utf8ToWide_CR, Trim_CR, Hcf. }
  destruct (decide (delim ∈ l)) as [Hin|Hnot].
  - apply list_elem_of_split_l in Hin as (nameField & rest & -> & Hn).
    rewrite <- app_assoc. cbn [app]. unfold parse_row.
    destruct (nameField ++ delim :: rest ++ [CR]) as [|c0 l0] eqn:Hl0;
      [by destruct nameField|]. rewrite <- Hl0. clear Hl0.
    destruct (nameField ++ delim :: rest) as [|c1 l1] eqn:Hl1;
      [by destruct nameField|]. rewrite <- Hl1. clear Hl1.
    rewrite !getline_chars_app by done.
    destruct (decide (delim ∈ rest)) as [Hin'|Hnot'].
    + apply list_elem_of_split_l in Hin' as (cf & more & -> & Hc).
      rewrite <- app_assoc. cbn [app].
      rewrite !getline_Some by by destruct cf.
      by rewrite !getline_chars_app.
    + destruct rest as [|c rest].
      * cbn [app getline getline_chars]. by rewrite decide_False by done.
      * rewrite !getline_Some by done.
        rewrite !getline_chars_all; [|done|].
        -- cbn zeta. by rewrite stoi_CR.
        -- rewrite not_elem_of_app. split; [done|]. by intros ?%list_elem_of_singleton.
  - destruct l as [|c l].
    + assert (Utf8ToWide [CR] = [13%N]) as Hone by exact (Utf8ToWide_CR []).
      unfold parse_row. cbn [app getline_chars]. rewrite decide_False by done.
      cbn [getline]. cbn zeta. rewrite Hone.
      change (Trim [13%N]) with (@nil wchar_t). by rewrite bool_decide_eq_true_2 by by left.
    + unfold parse_row. cbn [app].
      change (c :: l ++ [CR]) with ((c :: l) ++ [CR]).
      rewrite !getline_chars_all; [|done|].
      * cbn [getline]. by apply Hname.
      * rewrite not_elem_of_app. split; [done|]. by intros ?%list_elem_of_singleton.
Qed.

End CarriageReturns.

Lemma crlf_to_lf_cons (c d : ascii) (rest : cstring) :
  crlf_to_lf (c :: d :: rest)
  = if decide (c = CR ∧ d = LF) then LF :: crlf_to_lf rest
    else c :: crlf_to_lf (d :: rest).
Proof. done. Qed.

Lemma getlines_crlf_to_lf (s : cstring) :
  Forall2 up_to_CR (getlines (crlf_to_lf s)) (getlines s).
Proof.
  remember (length s) as m eqn:Hm. revert s Hm.
  induction m as [m IH] using lt_wf_ind. intros s Hm.
  destruct s as [|c [|d rest]].
  - constructor.
  - cbn [crlf_to_lf]. apply Forall_Forall2_diag, Forall_forall. intros l _. by left.
  - rewrite crlf_to_lf_cons. case_decide as Hcrlf.
    + destruct Hcrlf as [-> ->].
      change (getlines (CR :: LF :: rest)) with ([CR] :: getlines rest).
      change (getlines (LF :: crlf_to_lf rest)) with ([] :: getlines (crlf_to_lf rest)).
      constructor; [by right|]. apply (IH (length rest)); [simpl in Hm; lia|done].
    + pose proof (IH (length (d :: rest)) ltac:(simpl in *; lia) (d :: rest) eq_refl) as Hrest.
      cbn [getlines] in *. destruct (decide (c = LF)) as [_|_].
      * constructor; [by left|done].
      * destruct Hrest as [|l' l more' more Hl Hmore].
        -- constructor; [by left|constructor].
        -- constructor; [|done]. destruct Hl as [->| ->]; [by left|by right].
Qed.

Section TextMode.
Context `{Win32}.
Hypothesis Hcr : cr_transparent.

Lemma parse_row_up_to_CR (delim : ascii) (l' l : cstring) :
  delim ≠ CR → up_to_CR l' l → parse_row delim l' = parse_row delim l.
Proof. intros Hd [->| ->]; [done|]. by rewrite parse_row_CR. Qed.

(** The rows read from a text are those read from the text with its line
    ends translated. *)
Lemma read_rows_crlf_to_lf (stream : cstring) :
  read_rows (crlf_to_lf stream) = read_rows stream.
Proof.
  unfold read_rows. pose proof (getlines_crlf_to_lf stream) as Hlines.
  destruct Hlines as [|hdr' hdr rows' rows Hhdr Hrows]; [done|]. cbn [hd tl].
  assert (DetectDelimiter hdr' = DetectDelimiter hdr) as ->.
  { destruct Hhdr as [->| ->]; [done|]. by rewrite DetectDelimiter_CR. }
  assert (DetectDelimiter hdr ≠ CR) as Hd.
  { destruct (DetectDelimiter_cases hdr) as [-> | ->]; by intros [=]. }
  induction Hrows as [|l' l more' more Hl _ IH]; [done|]. cbn [omap list_omap].
  fold (omap (parse_row (DetectDelimiter hdr)) more').
  fold (omap (parse_row (DetectDelimiter hdr)) more).
  by rewrite (parse_row_up_to_CR _ l' l), IH.
Qed.

(** X13.  The two ways in which [LoadCSV] reads a file that can be opened
    give the same result: the stream in text mode, taken when the narrow
    path names the file, which drops the carriage return before a line
    feed, and the buffer read in binary mode, taken otherwise, which keeps
    it.  On a platform whose decoder decodes a carriage return at the end
    of a text by itself, the roster is in both cases that of the bytes of
    the file, and the load succeeds exactly when that roster is not
    empty. *)
Theorem LoadCSV_same_in_text_and_binary_mode (path : wstring) (fs : FileSystem)
    (prior : list NameEntry) (bytes : cstring) :
  files fs !! path = Some bytes → refuses fs FOPEN_READ path = false →
  text_mode bytes = crlf_to_lf bytes →
  narrow_path fs (WideToUtf8 path) = Some path
  ∨ narrow_path fs (WideToUtf8 path) = None →
  LoadCSV path fs prior = (bool_decide (read_rows bytes ≠ []), read_rows bytes).
Proof.
  intros Hfile Hopen Htext Hnarrow. unfold LoadCSV, ifstream_open, wfopen_rb.
  destruct Hnarrow as [-> | ->].
  - rewrite Hopen, Hfile. cbn [fmap option_fmap option_map].
    by rewrite Htext, read_rows_crlf_to_lf.
  - by rewrite Hopen, Hfile.
Qed.

End TextMode.

Lemma ascii_platform_cr_transparent : @cr_transparent ascii_platform.
Proof. intros s. cbn. rewrite map_app. by destruct s. Qed.

Lemma crlf_platform_cr_transparent : @cr_transparent crlf_platform.
Proof. intros s. cbn. rewrite map_app. by destruct s. Qed.

Lemma LoadCSV_same_in_text_and_binary_mode_witness :
  let fs := ascii_files {[names_csv := crlf_file]} (λ _ _, false) in
  @cr_transparent crlf_platform
  ∧ files fs !! names_csv = Some crlf_file
  ∧ refuses fs FOPEN_READ names_csv = false
  ∧ @text_mode crlf_platform crlf_file = crlf_to_lf crlf_file
  ∧ (narrow_path fs (@WideToUtf8 crlf_platform names_csv) = Some names_csv
     ∨ narrow_path fs (@WideToUtf8 crlf_platform names_csv) = None)
  ∧ @LoadCSV crlf_platform names_csv fs []
    = (bool_decide (@read_rows crlf_platform crlf_file ≠ []),
       @read_rows crlf_platform crlf_file).
Proof.
  intros fs.
  assert (narrow_path fs (@WideToUtf8 crlf_platform names_csv) = Some names_csv
          ∨ narrow_path fs (@WideToUtf8 crlf_platform names_csv) = None) as Hnarrow
    by (left; reflexivity).
  split; [exact crlf_platform_cr_transparent|]. split; [reflexivity|].
  split; [reflexivity|]. split; [reflexivity|]. split; [exact Hnarrow|].
  exact (@LoadCSV_same_in_text_and_binary_mode crlf_platform crlf_platform_cr_transparent
           names_csv fs [] crlf_file eq_refl eq_refl eq_refl Hnarrow).
Defined.

(** * Saving *)

Lemma tmp_path_ne (path : wstring) : path ++ L ".tmp" ≠ path.
Proof.
  intros Heq. apply (f_equal length) in Heq. rewrite length_app in Heq.
  change (length (L ".tmp")) with 4%nat in Heq. lia.
Qed.

Section Saving.
Context `{Win32}.

(** What [SaveCSV] leaves when the system lets it write the temporary file
    and put it in the place of the target. *)
Lemma SaveCSV_ok (path : wstring) (entries : list NameEntry)
    (fs : FileSystem) :
  refuses fs FOPEN_WRITE (path ++ L ".tmp") = false →
  refuses fs REMOVE (path ++ L ".tmp") = false →
  refuses fs COPY path = false
  ∨ (refuses fs REMOVE path = false ∧ refuses fs RENAME path = false) →
  ∃ fs', SaveCSV path entries fs = (true, fs')
       ∧ files fs' = <[path := csv_bytes entries]> (delete (path ++ L ".tmp") (files fs))
       ∧ narrow_path fs' = narrow_path fs
       ∧ refuses fs' = refuses fs.
Proof.
  intros Hopen Hrm Hway. pose proof (tmp_path_ne path) as Hne.
  unfold SaveCSV. rewrite Hopen. unfold wremove, wrename, CopyFileW.
  cbn [refuses files with_files narrow_path].
  destruct (refuses fs REMOVE path) eqn:Hrmp; cbn [refuses files with_files narrow_path].
  - destruct Hway as [Hcopy|[? _]]; [|done].
    rewrite lookup_insert_eq, lookup_insert_ne by done.
    destruct (files fs !! path) as [old|] eqn:Hold.
    + cbn [refuses files with_files narrow_path]. rewrite lookup_insert_eq, Hcopy.
      cbn [refuses files with_files narrow_path]. rewrite Hrm.
      eexists. split; [done|]. cbn. split; [|done].
      apply map_eq. intros p.
      destruct (decide (p = path)) as [->|Hp]; [by simplify_map_eq|].
      destruct (decide (p = path ++ L ".tmp")) as [->|Hp']; by simplify_map_eq.
    + destruct (refuses fs RENAME path) eqn:Hren;
        cbn [refuses files with_files narrow_path].
      * rewrite lookup_insert_eq, Hcopy. cbn [refuses files with_files narrow_path].
        rewrite Hrm. eexists. split; [done|]. cbn. split; [|done].
        apply map_eq. intros p.
        destruct (decide (p = path)) as [->|Hp]; [by simplify_map_eq|].
        destruct (decide (p = path ++ L ".tmp")) as [->|Hp']; by simplify_map_eq.
      * eexists. split; [done|]. cbn. split; [|done].
        apply map_eq. intros p.
        destruct (decide (p = path)) as [->|Hp]; [by simplify_map_eq|].
        destruct (decide (p = path ++ L ".tmp")) as [->|Hp']; by simplify_map_eq.
  - rewrite lookup_delete_ne, lookup_insert_eq, lookup_delete_eq by done.
    destruct (refuses fs RENAME path) eqn:Hren;
      cbn [refuses files with_files narrow_path].
    + destruct Hway as [Hcopy|[_ ?]]; [|done].
      rewrite lookup_delete_ne, lookup_insert_eq, Hcopy by done.
      cbn [refuses files with_files narrow_path]. rewrite Hrm.
      eexists. split; [done|]. cbn. split; [|done].
      apply map_eq. intros p.
      destruct (decide (p = path)) as [->|Hp]; [by simplify_map_eq|].
      destruct (decide (p = path ++ L ".tmp")) as [->|Hp']; by simplify_map_eq.
    + eexists. split; [done|]. cbn. split; [|done].
      apply map_eq. intros p.
      destruct (decide (p = path)) as [->|Hp]; [by simplify_map_eq|].
      destruct (decide (p = path ++ L ".tmp")) as [->|Hp']; by simplify_map_eq.
Qed.

(** X14.  When the temporary file can be written and removed, and the
    target can be copied over or else removed and renamed onto, [SaveCSV]
    returns [true] and leaves the serialized roster in the target, no
    temporary file, and every other file as it was. *)
Theorem SaveCSV_replaces_target (path : wstring) (entries : list NameEntry)
    (fs : FileSystem) :
  refuses fs FOPEN_WRITE (path ++ L ".tmp") = false →
  refuses fs REMOVE (path ++ L ".tmp") = false →
  refuses fs COPY path = false
  ∨ (refuses fs REMOVE path = false ∧ refuses fs RENAME path = false) →
  ∃ fs', SaveCSV path entries fs = (true, fs')
       ∧ files fs' = <[path := csv_bytes entries]> (delete (path ++ L ".tmp") (files fs))
       ∧ narrow_path fs' = narrow_path fs
       ∧ refuses fs' = refuses fs.
Proof. intros Hopen Hrm Hway. by apply SaveCSV_ok. Qed.

End Saving.

Section SavingFrame.
Context `{Win32}.

(** X15.  Whatever the system refuses, [SaveCSV] changes no file but the
    target and its temporary file; the target holds the serialized roster
    afterwards, or what it held, or is gone; and when [SaveCSV] returns
    [false] nothing was changed. *)
Theorem SaveCSV_touches_two_files (path : wstring) (entries : list NameEntry)
    (fs : FileSystem) :
  let '(saved, fs') := SaveCSV path entries fs in
  (∀ p, p ≠ path → p ≠ path ++ L ".tmp" → files fs' !! p = files fs !! p)
  ∧ (files fs' !! path = Some (csv_bytes entries)
     ∨ files fs' !! path = files fs !! path
     ∨ files fs' !! path = None)
  ∧ (saved = false → fs' = fs).
Proof.
  pose proof (tmp_path_ne path) as Hne.
  unfold SaveCSV. destruct (refuses fs FOPEN_WRITE _); [by auto|].
  unfold wremove, wrename, CopyFileW. cbn [refuses files with_files narrow_path].
  destruct (refuses fs REMOVE path); cbn [refuses files with_files narrow_path].
  - rewrite lookup_insert_eq, lookup_insert_ne by done.
    destruct (files fs !! path) as [old|] eqn:Hold;
      [|destruct (refuses fs RENAME path)];
      cbn [refuses files with_files narrow_path]; rewrite ?lookup_insert_eq;
      try destruct (refuses fs COPY path);
      cbn [refuses files with_files narrow_path];
      try destruct (refuses fs REMOVE (path ++ L ".tmp"));
      cbn [refuses files with_files narrow_path];
      (split; [intros p Hp Hp'; by simplify_map_eq|]); (split; [|done]);
      simplify_map_eq; auto.
  - rewrite lookup_delete_ne, lookup_insert_eq, lookup_delete_eq by done.
    destruct (refuses fs RENAME path);
      cbn [refuses files with_files narrow_path];
      rewrite ?lookup_delete_ne, ?lookup_insert_eq by done;
      try destruct (refuses fs COPY path);
      cbn [refuses files with_files narrow_path];
      try destruct (refuses fs REMOVE (path ++ L ".tmp"));
      cbn [refuses files with_files narrow_path];
      (split; [intros p Hp Hp'; by simplify_map_eq|]); (split; [|done]);
      simplify_map_eq; auto.
Qed.

End SavingFrame.

Section SaveLoad.
Context `{Win32}.
Hypothesis Hplatform : ascii_transparent.
Hypothesis Hcr : cr_transparent.

(** What [SaveCSV] writes for a roster that a file can hold, [LoadCSV] reads
    as that roster. *)
Lemma read_rows_csv_bytes (entries : list NameEntry) :
  Forall kept entries →
  (∀ e, e ∈ entries →
        (N_of_ascii ";" ∉ name e) ∧ Utf8ToWide (WideToUtf8 (name e)) = name e) →
  read_rows (csv_bytes entries) = entries.
Proof.
  intros Hkept Hnames. unfold read_rows. rewrite (getlines_csv_bytes Hplatform) by done.
  cbn [hd tl].
  assert (DetectDelimiter (BOM8 ++ lit "Name;Counter" ++ [CR]) = ";"%char) as -> by done.
  induction Hkept as [|e entries He _ IH]; [done|]. cbn [map omap list_omap].
  rewrite (parse_row_row_text Hplatform).
  - cbn. f_equal. apply IH. intros e' He'. apply Hnames. by right.
  - done.
  - apply Hnames. left.
  - apply Hnames. left.
Qed.

(** X16.  Saving and loading give the roster back.  For a roster that is
    not empty, whose entries are such as [LoadCSV] keeps and whose names
    hold no semicolon and are converted to UTF-8 and back unchanged, when
    the system refuses nothing on the target and its temporary file,
    [SaveCSV] succeeds and [LoadCSV] of the file it wrote succeeds with
    that roster, whether the file is read in text mode or in binary mode. *)
Theorem SaveCSV_then_LoadCSV_returns_roster (path : wstring) (entries prior : list NameEntry)
    (fs : FileSystem) :
  entries ≠ [] → Forall kept entries →
  (∀ e, e ∈ entries →
        (N_of_ascii ";" ∉ name e) ∧ Utf8ToWide (WideToUtf8 (name e)) = name e) →
  (∀ op, refuses fs op path = false) →
  (∀ op, refuses fs op (path ++ L ".tmp") = false) →
  text_mode (csv_bytes entries) = crlf_to_lf (csv_bytes entries)
  ∨ text_mode (csv_bytes entries) = csv_bytes entries →
  narrow_path fs (WideToUtf8 path) = Some path
  ∨ narrow_path fs (WideToUtf8 path) = None →
  ∃ fs', SaveCSV path entries fs = (true, fs')
       ∧ LoadCSV path fs' prior = (true, entries).
Proof.
  intros Hne Hkept Hnames Hpath Htmp Htext Hnarrow.
  destruct (SaveCSV_ok path entries fs)
    as (fs' & Hsave & Hfiles & Hnp & Href); [done|done|by left|].
  exists fs'. split; [done|].
  unfold LoadCSV, ifstream_open, wfopen_rb. rewrite Hnp, Href, Hfiles, Hpath.
  assert (read_rows (text_mode (csv_bytes entries)) = entries) as Hread.
  { destruct Htext as [-> | ->]; [rewrite (read_rows_crlf_to_lf Hcr)|];
      by apply read_rows_csv_bytes. }
  destruct Hnarrow as [-> | ->].
  - rewrite Hpath, lookup_insert_eq. cbn [fmap option_fmap option_map].
    rewrite Hread. by rewrite bool_decide_eq_true_2.
  - rewrite lookup_insert_eq, read_rows_csv_bytes by done.
    by rewrite bool_decide_eq_true_2.
Qed.

End SaveLoad.

Lemma LoadCSV_true_gives_valid_roster_witness :
  let fs := ascii_files {[names_csv := comma_file]} (λ _ _, false) in
  let entries := @read_rows ascii_platform comma_file in
  @LoadCSV ascii_platform names_csv fs [] = (true, entries)
  ∧ entries ≠ []
  ∧ ∀ e, e ∈ entries →
      trimmed (name e)
      ∧ name e ≠ [] ∧ name e ≠ L "nan" ∧ name e ≠ L "None"
      ∧ INT_MIN ≤ counter e ≤ INT_MAX.
Proof.
  intros fs entries.
  assert (@LoadCSV ascii_platform names_csv fs [] = (true, entries)) as Hload
    by (vm_compute; reflexivity).
  split; [exact Hload|].
  exact (@LoadCSV_true_gives_valid_roster ascii_platform names_csv fs [] entries Hload).
Defined.

Lemma parse_row_ignores_further_columns_witness :
  (";"%char ∉ lit "Bob") ∧ (";"%char ∉ lit "1")
  ∧ @parse_row ascii_platform ";" (lit "Bob" ++ ";"%char :: lit "1" ++ ";"%char :: lit "x")
    = @parse_row ascii_platform ";" (lit "Bob" ++ ";"%char :: lit "1").
Proof.
  assert (";"%char ∉ lit "Bob") as Hn by (apply (bool_decide_unpack _); vm_compute; exact I).
  assert (";"%char ∉ lit "1") as Hc by (apply (bool_decide_unpack _); vm_compute; exact I).
  split; [exact Hn|]. split; [exact Hc|].
  exact (@parse_row_ignores_further_columns ascii_platform ";" (lit "Bob") (lit "1") (lit "x")
           Hn Hc).
Defined.

Lemma SaveCSV_replaces_target_witness :
  let fs := with_undeletable_target in
  refuses fs FOPEN_WRITE (names_csv ++ L ".tmp") = false
  ∧ refuses fs REMOVE (names_csv ++ L ".tmp") = false
  ∧ (refuses fs COPY names_csv = false
     ∨ (refuses fs REMOVE names_csv = false ∧ refuses fs RENAME names_csv = false))
  ∧ refuses fs REMOVE names_csv = true
  ∧ ∃ fs', @SaveCSV ascii_platform names_csv two_names fs = (true, fs')
         ∧ files fs' = <[names_csv := @csv_bytes ascii_platform two_names]>
                         (delete (names_csv ++ L ".tmp") (files fs))
         ∧ narrow_path fs' = narrow_path fs
         ∧ refuses fs' = refuses fs.
Proof.
  intros fs.
  assert (refuses fs COPY names_csv = false
          ∨ (refuses fs REMOVE names_csv = false ∧ refuses fs RENAME names_csv = false))
    as Hway by (left; reflexivity).
  split; [reflexivity|]. split; [reflexivity|]. split; [exact Hway|]. split; [reflexivity|].
  exact (@SaveCSV_replaces_target ascii_platform names_csv two_names fs eq_refl eq_refl Hway).
Defined.

Lemma two_names_kept : Forall kept two_names.
Proof.
  apply Forall_forall. intros e He. unfold two_names in He. rewrite !elem_of_cons in He.
  destruct He as [->|[->|He]]; [| |by apply elem_of_nil in He];
    (split; cbn [name counter];
     [right; eexists _, _; split; [reflexivity|];
      split; [apply (bool_decide_unpack _); vm_compute; exact I|];
      split; [reflexivity|apply (bool_decide_unpack _); vm_compute; exact I]
     |repeat split; discriminate
     |apply (bool_decide_unpack _); vm_compute; exact I
     |unfold INT_MIN, INT_MAX; lia]).
Qed.

Lemma two_names_plain (e : NameEntry) :
  e ∈ two_names →
  (N_of_ascii ";" ∉ name e)
  ∧ @Utf8ToWide ascii_platform (@WideToUtf8 ascii_platform (name e)) = name e.
Proof.
  revert e. apply Forall_forall. apply (bool_decide_unpack _). vm_compute. exact I.
Qed.

Lemma SaveCSV_then_LoadCSV_returns_roster_witness :
  let fs := ascii_files ∅ (λ _ _, false) in
  @ascii_transparent ascii_platform
  ∧ @cr_transparent ascii_platform
  ∧ two_names ≠ []
  ∧ Forall kept two_names
  ∧ (∀ e, e ∈ two_names →
          (N_of_ascii ";" ∉ name e)
          ∧ @Utf8ToWide ascii_platform (@WideToUtf8 ascii_platform (name e)) = name e)
  ∧ (∀ op, refuses fs op names_csv = false)
  ∧ (∀ op, refuses fs op (names_csv ++ L ".tmp") = false)
  ∧ (@text_mode ascii_platform (@csv_bytes ascii_platform two_names)
     = crlf_to_lf (@csv_bytes ascii_platform two_names)
     ∨ @text_mode ascii_platform (@csv_bytes ascii_platform two_names)
       = @csv_bytes ascii_platform two_names)
  ∧ (narrow_path fs (@WideToUtf8 ascii_platform names_csv) = Some names_csv
     ∨ narrow_path fs (@WideToUtf8 ascii_platform names_csv) = None)
  ∧ ∃ fs', @SaveCSV ascii_platform names_csv two_names fs = (true, fs')
         ∧ @LoadCSV ascii_platform names_csv fs' [] = (true, two_names).
Proof.
  intros fs.
  assert (two_names ≠ []) as Hne by discriminate.
  assert (∀ op, refuses fs op names_csv = false) as Hpath by reflexivity.
  assert (∀ op, refuses fs op (names_csv ++ L ".tmp") = false) as Htmp by reflexivity.
  assert (@text_mode ascii_platform (@csv_bytes ascii_platform two_names)
          = crlf_to_lf (@csv_bytes ascii_platform two_names)
          ∨ @text_mode ascii_platform (@csv_bytes ascii_platform two_names)
            = @csv_bytes ascii_platform two_names) as Htext by (right; reflexivity).
  assert (narrow_path fs (@WideToUtf8 ascii_platform names_csv) = Some names_csv
          ∨ narrow_path fs (@WideToUtf8 ascii_platform names_csv) = None) as Hnarrow
    by (left; reflexivity).
  split; [exact ascii_platform_transparent|].
  split; [exact ascii_platform_cr_transparent|].
  split; [exact Hne|]. split; [exact two_names_kept|]. split; [exact two_names_plain|].
  split; [exact Hpath|]. split; [exact Htmp|]. split; [exact Htext|].
  split; [exact Hnarrow|].
  exact (@SaveCSV_then_LoadCSV_returns_roster ascii_platform ascii_platform_transparent
           ascii_platform_cr_transparent names_csv two_names [] fs Hne two_names_kept
           two_names_plain Hpath Htmp Htext Hnarrow).
Defined.

(** * The scan and the blink *)


Lemma toggle_off (X Y : gset Z) (w : Z) :
  X ∖ {[w]} = Y ∖ {[w]} → (X ∖ {[w]}) ∖ {[w]} = Y ∖ {[w]}.
Proof. intros <-. apply set_eq. intros x. rewrite !elem_of_difference. tauto. Qed.

Lemma toggle_on (X Y : gset Z) (w : Z) :
  X ∖ {[w]} = Y ∖ {[w]} → ({[w]} ∪ X) ∖ {[w]} = Y ∖ {[w]}.
Proof.
  intros <-. apply set_eq. intros x.
  rewrite !elem_of_difference, elem_of_union. tauto.
Qed.

Lemma toggle_settled (X Y : gset Z) (w : Z) :
  X ∖ {[w]} = Y ∖ {[w]} → {[w]} ∪ X = {[w]} ∪ Y.
Proof.
  intros Heq. apply set_eq. intros x. rewrite !elem_of_union.
  assert (x ∈ X ∖ {[w]} ↔ x ∈ Y ∖ {[w]}) as Hx by by rewrite Heq.
  rewrite !elem_of_difference in Hx. destruct (decide (x ∈ ({[w]} : gset Z))); tauto.
Qed.

(** X18.  The blinking toggles the row of the winner and no other: after
    [j] messages of the blink timer, [j] at most the number of toggles, the
    row is a winner row exactly when it was one and [j] is even, or was none
    and [j] is odd; the message after the last toggle leaves it a winner
    row, no row highlighted as scanned, the blink timer stopped and the
    timer of the commit set. *)
Theorem blink_toggles_winner_then_settles (s : State) :
  (∀ j : nat, Z.of_nat j ≤ g_blinkState s →
     let s' := Nat.iter j OnBlinkTimer s in
     g_blinkState s' = g_blinkState s - Z.of_nat j
     ∧ g_blinkIid s' = g_blinkIid s
     ∧ timers s' = timers s
     ∧ g_winnerRows s' ∖ {[g_blinkIid s]} = g_winnerRows s ∖ {[g_blinkIid s]}
     ∧ (g_blinkIid s ∈ g_winnerRows s' ↔
        if Nat.even j then g_blinkIid s ∈ g_winnerRows s
        else g_blinkIid s ∉ g_winnerRows s))
  ∧ (let s' := Nat.iter (S (Z.to_nat (g_blinkState s))) OnBlinkTimer s in
     g_winnerRows s' = {[g_blinkIid s]} ∪ g_winnerRows s
     ∧ g_scanHighlightRow s' < 0
     ∧ timers s' TIMER_BLINK = false
     ∧ timers s' TIMER_NEXT = true).
Proof.
  assert (∀ j : nat, Z.of_nat j ≤ Z.max 0 (g_blinkState s) →
            let s' := Nat.iter j OnBlinkTimer s in
            g_blinkState s' = g_blinkState s - Z.of_nat j
            ∧ g_blinkIid s' = g_blinkIid s
            ∧ timers s' = timers s
            ∧ g_winnerRows s' ∖ {[g_blinkIid s]} = g_winnerRows s ∖ {[g_blinkIid s]}
            ∧ (g_blinkIid s ∈ g_winnerRows s' ↔
               if Nat.even j then g_blinkIid s ∈ g_winnerRows s
               else g_blinkIid s ∉ g_winnerRows s)) as Hblink.
  { induction j as [|j IH]; intros Hj.
    { cbn. rewrite Z.sub_0_r. done. }
    destruct IH as (Hstate & Hiid & Htim & Hrows & Hpar); [lia|].
    cbn zeta. rewrite Nat.iter_succ. set (sj := Nat.iter j OnBlinkTimer s) in *.
    unfold OnBlinkTimer. rewrite decide_False by lia. rewrite Hiid.
    rewrite Nat.even_succ, <- Nat.negb_even.
    case_decide as Hin; cbn; rewrite ?Hiid.
    - split; [lia|]. split; [done|]. split; [done|]. split; [by apply toggle_off|].
      rewrite elem_of_difference, elem_of_singleton.
      revert Hpar. destruct (decide (g_blinkIid s ∈ g_winnerRows s)), (Nat.even j); cbn; intuition.
    - split; [lia|]. split; [done|]. split; [done|]. split; [by apply toggle_on|].
      rewrite elem_of_union, elem_of_singleton.
      revert Hpar. destruct (decide (g_blinkIid s ∈ g_winnerRows s)), (Nat.even j); cbn; intuition. }
  split.
  - intros j Hj. apply Hblink. lia.
  - destruct (Hblink (Z.to_nat (g_blinkState s))) as (Hstate & Hiid & Htim & Hrows & _); [lia|].
    cbn zeta. rewrite Nat.iter_succ.
    set (sj := Nat.iter (Z.to_nat (g_blinkState s)) OnBlinkTimer s) in *.
    unfold OnBlinkTimer. rewrite decide_True by lia.
    rewrite ClearScanHighlight_eq. cbn. rewrite Hiid.
    split; [by apply toggle_settled|]. split; [case_decide; lia|done].
Qed.

(** * What a batch leaves of the rest of the state *)

Lemma phase_unique `{Win32} (r1 r2 : list NameEntry) (t1 t2 : Z) (p1 p2 : phase)
    (l1 l2 : list Draw) (s : State) :
  batch_inv r1 t1 p1 l1 s → batch_inv r2 t2 p2 l2 s → p1 = p2.
Proof.
  intros H1 H2. pose proof (inv_timers _ _ _ _ _ H1) as A1.
  pose proof (inv_timers _ _ _ _ _ H2) as A2. unfold armed in *.
  pose proof (A1 TIMER_ANIM) as Ha. pose proof (A1 TIMER_BLINK) as Hb.
  pose proof (A1 TIMER_NEXT) as Hn. pose proof (A1 TIMER_FINISH) as Hf.
  rewrite A2 in Ha, Hb, Hn, Hf. by destruct p1, p2.
Qed.

Section Frames.
Context `{Win32}.

Lemma FinishRound_frame (s s' : State) :
  FinishRound s = Ok s' →
  (disk s', messageBoxes s')
  = round_saved (g_filePath s) (g_entries s) (disk s) (messageBoxes s)
  ∧ g_filePath s' = g_filePath s
  ∧ g_winnerRows s' = g_winnerRows s
  ∧ g_scanHighlightRow s' = g_scanHighlightRow s
  ∧ g_entries s' = g_entries s.
Proof.
  unfold FinishRound, round_saved.
  destruct (g_filePath s) as [|c path] eqn:Hpath.
  - destruct (summary_loop _ _ _ _); [|done]. cbn. intros [= <-]. cbn. by rewrite Hpath.
  - destruct (SaveCSV _ _ _) as [[] fs]; cbn;
      (destruct (summary_loop _ _ _ _); [|done]); cbn; intros [= <-]; cbn; by rewrite Hpath.
Qed.

Lemma ApplyWinnerAndContinue_status (s : State) (mid : list NameEntry) :
  increment_counter (g_animWinnerIdx s) (g_entries s) = Ok mid →
  ApplyWinnerAndContinue s =
  let status := progress_line (g_drawnCount s + 1) (g_toDrawTotal s)
                  (name_at (g_entries s) (g_animWinnerIdx s)) in
  if decide (g_drawnCount s + 1 < g_toDrawTotal s)
  then Ok (SetTimer TIMER_FINISH (committed s mid status))
  else FinishRound (committed s mid status).
Proof.
  intros Hmid. unfold ApplyWinnerAndContinue. rewrite Hmid. cbn [mbind result_bind].
  pose proof (name_at_increment _ _ _ (g_animWinnerIdx s) Hmid) as Hname.
  rewrite <- name_at_NormalizeCounters in Hname.
  apply increment_counter_inv in Hmid as (e & Hat & _ & _ & Hlen & _).
  assert (0 ≤ g_animWinnerIdx s < Z.of_nat (length (NormalizeCounters mid))) as Hw.
  { rewrite NormalizeCounters_length, Hlen. apply at_range. by exists e. }
  destruct (index_Ok _ _ Hw) as (e' & Hidx & Hat' & _).
  cbn [g_entries set_g_entries set_g_drawnCount g_animWinnerIdx].
  rewrite Hidx. cbn [mbind result_bind]. unfold name_at at 1 in Hname.
  rewrite Hat' in Hname. cbn zeta. rewrite <- Hname. reflexivity.
Qed.

Lemma OnDrawClicked_frame (n : Z) (s0 s1 : State) :
  g_entries s0 ≠ [] → g_animRunning s0 = false → 1 ≤ n → OnDrawClicked n s0 = Ok s1 →
  g_winnerRows s1 = g_winnerRows s0
  ∧ g_scanHighlightRow s1 = g_scanHighlightRow s0
  ∧ g_filePath s1 = g_filePath s0
  ∧ disk s1 = disk s0
  ∧ messageBoxes s1 = messageBoxes s0
  ∧ statusText s1 = batch_status (g_toDrawTotal s1) (g_entries s0) [].
Proof.
  intros Hne Hrun Hn. unfold OnDrawClicked.
  rewrite Hrun, orb_false_r, bool_decide_eq_false_2 by done.
  rewrite decide_False by lia. set (s := SetStatus _ _).
  destruct (DrawNextOne_spec s) as (w & walk & -> & _); [done|].
  by intros [= <-].
Qed.

Variables (total0 : Z) (s0 : State).
Let roster0 : list NameEntry := g_entries s0.

Lemma frame_tick (p p' : phase) (log : list Draw) (s s' : State) :
  batch_inv roster0 total0 p log s → batch_frame s0 p log s → tick s = Ok s' →
  batch_inv roster0 total0 p' (log ++ committed_by p s) s' →
  batch_frame s0 p' (log ++ committed_by p s) s'.
Proof.
  intros Hinv [Hrows Hscan Hpath Hstatus Hdisk] Htick Hinv'.
  unfold tick in Htick. rewrite (next_timer_armed _ _ (inv_timers _ _ _ _ _ Hinv)) in Htick.
  destruct p; cbn in Htick, Hinv' |- *; rewrite ?app_nil_r in *.
  - (* the scan *)
    injection Htick as <-.
    rewrite (phase_unique _ _ _ _ _ _ _ _ _ Hinv' (step_scan _ _ _ _ Hinv)).
    unfold OnAnimTimer, SetScanHighlight, StartBlink.
    destruct (g_animPath s); rewrite ClearScanHighlight_eq; split; cbn; try done;
      try (intros _; by apply Hstatus).
    by apply toggle_on; rewrite Hrows.
  - (* the blink *)
    injection Htick as <-.
    rewrite (phase_unique _ _ _ _ _ _ _ _ _ Hinv' (step_blink _ _ _ _ Hinv)).
    pose proof (inv_blink _ _ _ _ _ Hinv eq_refl) as Hiid.
    unfold OnBlinkTimer. rewrite Hiid. case_decide; rewrite ?ClearScanHighlight_eq.
    + split; cbn; rewrite ?Hiid; try done; try (intros _; by apply Hstatus).
      * by apply toggle_settled.
      * case_decide; lia.
    + case_decide; split; cbn; rewrite ?Hiid; try done; try (intros _; by apply Hstatus).
      * by apply toggle_off.
      * by apply toggle_on.
  - (* the commit *)
    destruct (step_settle _ _ log s Hinv) as (e & Hat & Hover & Hok).
    destruct (decide (counter e < INT_MAX)) as [Hc|Hc];
      [|by rewrite Hover in Htick by lia].
    destruct (Hok Hc) as (s1 & Hs1 & Hinv1 & _ & Hmid & Hent).
    rewrite Hs1 in Htick. injection Htick as ->.
    rewrite (phase_unique _ _ _ _ _ _ _ _ _ Hinv' Hinv1).
    unfold OnNextTimer in Hs1.
    rewrite (ApplyWinnerAndContinue_status (KillTimer TIMER_NEXT s) _ Hmid) in Hs1.
    cbn [g_drawnCount g_toDrawTotal g_entries g_animWinnerIdx KillTimer set_timers] in Hs1.
    cbn zeta in Hs1. case_decide.
    + injection Hs1 as <-. split; cbn; try done.
      * rewrite Hrows, picked_snoc. apply set_eq. intros x. rewrite !elem_of_union. tauto.
      * intros _. unfold batch_status. rewrite last_snoc, length_app, Nat2Z.inj_add.
        rewrite <- (inv_count _ _ _ _ _ Hinv).
        by rewrite (proj2 (replays_frame _ _ _ (inv_replay _ _ _ _ _ Hinv))).
    + apply FinishRound_frame in Hs1 as (Hsaved & Hp & Hr & Hsc & He). cbn in *.
      split; cbn.
      * rewrite Hr, Hrows, picked_snoc. apply set_eq. intros x. rewrite !elem_of_union. tauto.
      * lia.
      * congruence.
      * done.
      * injection Hdisk as Hd Hm. by rewrite Hsaved, He, Hpath, Hd, Hm.
  - (* the pause *)
    unfold OnFinishTimer in Htick.
    destruct (DrawNextOne_spec (KillTimer TIMER_FINISH s)) as (w & walk & Hdraw & _);
      [apply (inv_entries _ _ _ _ _ Hinv)|].
    rewrite Hdraw in Htick. injection Htick as <-.
    destruct (step_pause _ _ log s Hinv) as (s1 & Hs1 & Hinv1).
    unfold OnFinishTimer in Hs1. rewrite Hdraw in Hs1. injection Hs1 as <-.
    rewrite (phase_unique _ _ _ _ _ _ _ _ _ Hinv' Hinv1).
    split; try done; intros _; by apply Hstatus.
  - (* after the batch *)
    injection Htick as <-.
    rewrite (phase_unique _ _ _ _ _ _ _ _ _ Hinv' Hinv). by split.
Qed.

Lemma run_frame (k : nat) (p : phase) (pre log : list Draw) (s s' : State) :
  batch_inv roster0 total0 p pre s → batch_frame s0 p pre s → run k s = Ok (log, s') →
  ∃ p', batch_inv roster0 total0 p' (pre ++ log) s' ∧ batch_frame s0 p' (pre ++ log) s'.
Proof.
  revert p pre log s s'. induction k as [|k IH]; intros p pre log s s' Hinv Hfr.
  - intros [= <- <-]. rewrite app_nil_r. eauto.
  - rewrite run_S. destruct (tick s) as [s1|] eqn:Htick; [|done]. cbn.
    destruct (run k s1) as [[log1 s2]|] eqn:Hrun; [|done]. cbn.
    destruct (tick_inv _ _ _ _ _ _ Hinv Htick) as [p1 Hinv1].
    pose proof (frame_tick _ _ _ _ _ Hinv Hfr Htick Hinv1) as Hfr1.
    destruct (IH _ _ _ _ _ Hinv1 Hfr1 Hrun) as (p2 & Hinv2 & Hfr2).
    rewrite (next_timer_armed _ _ (inv_timers _ _ _ _ _ Hinv)).
    intros [= <- <-]. exists p2. revert Hinv2 Hfr2. unfold committed_by.
    destruct p; cbn; rewrite <- ?app_assoc, ?app_nil_r; by auto.
Qed.

End Frames.

Section BatchViews.
Context `{Win32}.

Lemma batch_frame_reached (n : Z) (k : nat) (s0 s1 s' : State) (log : list Draw) :
  idle s0 → g_entries s0 ≠ [] → 1 ≤ n →
  OnDrawClicked n s0 = Ok s1 → run k s1 = Ok (log, s') →
  ∃ p, batch_inv (g_entries s0) (Z.min n (Z.of_nat (length (g_entries s0)))) p log s'
     ∧ batch_frame s0 p log s'.
Proof.
  intros Hidle Hne Hn Hclick Hrun.
  destruct (OnDrawClicked_cases n s0 Hidle)
    as [(s1' & Hs1 & _ & _ & [?|?])|(s1' & Hs1 & Hinv & _)]; [done|lia|].
  rewrite Hclick in Hs1. injection Hs1 as <-.
  destruct (OnDrawClicked_frame n s0 s1 Hne (proj1 Hidle) Hn Hclick)
    as (Hrows & Hscan & Hpath & Hdisk & Hboxes & Hstatus).
  apply (run_frame _ s0 k Scanning [] log s1 s'); [done| |done].
  split; cbn; try done.
  - rewrite Hrows. unfold picked. cbn. by rewrite union_empty_r_L.
  - by rewrite Hdisk, Hboxes.
Qed.

(** X19.  After a click on the draw button in an idle state and any number
    of timer messages at most one timer is set, one is set exactly while the
    batch runs, and the state is idle again when the batch is over. *)
Theorem batch_keeps_one_timer_set (n : Z) (k : nat) (s0 s1 s' : State)
    (log : list Draw) :
  idle s0 → OnDrawClicked n s0 = Ok s1 → run k s1 = Ok (log, s') →
  (∀ t t', timers s' t = true → timers s' t' = true → t = t')
  ∧ ((∃ t, timers s' t = true) ↔ g_animRunning s' = true)
  ∧ (g_animRunning s' = false → idle s').
Proof.
  intros Hidle Hclick Hrun.
  destruct (OnDrawClicked_cases n s0 Hidle)
    as [(s1' & Hs1 & Ht & _)|(s1' & Hs1 & Hinv & _)];
    rewrite Hclick in Hs1; injection Hs1 as <-.
  - rewrite run_no_timer in Hrun by done. injection Hrun as <- <-.
    destruct (batch_inv_reached n 0 s0 s1 s1 [] Hidle Hclick eq_refl)
      as [(_ & Hstop & _)|(p & Hinv & Hne & Hn)].
    + split; [intros t t' Htrue; by rewrite Ht in Htrue|].
      split; [|done]. rewrite Hstop. split; [intros [t Htrue]; by rewrite Ht in Htrue|done].
    + pose proof (inv_timers _ _ _ _ _ Hinv) as Ha. unfold armed in Ha.
      destruct p; try (by specialize (Ha TIMER_ANIM); rewrite Ht in Ha);
        try (by specialize (Ha TIMER_BLINK); rewrite Ht in Ha);
        try (by specialize (Ha TIMER_NEXT); rewrite Ht in Ha);
        try (by specialize (Ha TIMER_FINISH); rewrite Ht in Ha).
      pose proof (inv_running _ _ _ _ _ Hinv) as Hstop. cbn in Hstop.
      split; [intros t t' Htrue; by rewrite Ht in Htrue|].
      split; [|done]. rewrite Hstop. split; [intros [t Htrue]; by rewrite Ht in Htrue|done].
  - destruct (run_inv _ _ _ _ _ _ _ _ Hinv Hrun) as [p Hp]. cbn in Hp.
    pose proof (inv_timers _ _ _ _ _ Hp) as Ha. unfold armed in Ha.
    pose proof (inv_running _ _ _ _ _ Hp) as Hr.
    split; [|split].
    + intros t t'. rewrite !Ha. intros Ht%bool_decide_eq_true Ht'%bool_decide_eq_true.
      congruence.
    + rewrite Hr. split.
      * intros [t Ht]. rewrite Ha in Ht. apply bool_decide_eq_true in Ht. by destruct p.
      * intros Hp'. destruct p; try done; eexists; rewrite Ha; by apply bool_decide_eq_true.
    + rewrite Hr. intros Hfin. split; [by rewrite Hr|]. intros t. rewrite Ha.
      apply bool_decide_eq_false. by destruct p.
Qed.

(** X20.  When a batch of at least one draw from a roster that is not empty
    is over, the winner rows are those of before the batch and the winners
    of the batch, no row is highlighted as scanned, and the list view
    paints these rows green and all others white. *)
Theorem finished_batch_shows_its_winners (n : Z) (k : nat) (s0 s1 s' : State)
    (log : list Draw) :
  idle s0 → g_entries s0 ≠ [] → 1 ≤ n →
  OnDrawClicked n s0 = Ok s1 → run k s1 = Ok (log, s') → g_animRunning s' = false →
  g_winnerRows s' = g_winnerRows s0 ∪ list_to_set (winners log)
  ∧ g_scanHighlightRow s' < 0
  ∧ ∀ row, 0 ≤ row →
      (row ∈ winners log ∨ row ∈ g_winnerRows s0 → clrTextBk row s' = RGB 200 230 201)
      ∧ (¬ (row ∈ winners log ∨ row ∈ g_winnerRows s0) →
         clrTextBk row s' = RGB 255 255 255).
Proof.
  intros Hidle Hne Hn Hclick Hrun Hstop.
  destruct (batch_frame_reached n k s0 s1 s' log Hidle Hne Hn Hclick Hrun)
    as (p & Hinv & [Hrows Hscan _ _ _]).
  rewrite (inv_running _ _ _ _ _ Hinv) in Hstop. destruct p; try done.
  split; [done|]. split; [done|]. intros row Hrow. unfold clrTextBk.
  rewrite decide_False by lia.
  destruct (decide (row ∈ g_winnerRows s')) as [Hin|Hnin];
    [rewrite Hrows, elem_of_union, elem_of_picked in Hin
    |rewrite Hrows, elem_of_union, elem_of_picked in Hnin];
    split; try done; tauto.
Qed.

(** X21.  A batch of at least one draw from a roster that is not empty
    writes no file and shows no message box while it runs; when it is over
    the files and the message boxes are those that saving the final roster
    to the path of the session left; and when that path is not empty and
    the system allows the replacement, the file of the session holds the
    serialized final roster and no message box was shown. *)
Theorem batch_saves_roster_at_its_end (n : Z) (k : nat) (s0 s1 s' : State)
    (log : list Draw) :
  idle s0 → g_entries s0 ≠ [] → 1 ≤ n →
  OnDrawClicked n s0 = Ok s1 → run k s1 = Ok (log, s') →
  g_filePath s' = g_filePath s0
  ∧ (g_animRunning s' = true → disk s' = disk s0 ∧ messageBoxes s' = messageBoxes s0)
  ∧ (g_animRunning s' = false →
     (disk s', messageBoxes s')
     = round_saved (g_filePath s0) (g_entries s') (disk s0) (messageBoxes s0))
  ∧ (g_animRunning s' = false → g_filePath s0 ≠ [] →
     refuses (disk s0) FOPEN_WRITE (g_filePath s0 ++ L ".tmp") = false →
     refuses (disk s0) REMOVE (g_filePath s0 ++ L ".tmp") = false →
     refuses (disk s0) COPY (g_filePath s0) = false
     ∨ (refuses (disk s0) REMOVE (g_filePath s0) = false
        ∧ refuses (disk s0) RENAME (g_filePath s0) = false) →
     files (disk s') !! g_filePath s0 = Some (csv_bytes (g_entries s'))
     ∧ messageBoxes s' = messageBoxes s0).
Proof.
  intros Hidle Hne Hn Hclick Hrun.
  destruct (batch_frame_reached n k s0 s1 s' log Hidle Hne Hn Hclick Hrun)
    as (p & Hinv & [_ _ Hpath _ Hdisk]).
  rewrite (inv_running _ _ _ _ _ Hinv). split; [done|]. split; [|split].
  - intros Hp. destruct (finished p); [done|]. by injection Hdisk.
  - intros Hp. by destruct (finished p).
  - intros Hp Hfile Hopen Hrm Hway. destruct (finished p); [|done].
    destruct (SaveCSV_ok (g_filePath s0) (g_entries s') (disk s0) Hopen Hrm Hway)
      as (fs' & Hsave & Hfiles & _).
    unfold round_saved in Hdisk. destruct (g_filePath s0) as [|c path] eqn:Hp0; [done|].
    rewrite Hsave in Hdisk. injection Hdisk as -> ->.
    split; [|done]. rewrite Hfiles. apply lookup_insert_eq.
Qed.

(** X22.  While a batch of at least one draw from a roster that is not
    empty runs, the status bar shows the announcement of the batch until
    the first draw is committed, and from then on the number of draws
    committed, the number of draws of the batch and the name of the last
    winner. *)
Theorem running_batch_status_names_last_winner (n : Z) (k : nat) (s0 s1 s' : State)
    (log : list Draw) :
  idle s0 → g_entries s0 ≠ [] → 1 ≤ n →
  OnDrawClicked n s0 = Ok s1 → run k s1 = Ok (log, s') → g_animRunning s' = true →
  let total := Z.min n (Z.of_nat (length (g_entries s0))) in
  statusText s'
  = match last log with
    | None => L "Ziehe " ++ to_wstring total ++ L " Person(en) " ++ [8230%N]
    | Some (w, _) =>
        L "Gezogen: " ++ to_wstring (Z.of_nat (length log)) ++ L "/" ++ to_wstring total
        ++ L " " ++ [8211%N] ++ L " Gewinner: " ++ name_at (g_entries s0) w
    end.
Proof.
  intros Hidle Hne Hn Hclick Hrun Hrunning.
  destruct (batch_frame_reached n k s0 s1 s' log Hidle Hne Hn Hclick Hrun)
    as (p & Hinv & [_ _ _ Hstatus _]).
  rewrite (inv_running _ _ _ _ _ Hinv) in Hrunning.
  rewrite Hstatus by by destruct (finished p).
  by rewrite (inv_total0 _ _ _ _ _ Hinv).
Qed.

End BatchViews.

(** * Any sequence of messages *)


Section Messages.
Context `{Win32}.








End Messages.

(** * The list view *)

Lemma at_of_nat {A} (v : list A) (i : nat) : at_ v (Z.of_nat i) = v !! i.
Proof. unfold at_. rewrite decide_True by lia. by rewrite Nat2Z.id. Qed.

Lemma alter_middle {A} (f : A → A) (l r : list A) (x : A) :
  alter f (length l) (l ++ x :: r) = l ++ f x :: r.
Proof. induction l as [|y l IH]; [done|]. simpl. f_equal. exact IH. Qed.

Lemma populate_from_spec (entries : list NameEntry) (lv : ListView) :
  populate_from (length lv) entries lv = lv ++ map row_of entries.
Proof.
  revert lv. induction entries as [|e rest IH]; intros lv; cbn [populate_from map].
  - by rewrite app_nil_r.
  - unfold ListView_InsertItem, ListView_SetItemText.
    rewrite take_ge, drop_ge by lia.
    rewrite (alter_middle _ lv [] (name e, [])). cbn [fst]. fold (row_of e).
    replace (S (length lv)) with (length (lv ++ [row_of e]))
      by (rewrite length_app; simpl; lia).
    by rewrite IH, <- app_assoc.
Qed.

Lemma refresh_from_spec (entries : list NameEntry) (shown rows : ListView) :
  map fst rows = map name entries →
  refresh_from (length shown) entries (shown ++ rows) = shown ++ map row_of entries.
Proof.
  revert shown rows. induction entries as [|e rest IH]; intros shown rows Hnames.
  - destruct rows; [done|discriminate].
  - destruct rows as [|[nm old] rows]; [discriminate|]. injection Hnames as -> Hnames.
    cbn [refresh_from map]. unfold ListView_SetItemText.
    rewrite (alter_middle _ shown rows (name e, old)). cbn [fst]. fold (row_of e).
    replace (S (length shown)) with (length (shown ++ [row_of e]))
      by (rewrite length_app; simpl; lia).
    rewrite (cons_middle _ shown rows), (assoc_L (++)).
    rewrite (IH (shown ++ [row_of e]) rows Hnames). by rewrite <- app_assoc.
Qed.

(** X25.  [PopulateListView] shows a row for every entry, its name and its
    counter; and after the commit of a draw [RefreshCounters] on the list
    of the roster before gives the list of the roster after, the same that
    [PopulateListView] would give. *)
Theorem RefreshCounters_after_commit_shows_roster (roster mid : list NameEntry) (w : Z)
    (lv : ListView) :
  increment_counter w roster = Ok mid →
  PopulateListView roster lv = map row_of roster
  ∧ RefreshCounters (NormalizeCounters mid) (PopulateListView roster lv)
    = map row_of (NormalizeCounters mid)
  ∧ RefreshCounters (NormalizeCounters mid) (PopulateListView roster lv)
    = PopulateListView (NormalizeCounters mid) lv.
Proof.
  intros Hmid.
  assert (∀ entries, PopulateListView entries lv = map row_of entries) as Hpop.
  { intros entries. apply (populate_from_spec entries []). }
  assert (RefreshCounters (NormalizeCounters mid) (map row_of roster)
          = map row_of (NormalizeCounters mid)) as Href.
  { apply (refresh_from_spec _ [] (map row_of roster)).
    destruct (commit_at _ _ _ Hmid) as (shift & _ & _ & Hat).
    rewrite <- list_fmap_compose. apply list_eq. intros i.
    rewrite !list_lookup_fmap. specialize (Hat (Z.of_nat i)).
    rewrite !at_of_nat in Hat. rewrite Hat. by destruct (roster !! i). }
  rewrite !Hpop. by rewrite Href.
Qed.

Lemma RefreshCounters_after_commit_shows_roster_witness :
  increment_counter 1 two_names = Ok [mkEntry (L "Alice") 0; mkEntry (L "Bob") 1]
  ∧ PopulateListView two_names [] = map row_of two_names
  ∧ RefreshCounters (NormalizeCounters [mkEntry (L "Alice") 0; mkEntry (L "Bob") 1])
      (PopulateListView two_names [])
    = map row_of (NormalizeCounters [mkEntry (L "Alice") 0; mkEntry (L "Bob") 1])
  ∧ RefreshCounters (NormalizeCounters [mkEntry (L "Alice") 0; mkEntry (L "Bob") 1])
      (PopulateListView two_names [])
    = PopulateListView (NormalizeCounters [mkEntry (L "Alice") 0; mkEntry (L "Bob") 1]) [].
Proof.
  split; [reflexivity|].
  exact (RefreshCounters_after_commit_shows_roster two_names
           [mkEntry (L "Alice") 0; mkEntry (L "Bob") 1] 1 [] eq_refl).
Defined.

(** * Commands while a batch runs *)

(** X24.  While a batch runs every command of a button or of the menu
    returns, and none changes the roster, the timers, the counts and the
    sets of the batch, the path, the winner and the blinking of the draw
    under way, the stream of random numbers, the path of the session or the
    files. *)
Theorem commands_leave_running_batch_alone `{Win32} (id : Command) (s : State) :
  g_animRunning s = true →
  ∃ s', WndProc (WM_COMMAND id) s = Ok s'
      ∧ same_batch s s'
      ∧ g_rng s' = g_rng s
      ∧ g_filePath s' = g_filePath s
      ∧ disk s' = disk s.
Proof.
  intros Hrun. destruct id as [chosen|n| | |ok|]; cbn [WndProc];
    unfold OnLoadExcel, OnReloadExcel, OnDrawClicked; rewrite ?Hrun, ?orb_true_r;
    eexists; (split; [reflexivity|]); try destruct ok; by repeat split.
Qed.

(** * Examples of the batch views and of the message loop *)

Lemma two_midway_eq : @run ascii_platform 20 two_clicked = Ok (two_midway.1, two_midway.2).
Proof. vm_compute. reflexivity. Qed.

Lemma saving_start_idle : idle saving_start.
Proof. split; [reflexivity|]. intros t. reflexivity. Qed.

Lemma saving_clicked_eq : OnDrawClicked 2 saving_start = Ok saving_clicked.
Proof. vm_compute. reflexivity. Qed.

Lemma saving_done_eq :
  @run ascii_platform 60 saving_clicked = Ok (saving_done.1, saving_done.2).
Proof. vm_compute. reflexivity. Qed.

Lemma batch_keeps_one_timer_set_witness :
  idle two_start
  ∧ OnDrawClicked 2 two_start = Ok two_clicked
  ∧ @run ascii_platform 20 two_clicked = Ok (two_midway.1, two_midway.2)
  ∧ (∀ t t', timers two_midway.2 t = true → timers two_midway.2 t' = true → t = t')
  ∧ ((∃ t, timers two_midway.2 t = true) ↔ g_animRunning two_midway.2 = true)
  ∧ (g_animRunning two_midway.2 = false → idle two_midway.2).
Proof.
  split; [exact two_start_idle|]. split; [exact two_clicked_eq|].
  split; [exact two_midway_eq|].
  exact (@batch_keeps_one_timer_set ascii_platform 2 20 two_start two_clicked
           two_midway.2 two_midway.1 two_start_idle two_clicked_eq two_midway_eq).
Defined.

Lemma finished_batch_shows_its_winners_witness :
  idle two_start ∧ g_entries two_start ≠ [] ∧ 1 ≤ 2
  ∧ OnDrawClicked 2 two_start = Ok two_clicked
  ∧ @run ascii_platform 60 two_clicked = Ok (two_done.1, two_done.2)
  ∧ g_animRunning two_done.2 = false
  ∧ g_winnerRows two_done.2 = g_winnerRows two_start ∪ list_to_set (winners two_done.1)
  ∧ g_scanHighlightRow two_done.2 < 0
  ∧ ∀ row, 0 ≤ row →
      (row ∈ winners two_done.1 ∨ row ∈ g_winnerRows two_start →
       clrTextBk row two_done.2 = RGB 200 230 201)
      ∧ (¬ (row ∈ winners two_done.1 ∨ row ∈ g_winnerRows two_start) →
         clrTextBk row two_done.2 = RGB 255 255 255).
Proof.
  assert (g_entries two_start ≠ []) as Hne by discriminate.
  assert (g_animRunning two_done.2 = false) as Hstop by reflexivity.
  split; [exact two_start_idle|]. split; [exact Hne|]. split; [lia|].
  split; [exact two_clicked_eq|]. split; [exact two_done_eq|]. split; [exact Hstop|].
  exact (@finished_batch_shows_its_winners ascii_platform 2 60 two_start two_clicked
           two_done.2 two_done.1 two_start_idle Hne ltac:(lia) two_clicked_eq two_done_eq
           Hstop).
Defined.

Lemma batch_saves_roster_at_its_end_witness :
  idle saving_start ∧ g_entries saving_start ≠ [] ∧ 1 ≤ 2
  ∧ OnDrawClicked 2 saving_start = Ok saving_clicked
  ∧ @run ascii_platform 60 saving_clicked = Ok (saving_done.1, saving_done.2)
  ∧ g_animRunning saving_done.2 = false
  ∧ g_filePath saving_start = names_csv
  ∧ files (disk saving_done.2) !! names_csv
    = Some (@csv_bytes ascii_platform (g_entries saving_done.2))
  ∧ g_filePath saving_done.2 = g_filePath saving_start
  ∧ (g_animRunning saving_done.2 = true →
     disk saving_done.2 = disk saving_start
     ∧ messageBoxes saving_done.2 = messageBoxes saving_start)
  ∧ (g_animRunning saving_done.2 = false →
     (disk saving_done.2, messageBoxes saving_done.2)
     = @round_saved ascii_platform (g_filePath saving_start) (g_entries saving_done.2)
         (disk saving_start) (messageBoxes saving_start))
  ∧ (g_animRunning saving_done.2 = false → g_filePath saving_start ≠ [] →
     refuses (disk saving_start) FOPEN_WRITE (g_filePath saving_start ++ L ".tmp") = false →
     refuses (disk saving_start) REMOVE (g_filePath saving_start ++ L ".tmp") = false →
     refuses (disk saving_start) COPY (g_filePath saving_start) = false
     ∨ (refuses (disk saving_start) REMOVE (g_filePath saving_start) = false
        ∧ refuses (disk saving_start) RENAME (g_filePath saving_start) = false) →
     files (disk saving_done.2) !! g_filePath saving_start
     = Some (@csv_bytes ascii_platform (g_entries saving_done.2))
     ∧ messageBoxes saving_done.2 = messageBoxes saving_start).
Proof.
  assert (g_entries saving_start ≠ []) as Hne by discriminate.
  split; [exact saving_start_idle|]. split; [exact Hne|]. split; [lia|].
  split; [exact saving_clicked_eq|]. split; [exact saving_done_eq|].
  split; [reflexivity|]. split; [reflexivity|]. split; [vm_compute; reflexivity|].
  exact (@batch_saves_roster_at_its_end ascii_platform 2 60 saving_start saving_clicked
           saving_done.2 saving_done.1 saving_start_idle Hne ltac:(lia) saving_clicked_eq
           saving_done_eq).
Defined.

Lemma running_batch_status_names_last_winner_witness :
  idle two_start ∧ g_entries two_start ≠ [] ∧ 1 ≤ 2
  ∧ OnDrawClicked 2 two_start = Ok two_clicked
  ∧ @run ascii_platform 20 two_clicked = Ok (two_midway.1, two_midway.2)
  ∧ g_animRunning two_midway.2 = true
  ∧ winners two_midway.1 = [1]
  ∧ let total := Z.min 2 (Z.of_nat (length (g_entries two_start))) in
    statusText two_midway.2
    = match last two_midway.1 with
      | None => L "Ziehe " ++ to_wstring total ++ L " Person(en) " ++ [8230%N]
      | Some (w, _) =>
          L "Gezogen: " ++ to_wstring (Z.of_nat (length two_midway.1)) ++ L "/"
          ++ to_wstring total ++ L " " ++ [8211%N] ++ L " Gewinner: "
          ++ name_at (g_entries two_start) w
      end.
Proof.
  assert (g_entries two_start ≠ []) as Hne by discriminate.
  assert (g_animRunning two_midway.2 = true) as Hrun by reflexivity.
  split; [exact two_start_idle|]. split; [exact Hne|]. split; [lia|].
  split; [exact two_clicked_eq|]. split; [exact two_midway_eq|]. split; [exact Hrun|].
  split; [reflexivity|].
  exact (@running_batch_status_names_last_winner ascii_platform 2 20 two_start two_clicked
           two_midway.2 two_midway.1 two_start_idle Hne ltac:(lia) two_clicked_eq
           two_midway_eq Hrun).
Defined.


Lemma commands_leave_running_batch_alone_witness :
  g_animRunning two_clicked = true
  ∧ ∃ s', @WndProc ascii_platform (WM_COMMAND IDC_BTN_CLEAR) two_clicked = Ok s'
        ∧ same_batch two_clicked s'
        ∧ g_rng s' = g_rng two_clicked
        ∧ g_filePath s' = g_filePath two_clicked
        ∧ disk s' = disk two_clicked.
Proof.
  split; [reflexivity|].
  exact (@commands_leave_running_batch_alone ascii_platform IDC_BTN_CLEAR two_clicked
           eq_refl).
Defined.
